(** * Rewrap: the paragraph re-wrapping of [rewrap/rewrap.py]

    A shallow embedding of the text functions of the gedit Rewrap plugin
    ([RewrapWindowHelper._rewrap_selection] and its local closure
    [format_paragraph]) and the properties of the re-wrapped text.

    [rewrap.py] is a Python 2 module (PyGTK, gedit 2, gconf): the selected
    text handed over by [document.get_text] is a byte string ([str]).
    Characters are therefore bytes ([ascii]), strings are [list ascii],
    [str.splitlines] breaks lines at LF, CR and CR LF, and the regular
    expression class [\s] is the six ASCII white space bytes.  Python
    integers are unbounded: widths and offsets are in [Z].

    The development also covers the document side of the plugin,
    [_get_text_selection] and [_replace_text_selection] on a model of
    the text buffer of gtk, and the plugin object with its window
    helpers and their menu, on a model of the UI manager of gtk.  The
    calls of [LOGGER.log] change nothing of this and are left out. *)

From Stdlib Require Import Ascii String List ZArith Lia Bool Arith.
Import ListNotations.

Local Open Scope string_scope.
Local Open Scope list_scope.

(** ** Strings and characters *)

Definition str := list ascii.

Definition lit (s : string) : str := list_ascii_of_string s.

Definition NL : ascii := "010"%char.
Definition CR : ascii := "013"%char.
Definition TAB : ascii := "009"%char.
Definition VT : ascii := "011"%char.
Definition FF : ascii := "012"%char.
Definition SP : ascii := " "%char.
Definition DOT : ascii := "."%char.

(** [c in chars] for a one-character [c]. *)
Definition in_chars (c : ascii) (chars : str) : bool :=
  existsb (Ascii.eqb c) chars.

(** [len(s)] as a Python integer. *)
Definition len (s : str) : Z := Z.of_nat (length s).

(** [s.count(c)] for a one-character [c]. *)
Definition count (c : ascii) (s : str) : Z :=
  Z.of_nat (length (filter (Ascii.eqb c) s)).

(** [INDENT_CHARS = ' \t#/;*!-'] (line 41). *)
Definition INDENT_CHARS : str :=
  [SP; TAB; "#"; "/"; ";"; "*"; "!"; "-"]%char.

Definition is_indent_char (c : ascii) : bool := in_chars c INDENT_CHARS.

(** ** The string methods used by the plugin *)

(** [s.lstrip(chars)]: drop the leading characters that occur in [chars]. *)
Fixpoint lstrip (chars : str) (s : str) : str :=
  match s with
  | [] => []
  | c :: s' => if in_chars c chars then lstrip chars s' else s
  end.

(** [sep.join(parts)]. *)
Fixpoint join (sep : str) (parts : list str) : str :=
  match parts with
  | [] => []
  | [p] => p
  | p :: ps => p ++ sep ++ join sep ps
  end.

(** The line terminators of [str.splitlines] on a byte string. *)
Definition is_linebreak (c : ascii) : bool := Ascii.eqb c NL || Ascii.eqb c CR.

(** [s.splitlines()] of a byte string: a line ends at LF, at CR or at
    CR LF (one terminator), the terminators are dropped, and no empty line
    is reported after the last terminator. *)
Fixpoint splitlines (s : str) : list str :=
  match s with
  | [] => []
  | c :: s' =>
      if Ascii.eqb c NL then [] :: splitlines s'
      else if Ascii.eqb c CR then
        match s' with
        | c' :: s'' => if Ascii.eqb c' NL then [] :: splitlines s''
                       else [] :: splitlines s'
        | [] => [[]]
        end
      else
        match splitlines s' with
        | [] => [[c]]
        | l :: ls => (c :: l) :: ls
        end
  end.

(** ** Regular expressions

    The fragment of [re] the plugin uses: character classes, [^] under
    [re.MULTILINE], concatenation and the greedy repetitions [*] and [+].
    A match is searched the way the backtracking engine does it: [exec r
    c k] tries the ways [r] can match from the cursor [c] in the order of
    the engine (for a repetition, one more iteration before stopping) and
    hands each end to the continuation [k], which matches what follows;
    the first success is the result. *)

Inductive regex : Type :=
| Chr (p : ascii -> bool)
| Bol
| Cat (r1 r2 : regex)
| Star (r : regex)
| Plus (r : regex).

(** A position in the subject string: what is left to read, and whether
    the position is the start of the string or follows a newline. *)
Record cursor : Type := Cursor { bol : bool; rest : str }.

Definition advance (a : ascii) (s : str) : cursor :=
  Cursor (Ascii.eqb a NL) s.

Definition progress (c c' : cursor) : bool :=
  Nat.ltb (length (rest c')) (length (rest c)).

Section Exec.

Variable A : Type.

(** Greedy repetition of [body], at most [n] more times.  An iteration
    that consumes nothing is not repeated. *)
Fixpoint repeat_greedy
    (body : cursor -> (cursor -> option A) -> option A)
    (k : cursor -> option A) (n : nat) (c : cursor) : option A :=
  match n with
  | O => k c
  | S n' =>
      match body c (fun c' => if progress c c'
                              then repeat_greedy body k n' c'
                              else None) with
      | Some m => Some m
      | None => k c
      end
  end.

Fixpoint exec (r : regex) (c : cursor) (k : cursor -> option A)
  : option A :=
  match r with
  | Chr p =>
      match rest c with
      | a :: s => if p a then k (advance a s) else None
      | [] => None
      end
  | Bol => if bol c then k c else None
  | Cat r1 r2 => exec r1 c (fun c1 => exec r2 c1 k)
  | Star r' => repeat_greedy (exec r') k (length (rest c)) c
  | Plus r' =>
      exec r' c (fun c' => repeat_greedy (exec r') k (length (rest c')) c')
  end.

End Exec.

Arguments repeat_greedy {A} body k n c.
Arguments exec {A} r c k.

(** The text between two cursors of one string. *)
Definition consumed (c c' : cursor) : str :=
  firstn (length (rest c) - length (rest c')) (rest c).

(** [re.match(r, s)]: the match at the start of [s], if any. *)
Definition re_match (r : regex) (s : str) : option str :=
  match exec r (Cursor true s) Some with
  | Some c' => Some (consumed (Cursor true s) c')
  | None => None
  end.

(** [m.group(0)]; the plugin calls it on the match of a starred class,
    which never fails (lemma [re_match_indent_re]). *)
Definition group0 (m : option str) : str :=
  match m with Some g => g | None => [] end.

(** The scan of [re.findall]: the leftmost match from the current
    position on, then the search resumes where the match ended (one
    character further after an empty match). *)
Fixpoint scan (r : regex) (fuel : nat) (c : cursor) : list str :=
  match fuel with
  | O => []
  | S fuel' =>
      match exec r c Some, rest c with
      | Some c', a :: s =>
          if progress c c'
          then consumed c c' :: scan r fuel' c'
          else [] :: scan r fuel' (advance a s)
      | Some c', [] => [[]]
      | None, a :: s => scan r fuel' (advance a s)
      | None, [] => []
      end
  end.

(** [re.findall(r, s)] for an [r] without groups: every position is
    visited at most once, so [length s + 1] rounds are enough. *)
Definition findall (r : regex) (s : str) : list str :=
  scan r (S (length s)) (Cursor true s).

(** ** The character classes and patterns of the plugin *)

(** [\s] on a byte string: space, TAB, LF, VT, FF, CR. *)
Definition is_space (c : ascii) : bool :=
  in_chars c [SP; TAB; NL; VT; FF; CR].

(** [\S]. *)
Definition non_space (c : ascii) : bool := negb (is_space c).

(** [[ \t]]. *)
Definition blank (c : ascii) : bool := in_chars c [SP; TAB].

(** ['[%s]*' % INDENT_CHARS] (line 236). *)
Definition indent_re : regex := Star (Chr is_indent_char).

(** ['\S+'] (line 249). *)
Definition token_re : regex := Plus (Chr non_space).

(** [word_re = r'[ \t]*\S+'] (line 274). *)
Definition word_re : regex := Cat (Star (Chr blank)) (Plus (Chr non_space)).

(** [line_re = r'^(?:' + word_re + r')+\n'] (line 275). *)
Definition line_re : regex :=
  Cat Bol (Cat (Plus word_re) (Chr (Ascii.eqb NL))).

(** [paragraph_re = r'(?:' + line_re + ')+'] (line 276). *)
Definition paragraph_re : regex := Plus line_re.

(** ** [format_paragraph] (lines 243-271) *)

Definition CAPITALS : str := lit "ABCDEFGHIJKLMNOPQRSTUVWXYZ".

(** The two variables the loop of [format_paragraph] updates. *)
Record fp_state : Type := FpState { new_paragraph : str; offset : Z }.

Section FormatParagraph.

(** The variables of [_rewrap_selection] the closure reads. *)
Variable indent : str.
Variable indent_width : Z.
Variable max_line_length : Z.

(** [new_paragraph[-1] == '.'] and [word[0] in 'ABC...Z'] (lines
    254-255); both subscripts are in range whenever the loop evaluates
    them (lemma [format_words_subscripts]). *)
Definition is_after_period (np : str) : bool := Ascii.eqb (last np SP) DOT.
Definition is_before_capital (word : str) : bool :=
  in_chars (hd SP word) CAPITALS.

Definition space_for (np word : str) : str :=
  if is_after_period np && is_before_capital word then [SP; SP] else [SP].

(** One round of the loop [for word in words] (lines 250-269). *)
Definition add_word (st : fp_state) (word : str) : fp_state :=
  let st1 :=
    if negb (offset st =? 0)%Z then
      let space := space_for (new_paragraph st) word in
      let potential_offset := (offset st + len space + len word)%Z in
      if (potential_offset <=? max_line_length)%Z
      then FpState (new_paragraph st ++ space ++ word) potential_offset
      else FpState (new_paragraph st ++ [NL]) 0
    else st in
  if (offset st1 =? 0)%Z
  then FpState (new_paragraph st1 ++ indent ++ word)
               (indent_width + len word)
  else st1.

Definition format_words (words : list str) : str :=
  new_paragraph (fold_left add_word words (FpState [] 0)) ++ [NL].

Definition format_paragraph (paragraph : str) : str :=
  format_words (findall token_re paragraph).

End FormatParagraph.

(** ** [_rewrap_selection] (lines 225-288) *)

(** The indent of the selection and its width (lines 236-237). *)
Definition extract_indent (text : str) : str :=
  group0 (re_match indent_re text).

Definition indent_width_of (indent : str) (tab_width : Z) : Z :=
  (len indent + count TAB indent * (tab_width - 1))%Z.

(** Removal of the indentation of every line (lines 240-241). *)
Definition strip_indent (text : str) : str :=
  join [NL] (map (lstrip INDENT_CHARS) (splitlines text)).

(** The paragraphs of the stripped text (lines 274-277). *)
Definition paragraphs_of (text : str) : list str :=
  findall paragraph_re text.

(** The text that replaces a non-empty selection (lines 231-285); the
    specification calls this operation [reflow]. *)
Definition reflow (selection : str) (max_line_length tab_width : Z) : str :=
  let text := selection ++ [NL] in
  let indent := extract_indent text in
  let indent_width := indent_width_of indent tab_width in
  let text := strip_indent text in
  let paragraphs := paragraphs_of text in
  let new_paragraphs :=
    map (format_paragraph indent indent_width max_line_length) paragraphs in
  let blank_line := indent ++ [NL] in
  join blank_line new_paragraphs.

(** [_rewrap_selection]: nothing is replaced when the selection is empty
    (lines 229-230), otherwise the selection is replaced by [reflow]. *)
Definition rewrap_selection (selection : str) (max_line_length tab_width : Z)
  : option str :=
  match selection with
  | [] => None
  | _ => Some (reflow selection max_line_length tab_width)
  end.

(** Multi-line literals for examples: the given lines, each terminated
    by a newline. *)
Definition text_of (ls : list string) : str :=
  concat (map (fun l => lit l ++ [NL]) ls).

(** ** Auxiliary definitions for the proofs *)

Fixpoint take_while (p : ascii -> bool) (s : str) : str :=
  match s with
  | [] => []
  | c :: s' => if p c then c :: take_while p s' else []
  end.

Fixpoint drop_while (p : ascii -> bool) (s : str) : str :=
  match s with
  | [] => []
  | c :: s' => if p c then drop_while p s' else s
  end.

(** The search tree of [exec], flattened: every end of a match of [r]
    from [c], in the order the engine reaches them. *)
Fixpoint iter (body : cursor -> list cursor) (n : nat) (c : cursor)
  : list cursor :=
  match n with
  | O => [c]
  | S n' =>
      flat_map (fun c' => if progress c c' then iter body n' c' else [])
               (body c) ++ [c]
  end.

Fixpoint run (r : regex) (c : cursor) : list cursor :=
  match r with
  | Chr p =>
      match rest c with
      | a :: s => if p a then [advance a s] else []
      | [] => []
      end
  | Bol => if bol c then [c] else []
  | Cat r1 r2 => flat_map (run r2) (run r1 c)
  | Star r' => iter (run r') (length (rest c)) c
  | Plus r' =>
      flat_map (fun c' => iter (run r') (length (rest c')) c') (run r' c)
  end.

Fixpoint first_some {A : Type} (k : cursor -> option A) (l : list cursor)
  : option A :=
  match l with
  | [] => None
  | c :: l' => match k c with Some m => Some m | None => first_some k l' end
  end.

(** Whether the position after reading [m] is the start of a line. *)
Definition bol_after (b : bool) (m : str) : bool :=
  match m with
  | [] => b
  | _ => Ascii.eqb (last m SP) NL
  end.

(** The strings an expression matches from a position whose
    start-of-line status is [b]. *)
Inductive matches : regex -> bool -> str -> Prop :=
| M_chr p b a : p a = true -> matches (Chr p) b [a]
| M_bol : matches Bol true []
| M_cat r1 r2 b m1 m2 :
    matches r1 b m1 -> matches r2 (bol_after b m1) m2 ->
    matches (Cat r1 r2) b (m1 ++ m2)
| M_star_nil r b : matches (Star r) b []
| M_star_cons r b m1 m2 :
    matches r b m1 -> m1 <> [] -> matches (Star r) (bol_after b m1) m2 ->
    matches (Star r) b (m1 ++ m2)
| M_plus r b m1 m2 :
    matches r b m1 -> matches (Star r) (bol_after b m1) m2 ->
    matches (Plus r) b (m1 ++ m2).

(** The white-space-delimited tokens of a string, by a direct scan. *)
Fixpoint tokens (s : str) : list str :=
  match s with
  | [] => []
  | c :: s' =>
      if is_space c then tokens s'
      else
        match s' with
        | [] => [[c]]
        | c' :: _ =>
            if is_space c' then [c] :: tokens s'
            else match tokens s' with
                 | t :: ts => (c :: t) :: ts
                 | [] => [[c]]
                 end
        end
  end.

(** A string that is empty or starts with white space: what may follow
    a token. *)
Definition starts_with_space (s : str) : Prop :=
  match s with [] => True | c :: _ => is_space c = true end.

(** [re.findall] with the fuel of the position it starts from. *)
Definition findall_at (r : regex) (c : cursor) : list str :=
  scan r (S (length (rest c))) c.

(** The lines [line_re] accepts between a line start and the next
    newline: spaces, tabs and non-blank characters, ending in a non-blank
    character. *)
Definition line_char (c : ascii) : bool := blank c || non_space c.

Definition good_line (l : str) : bool :=
  forallb line_char l && non_space (last l SP).

Definition no_nl (l : str) : bool :=
  forallb (fun c => negb (Ascii.eqb c NL)) l.

(** The text made of the given lines, each terminated by a newline. *)
Definition nl_text (ls : list str) : str :=
  concat (map (fun l => l ++ [NL]) ls).

Fixpoint good_prefix (ls : list str) : list str :=
  match ls with
  | l :: ls' => if good_line l then l :: good_prefix ls' else []
  | [] => []
  end.

Fixpoint after_good (ls : list str) : list str :=
  match ls with
  | l :: ls' => if good_line l then after_good ls' else ls
  | [] => []
  end.

(** The maximal runs of consecutive accepted lines; [cur] is the run
    being collected. *)
Fixpoint group_lines (cur : list str) (ls : list str) : list (list str) :=
  match ls with
  | [] => match cur with [] => [] | _ => [cur] end
  | l :: ls' =>
      if good_line l then group_lines (cur ++ [l]) ls'
      else match cur with
           | [] => group_lines [] ls'
           | _ => cur :: group_lines [] ls'
           end
  end.

(** No line terminator of [splitlines] in a string. *)
Definition no_break (l : str) : bool :=
  forallb (fun c => negb (is_linebreak c)) l.

(** The lines of a text after the removal of their indentation. *)
Definition stripped_lines (text : str) : list str :=
  map (lstrip INDENT_CHARS) (splitlines text).

(** The first line of a text (empty for the empty text). *)
Definition first_line (text : str) : str := hd [] (splitlines text).

(** A string without its final newline, if it has one. *)
Definition drop_final_nl (s : str) : str :=
  match s with
  | [] => []
  | _ => if Ascii.eqb (last s SP) NL then removelast s else s
  end.

Section Layout.

Variable indent : str.
Variable indent_width : Z.
Variable max_line_length : Z.

(** The words of one output line with the spacing of lines 254-257
    between them. *)
Fixpoint render_words (ws : list str) : str :=
  match ws with
  | [] => []
  | w :: ws' =>
      match ws' with
      | [] => w
      | w' :: _ => w ++ space_for w w' ++ render_words ws'
      end
  end.

Definition render_line (ws : list str) : str := indent ++ render_words ws.

Definition line_width (ws : list str) : Z :=
  (indent_width + len (render_words ws))%Z.

(** The test of line 260 for the word [w] after the words [cur]. *)
Definition fits (cur : list str) (w : str) : bool :=
  (line_width cur + len (space_for (render_words cur) w) + len w
   <=? max_line_length)%Z.

(** Greedy filling: [cur] holds the words of the line being filled. *)
Fixpoint layout (cur : list str) (ws : list str) : list (list str) :=
  match ws with
  | [] => [cur]
  | w :: ws' =>
      if fits cur w then layout (cur ++ [w]) ws' else cur :: layout [w] ws'
  end.

Definition layout_words (ws : list str) : list (list str) :=
  match ws with
  | [] => []
  | w :: ws' => layout [w] ws'
  end.

(** The state of the loop of [format_paragraph] while the line [cur] is
    being filled, [pre] being the text of the finished lines. *)
Definition filling (pre : str) (cur : list str) : fp_state :=
  FpState (pre ++ render_line cur) (line_width cur).

End Layout.

(** A proper word: not empty, no white space. *)
Definition is_word (w : str) : bool :=
  negb (Nat.eqb (length w) 0) && forallb non_space w.

(** Blocks of lines with one separator line between consecutive blocks. *)
Fixpoint join_lines (sep : str) (blocks : list (list str)) : list str :=
  match blocks with
  | [] => []
  | [b] => b
  | b :: bs => b ++ sep :: join_lines sep bs
  end.

(** The column width of a line: a tab counts [tab_width] columns. *)
Definition col_width (tab_width : Z) (l : str) : Z :=
  (len l + count TAB l * (tab_width - 1))%Z.

(** The lines of the replacement text: the lines of every re-wrapped
    paragraph, one line holding the indent between two paragraphs. *)
Definition paragraph_lines (indent : str) (indent_width max_line_length : Z)
           (paragraph : str) : list str :=
  map (render_line indent)
      (layout_words indent_width max_line_length (tokens paragraph)).

Definition out_lines (selection : str) (max_line_length tab_width : Z)
  : list str :=
  let indent := extract_indent (selection ++ [NL]) in
  join_lines indent
    (map (paragraph_lines indent (indent_width_of indent tab_width)
                          max_line_length)
         (paragraphs_of (strip_indent (selection ++ [NL])))).

(** The tokens of the lines of an output text, the indent prefix of each
    line left out. *)
Definition out_tokens (indent : str) (out : str) : list str :=
  flat_map (fun l => tokens (skipn (length indent) l)) (splitlines out).

(** How many times a token occurs in a list of tokens. *)
Definition occurrences (tok : str) (toks : list str) : nat :=
  count_occ (list_eq_dec ascii_dec) toks tok.

(** Whether the indent of a line is exactly [indent]: what follows the
    first [len(indent)] characters does not start with an indent
    character. *)
Definition indent_exact (indent : str) (l : str) : bool :=
  match skipn (length indent) l with
  | [] => true
  | c :: _ => negb (is_indent_char c)
  end.

(** A relation that holds between every two consecutive elements. *)
Fixpoint consecutive {A : Type} (R : A -> A -> Prop) (l : list A) : Prop :=
  match l with
  | [] => True
  | a :: tl =>
      match tl with
      | [] => True
      | b :: _ => R a b /\ consecutive R tl
      end
  end.

(** ** The text buffer of the document *)

(** [_get_text_selection] and [_replace_text_selection] (lines 290-352)
    read and change the document, a [gtk.TextBuffer].  The buffer is
    modelled by its text and its marks; an iterator ([gtk.TextIter]) is an
    offset into the text.  The buffer keeps two standing marks, [insert]
    (the cursor) and [selection_bound], both with right gravity; some
    text is selected when they differ.  The operations follow the
    documentation of gtk:
    - [delete] removes the text between two iterators, whatever their
      order, and leaves both at the place of the deletion; a mark inside
      the deleted text ends up there too;
    - [insert] puts text at an iterator and leaves the iterator at the
      end of the new text; a mark at the place of the insertion stays
      before the new text if it has left gravity and moves behind it
      otherwise;
    - [create_mark] without a name adds an anonymous mark. *)
Module TextBuffer.

Record buffer := Buffer {
  text : str;
  insert_offset : nat;
  selection_bound_offset : nat;
  anonymous : list (nat * bool)
}.

Inductive mark :=
| Insert_mark
| Selection_bound_mark
| Anonymous_mark (i : nat).

Definition get_insert (b : buffer) : mark := Insert_mark.

Definition get_iter_at_mark (b : buffer) (m : mark) : nat :=
  match m with
  | Insert_mark => insert_offset b
  | Selection_bound_mark => selection_bound_offset b
  | Anonymous_mark i => fst (nth i (anonymous b) (0, false))
  end.

Definition get_has_selection (b : buffer) : bool :=
  negb (insert_offset b =? selection_bound_offset b)%nat.

Definition get_selection_bounds (b : buffer) : nat * nat :=
  (Nat.min (insert_offset b) (selection_bound_offset b),
   Nat.max (insert_offset b) (selection_bound_offset b)).

Definition get_text (b : buffer) (start_iter end_iter : nat) : str :=
  let lo := Nat.min start_iter end_iter in
  let hi := Nat.max start_iter end_iter in
  firstn (hi - lo) (skipn lo (text b)).

(** Where an offset is after the text between [lo] and [hi] is gone. *)
Definition after_delete (lo hi p : nat) : nat :=
  if (p <=? lo)%nat then p
  else if (p <=? hi)%nat then lo
  else p - (hi - lo).

(** Where an offset is after [n] characters are inserted at [pos]. *)
Definition after_insert (left_gravity : bool) (pos n p : nat) : nat :=
  if (p <? pos)%nat then p
  else if (p =? pos)%nat && left_gravity then p
  else p + n.

(** [delete] returns the buffer and the place of both iterators. *)
Definition delete (b : buffer) (start_iter end_iter : nat) : buffer * nat :=
  let lo := Nat.min start_iter end_iter in
  let hi := Nat.max start_iter end_iter in
  (Buffer (firstn lo (text b) ++ skipn hi (text b))
          (after_delete lo hi (insert_offset b))
          (after_delete lo hi (selection_bound_offset b))
          (map (fun m => (after_delete lo hi (fst m), snd m)) (anonymous b)),
   lo).

Definition create_mark (b : buffer) (pos : nat) (left_gravity : bool)
  : buffer * mark :=
  (Buffer (text b) (insert_offset b) (selection_bound_offset b)
          (anonymous b ++ [(pos, left_gravity)]),
   Anonymous_mark (length (anonymous b))).

(** [insert] returns the buffer and the place of the iterator. *)
Definition insert (b : buffer) (pos : nat) (s : str) : buffer * nat :=
  (Buffer (firstn pos (text b) ++ s ++ skipn pos (text b))
          (after_insert false pos (length s) (insert_offset b))
          (after_insert false pos (length s) (selection_bound_offset b))
          (map (fun m => (after_insert (snd m) pos (length s) (fst m), snd m))
               (anonymous b)),
   pos + length s).

Definition move_mark_by_name (b : buffer) (name : string) (pos : nat)
  : buffer :=
  if String.eqb name "insert" then
    Buffer (text b) pos (selection_bound_offset b) (anonymous b)
  else if String.eqb name "selection_bound" then
    Buffer (text b) (insert_offset b) pos (anonymous b)
  else b.

End TextBuffer.

(** ** The selection and its replacement (lines 290-352) *)

Section Document.

(** The line structure of the buffer, as its iterators see it:
    [starts_line], [set_line_offset(0)] and [forward_line] at an offset
    of a text. *)
Variable starts_line : str -> nat -> bool.
Variable set_line_offset_0 : str -> nat -> nat.
Variable forward_line : str -> nat -> nat.

(** The integer settings of gconf. *)
Variable gconf_get_int : string -> Z.

(** [_get_text_selection] (lines 290-314) on the active document of the
    window: the iterators it leaves in [self._start_iter] and
    [self._end_iter], and the text it returns. *)
Definition get_text_selection (document : TextBuffer.buffer)
  : nat * nat * str :=
  let '(start_iter, end_iter) :=
    if TextBuffer.get_has_selection document then
      TextBuffer.get_selection_bounds document
    else
      let insert_mark := TextBuffer.get_insert document in
      let start_iter := TextBuffer.get_iter_at_mark document insert_mark in
      (start_iter, start_iter) in
  let start_iter :=
    if negb (starts_line (TextBuffer.text document) start_iter)
    then set_line_offset_0 (TextBuffer.text document) start_iter
    else start_iter in
  let end_iter :=
    if negb (starts_line (TextBuffer.text document) end_iter)
    then forward_line (TextBuffer.text document) end_iter
    else end_iter in
  (start_iter, end_iter, TextBuffer.get_text document start_iter end_iter).

(** [_get_gedit_margin] and [_get_gedit_tab_width] (lines 316-330). *)
Definition get_gedit_margin : Z :=
  gconf_get_int
    "/apps/gedit-2/preferences/editor/right_margin/right_margin_position".

Definition get_gedit_tab_width : Z :=
  gconf_get_int "/apps/gedit-2/preferences/editor/tabs/tabs_size".

(** [_replace_text_selection] (lines 332-352), with the iterators that
    [_get_text_selection] left. *)
Definition replace_text_selection (document : TextBuffer.buffer)
           (start_iter end_iter : nat) (text : str) : TextBuffer.buffer :=
  let '(document, start_iter) :=
    TextBuffer.delete document start_iter end_iter in
  let '(document, start_mark) :=
    TextBuffer.create_mark document start_iter true in
  let '(document, start_iter) :=
    TextBuffer.insert document start_iter text in
  let new_start_iter := TextBuffer.get_iter_at_mark document start_mark in
  TextBuffer.move_mark_by_name document "selection_bound" new_start_iter.

(** [_rewrap_selection] (lines 225-288) as a change of the document. *)
Definition rewrap_document (document : TextBuffer.buffer)
  : TextBuffer.buffer :=
  let '(start_iter, end_iter, text) := get_text_selection document in
  match rewrap_selection text get_gedit_margin get_gedit_tab_width with
  | None => document
  | Some output => replace_text_selection document start_iter end_iter output
  end.

End Document.

(** The standing marks lie within the text. *)
Definition marks_in_text (b : TextBuffer.buffer) : Prop :=
  TextBuffer.insert_offset b <= length (TextBuffer.text b) /\
  TextBuffer.selection_bound_offset b <= length (TextBuffer.text b).

(** Line operations for a buffer whose lines end with a newline
    character, used for the examples. *)
Fixpoint line_offset_rev (before : str) : nat :=
  match before with
  | [] => 0
  | c :: r => if Ascii.eqb c NL then 0 else S (line_offset_rev r)
  end.

Definition get_line_offset (t : str) (p : nat) : nat :=
  line_offset_rev (rev (firstn p t)).

Fixpoint to_next_line (rest : str) : nat :=
  match rest with
  | [] => 0
  | c :: r => if Ascii.eqb c NL then 1 else S (to_next_line r)
  end.

Definition nl_starts_line (t : str) (p : nat) : bool :=
  (get_line_offset t p =? 0)%nat.

Definition nl_set_line_offset_0 (t : str) (p : nat) : nat :=
  p - get_line_offset t p.

Definition nl_forward_line (t : str) (p : nat) : nat :=
  p + to_next_line (skipn p t).

Definition example_gconf (key : string) : Z :=
  if String.eqb key "/apps/gedit-2/preferences/editor/tabs/tabs_size"
  then 4%Z else 12%Z.

(** ** The plugin and its window helpers (lines 57-221) *)

Definition ACCELERATOR : string := "<Shift><Control><Alt>w".

(** The exceptions of Python that the methods can raise. *)
Inductive exception := KeyError | AttributeError | TypeError.

(** A dictionary with keys in [nat], in the order of insertion:
    [d[k]], [d[k] = v] and [del d[k]]. *)
Fixpoint dict_get {V : Type} (d : list (nat * V)) (k : nat) : option V :=
  match d with
  | [] => None
  | (k', v) :: r => if (k' =? k)%nat then Some v else dict_get r k
  end.

Fixpoint dict_set {V : Type} (d : list (nat * V)) (k : nat) (v : V)
  : list (nat * V) :=
  match d with
  | [] => [(k, v)]
  | (k', v') :: r =>
    if (k' =? k)%nat then (k, v) :: r else (k', v') :: dict_set r k v
  end.

Fixpoint dict_del {V : Type} (d : list (nat * V)) (k : nat)
  : option (list (nat * V)) :=
  match d with
  | [] => None
  | (k', v) :: r =>
    if (k' =? k)%nat then Some r
    else match dict_del r k with
         | Some r' => Some ((k', v) :: r')
         | None => None
         end
  end.

(** The action groups and the UI manager of gtk.  Objects are named by
    numbers: an action group by its place among the action groups that
    were created, a merged UI by its merge id.  The operations follow
    the documentation of gtk: a new action group is sensitive;
    [insert_action_group] leaves out a group that the manager has
    already, and puts it last for the position -1;
    [add_ui_from_string] gives a new merge id; [remove_ui] and
    [remove_action_group] take out what was merged and inserted. *)
Module Gtk.

Record action_entry := ActionEntry {
  name : string;
  stock_id : option string;
  label : string;
  accelerator : string;
  tooltip : string
}.

Record action_group := ActionGroup {
  group_name : string;
  sensitive : bool;
  entries : list action_entry
}.

Record ui_manager := UIManager {
  action_groups : list nat;
  merged : list nat;
  last_merge_id : nat
}.

Definition new_action_group (name : string) : action_group :=
  ActionGroup name true [].

Definition add_actions (g : action_group) (actions : list action_entry)
  : action_group :=
  ActionGroup (group_name g) (sensitive g) (entries g ++ actions).

Definition set_sensitive (g : action_group) (s : bool) : action_group :=
  ActionGroup (group_name g) s (entries g).

Definition insert_action_group (m : ui_manager) (g : nat) (pos : Z)
  : ui_manager :=
  if existsb (Nat.eqb g) (action_groups m) then m
  else
    let n := if (pos <? 0)%Z then length (action_groups m)
             else Z.to_nat pos in
    UIManager (firstn n (action_groups m) ++ g :: skipn n (action_groups m))
              (merged m) (last_merge_id m).

Fixpoint remove_first (g : nat) (l : list nat) : list nat :=
  match l with
  | [] => []
  | x :: r => if (x =? g)%nat then r else x :: remove_first g r
  end.

Definition remove_action_group (m : ui_manager) (g : nat) : ui_manager :=
  UIManager (remove_first g (action_groups m)) (merged m) (last_merge_id m).

Definition add_ui_from_string (m : ui_manager) : ui_manager * nat :=
  let id := S (last_merge_id m) in
  (UIManager (action_groups m) (merged m ++ [id]) id, id).

Definition remove_ui (m : ui_manager) (id : nat) : ui_manager :=
  UIManager (action_groups m)
            (filter (fun i => negb (i =? id)%nat) (merged m))
            (last_merge_id m).

Definition ensure_update (m : ui_manager) : ui_manager := m.

End Gtk.

(** What the plugin sees and changes of gedit: the UI manager of every
    window (windows are numbers), the action groups that were created,
    and for every window the truth of
    [document and view and view.get_editable()] (line 172). *)
Record gedit := Gedit {
  ui_managers : nat -> Gtk.ui_manager;
  action_group_objects : list Gtk.action_group;
  editable : nat -> bool
}.

Definition set_ui_manager (g : gedit) (w : nat) (m : Gtk.ui_manager)
  : gedit :=
  Gedit (fun w' => if (w' =? w)%nat then m else ui_managers g w')
        (action_group_objects g) (editable g).

Fixpoint update_nth {A : Type} (i : nat) (f : A -> A) (l : list A)
  : list A :=
  match l, i with
  | [], _ => []
  | x :: r, O => f x :: r
  | x :: r, S i => x :: update_nth i f r
  end.

Definition update_action_group (g : gedit) (i : nat)
           (f : Gtk.action_group -> Gtk.action_group) : gedit :=
  Gedit (ui_managers g) (update_nth i f (action_group_objects g))
        (editable g).

(** [RewrapWindowHelper]: the attributes of the object (lines 134-149). *)
Record helper := Helper {
  window : option nat;
  menu_ui_id : option nat;
  action_group : option nat;
  start_iter : option nat;
  end_iter : option nat
}.

Definition helper_init (w : nat) : helper :=
  Helper (Some w) None None None None.

(** A method runs on a state and ends with a value or with an exception;
    the state is what the method has made of it by then. *)
Definition method (S A : Type) : Type := S -> (exception + A) * S.

Definition ret {S A : Type} (a : A) : method S A := fun s => (inr a, s).

Definition raise {S A : Type} (e : exception) : method S A :=
  fun s => (inl e, s).

Definition bind {S A B : Type} (m : method S A) (k : A -> method S B)
  : method S B :=
  fun s =>
    match m s with
    | (inl e, s') => (inl e, s')
    | (inr a, s') => k a s'
    end.

Notation "x <- m ;; k" := (bind m (fun x => k))
  (at level 61, m at next level, right associativity).

(** [_insert_menu] (lines 177-211). *)
Definition insert_menu : method (helper * gedit) unit :=
  fun '(h, g) =>
    match window h with
    | None => (inl AttributeError, (h, g))
    | Some w =>
      let manager := ui_managers g w in
      let actions :=
        [Gtk.ActionEntry "Rewrap" None "Rewrap" ACCELERATOR
                         "Re-wrap selected lines."] in
      let group := length (action_group_objects g) in
      let object :=
        Gtk.add_actions (Gtk.new_action_group "RewrapPluginActions")
                        actions in
      let manager := Gtk.insert_action_group manager group (-1) in
      let '(manager, id) := Gtk.add_ui_from_string manager in
      (inr tt,
       (Helper (window h) (Some id) (Some group) (start_iter h) (end_iter h),
        Gedit (fun w' => if (w' =? w)%nat then manager else ui_managers g w')
              (action_group_objects g ++ [object]) (editable g)))
    end.

(** [_remove_menu] (lines 213-221). *)
Definition remove_menu : method (helper * gedit) unit :=
  fun '(h, g) =>
    match window h with
    | None => (inl AttributeError, (h, g))
    | Some w =>
      let manager := ui_managers g w in
      match menu_ui_id h with
      | None => (inl TypeError, (h, g))
      | Some id =>
        let manager := Gtk.remove_ui manager id in
        match action_group h with
        | None => (inl TypeError, (h, set_ui_manager g w manager))
        | Some group =>
          let manager := Gtk.remove_action_group manager group in
          let h := Helper (window h) (menu_ui_id h) None
                          (start_iter h) (end_iter h) in
          let manager := Gtk.ensure_update manager in
          (inr tt, (h, set_ui_manager g w manager))
        end
      end
    end.

(** [RewrapWindowHelper.update_ui] (lines 167-173). *)
Definition helper_update_ui (window : option nat)
  : method (helper * gedit) unit :=
  fun '(h, g) =>
    match window with
    | None => (inl AttributeError, (h, g))
    | Some w =>
      if editable g w then
        match action_group h with
        | None => (inl AttributeError, (h, g))
        | Some group =>
          (inr tt,
           (h, update_action_group g group
                                   (fun a => Gtk.set_sensitive a true)))
        end
      else (inr tt, (h, g))
    end.

(** [RewrapWindowHelper.activate] (lines 153-158). *)
Definition helper_activate : method (helper * gedit) unit :=
  _ <- insert_menu ;;
  fun '(h, g) => helper_update_ui (window h) (h, g).

(** [RewrapWindowHelper.deactivate] (lines 160-165). *)
Definition helper_deactivate : method (helper * gedit) unit :=
  _ <- remove_menu ;;
  fun '(h, g) =>
    (inr tt,
     (Helper None (menu_ui_id h) (action_group h) (start_iter h) (end_iter h),
      g)).

(** [RewrapPlugin] (lines 72-116): the dictionary [_instances], with
    the state of gedit. *)
Record plugin := Plugin {
  instances : list (nat * helper);
  world : gedit
}.

Definition plugin_init (g : gedit) : plugin := Plugin [] g.

(** [self._instances[window].m()]: the helper is looked up and the
    method changes it in its place. *)
Definition on_instance (w : nat) (m : method (helper * gedit) unit)
  : method plugin unit :=
  fun p =>
    match dict_get (instances p) w with
    | None => (inl KeyError, p)
    | Some h =>
      let '(r, (h, g)) := m (h, world p) in
      (r, Plugin (dict_set (instances p) w h) g)
    end.

Definition activate (w : nat) : method plugin unit :=
  _ <- (fun p =>
          (inr tt, Plugin (dict_set (instances p) w (helper_init w))
                          (world p))) ;;
  on_instance w helper_activate.

Definition deactivate (w : nat) : method plugin unit :=
  _ <- on_instance w helper_deactivate ;;
  fun p =>
    match dict_del (instances p) w with
    | None => (inl KeyError, p)
    | Some instances => (inr tt, Plugin instances (world p))
    end.

Definition update_ui (w : nat) : method plugin unit :=
  on_instance w (helper_update_ui (Some w)).

Definition is_configurable : method plugin bool := ret false.

(** The calls gedit makes, and the plugin after a run of them. *)
Inductive call := Activate (w : nat) | Deactivate (w : nat)
                | Update_ui (w : nat).

Definition plugin_call (c : call) : method plugin unit :=
  match c with
  | Activate w => activate w
  | Deactivate w => deactivate w
  | Update_ui w => update_ui w
  end.

Definition after_calls (p : plugin) (cs : list call) : plugin :=
  fold_left (fun p c => snd (plugin_call c p)) cs p.

(** The UI managers name only action groups that exist and merge ids
    that were given out. *)
Definition gedit_ok (g : gedit) : Prop :=
  forall w,
    Forall (fun i => i < length (action_group_objects g))
           (Gtk.action_groups (ui_managers g w)) /\
    Forall (fun i => i <= Gtk.last_merge_id (ui_managers g w))
           (Gtk.merged (ui_managers g w)).

(** The helper of window [w] is active: its menu is merged in the UI of
    the window, and its action group is there and sensitive. *)
Definition helper_active (g : gedit) (w : nat) (h : helper) : Prop :=
  window h = Some w /\
  exists id group a,
    menu_ui_id h = Some id /\ action_group h = Some group /\
    In id (Gtk.merged (ui_managers g w)) /\
    In group (Gtk.action_groups (ui_managers g w)) /\
    nth_error (action_group_objects g) group = Some a /\
    Gtk.sensitive a = true.

Definition plugin_ok (p : plugin) : Prop :=
  gedit_ok (world p) /\
  NoDup (map fst (instances p)) /\
  forall w h, dict_get (instances p) w = Some h ->
              helper_active (world p) w h.

Definition example_gedit : gedit :=
  Gedit (fun _ => Gtk.UIManager [] [] 0) [] (fun w => (w =? 1)%nat).



(** * Properties *)

(** ** Worked examples *)

Example reflow_sentences :
  reflow (text_of ["Hello world. This is a test of wrapping text that is somewhat long."])
         20 4 =
  text_of ["Hello world.  This"; "is a test of"; "wrapping text that";
           "is somewhat long."].
Proof. vm_compute. reflexivity. Qed.

Example reflow_comment :
  reflow (text_of ["# one two three four five six seven"]) 15 4 =
  text_of ["# one two three"; "# four five six"; "# seven"].
Proof. vm_compute. reflexivity. Qed.

Example reflow_two_paragraphs :
  reflow (text_of ["  one two"; "  three"; ""; ""; "  four"]) 80 4 =
  text_of ["  one two three"; "  "; "  four"].
Proof. vm_compute. reflexivity. Qed.

Example reflow_long_token :
  reflow (text_of ["abcdefghijklmnopqrstuvwxyzabcdefghijklmnopqrstuvwxyz"])
         20 4 =
  text_of ["abcdefghijklmnopqrstuvwxyzabcdefghijklmnopqrstuvwxyz"].
Proof. vm_compute. reflexivity. Qed.

Example reflow_tab_indent :
  reflow (TAB :: text_of ["one two three"]) 12 4 =
  TAB :: lit "one two" ++ [NL] ++ TAB :: lit "three" ++ [NL].
Proof. vm_compute. reflexivity. Qed.

Example reflow_abbreviation :
  reflow (text_of ["Mr. Smith went. home"]) 80 4 =
  text_of ["Mr.  Smith went. home"].
Proof. vm_compute. reflexivity. Qed.

Example reflow_empty : reflow [] 80 4 = [] /\ rewrap_selection [] 80 4 = None.
Proof. split; reflexivity. Qed.

Example splitlines_terminators :
  splitlines (lit "a" ++ [CR; NL] ++ lit "b" ++ [CR] ++ lit "c" ++ [NL; NL]) =
  [lit "a"; lit "b"; lit "c"; []].
Proof. reflexivity. Qed.

Example paragraphs_of_lines :
  paragraphs_of (text_of ["x y"; " z w"; ""; ""; "q"]) =
  [text_of ["x y"; " z w"]; text_of ["q"]].
Proof. vm_compute. reflexivity. Qed.

(** A line with trailing white space does not match [line_re]. *)
Example paragraphs_of_trailing_space :
  paragraphs_of (text_of ["a "; "b"]) = [text_of ["b"]].
Proof. vm_compute. reflexivity. Qed.

(** ** Lists and strings *)

Lemma take_drop_while (p : ascii -> bool) (s : str) :
  take_while p s ++ drop_while p s = s.
Proof.
  induction s as [|c s IH]; simpl; [reflexivity|].
  destruct (p c); simpl; [now rewrite IH | reflexivity].
Qed.

Lemma take_while_all (p : ascii -> bool) (s : str) :
  forallb p (take_while p s) = true.
Proof.
  induction s as [|c s IH]; simpl; [reflexivity|].
  destruct (p c) eqn:E; simpl; [now rewrite E | reflexivity].
Qed.

Lemma drop_while_head (p : ascii -> bool) (s : str) c s' :
  drop_while p s = c :: s' -> p c = false.
Proof.
  induction s as [|a s IH]; simpl; [discriminate|].
  destruct (p a) eqn:E; [exact IH|].
  intros [= <- _]. exact E.
Qed.

Lemma take_while_app (p : ascii -> bool) (m s : str) :
  forallb p m = true ->
  take_while p (m ++ s) = m ++ take_while p s.
Proof.
  induction m as [|a m IH]; simpl; [reflexivity|].
  intros H. apply andb_prop in H as [Ha Hm]. rewrite Ha, IH; auto.
Qed.

Lemma drop_while_app (p : ascii -> bool) (m s : str) :
  forallb p m = true ->
  drop_while p (m ++ s) = drop_while p s.
Proof.
  induction m as [|a m IH]; simpl; [reflexivity|].
  intros H. apply andb_prop in H as [Ha Hm]. rewrite Ha, IH; auto.
Qed.

Lemma lstrip_drop_while (chars s : str) :
  lstrip chars s = drop_while (fun c => in_chars c chars) s.
Proof.
  induction s as [|c s IH]; simpl; [reflexivity|].
  now rewrite IH.
Qed.

Lemma last_app_nonempty {A : Type} (l1 l2 : list A) (d : A) :
  l2 <> [] -> last (l1 ++ l2) d = last l2 d.
Proof.
  intros H. induction l1 as [|a l1 IH]; [reflexivity|].
  simpl. rewrite IH.
  destruct (l1 ++ l2) eqn:E; [|reflexivity].
  apply app_eq_nil in E as [_ E]. contradiction.
Qed.

Lemma bol_after_app (b : bool) (m1 m2 : str) :
  bol_after (bol_after b m1) m2 = bol_after b (m1 ++ m2).
Proof.
  destruct m2 as [|a m2].
  - rewrite app_nil_r. reflexivity.
  - unfold bol_after at 1 3.
    destruct (m1 ++ a :: m2) eqn:E.
    + apply app_eq_nil in E as [_ E]. discriminate.
    + rewrite <- E. now rewrite last_app_nonempty.
Qed.

(** ** The engine: [exec] walks the tree that [run] lists *)

Lemma first_some_app {A : Type} (k : cursor -> option A) (l1 l2 : list cursor) :
  first_some k (l1 ++ l2) =
  match first_some k l1 with Some m => Some m | None => first_some k l2 end.
Proof.
  induction l1 as [|c l1 IH]; simpl; [reflexivity|].
  destruct (k c); [reflexivity | exact IH].
Qed.

Lemma first_some_flat_map {A : Type} (k : cursor -> option A)
      (f : cursor -> list cursor) (l : list cursor) :
  first_some k (flat_map f l) = first_some (fun c => first_some k (f c)) l.
Proof.
  induction l as [|c l IH]; simpl; [reflexivity|].
  rewrite first_some_app, IH. reflexivity.
Qed.

Lemma first_some_ext {A : Type} (k k' : cursor -> option A) (l : list cursor) :
  (forall c, k c = k' c) -> first_some k l = first_some k' l.
Proof.
  intros H. induction l as [|c l IH]; simpl; [reflexivity|].
  now rewrite H, IH.
Qed.

Lemma first_some_Some (l : list cursor) : first_some Some l = hd_error l.
Proof. destruct l; reflexivity. Qed.

Lemma repeat_greedy_iter {A : Type}
      (body : cursor -> (cursor -> option A) -> option A)
      (ends : cursor -> list cursor) (k : cursor -> option A) :
  (forall c k', body c k' = first_some k' (ends c)) ->
  forall n c, repeat_greedy body k n c = first_some k (iter ends n c).
Proof.
  intros Hbody. induction n as [|n IH]; intros c; simpl.
  - now destruct (k c).
  - rewrite Hbody, first_some_app, first_some_flat_map. simpl.
    replace (first_some
               (fun c' => first_some k (if progress c c' then iter ends n c' else []))
               (ends c))
      with (first_some
              (fun c' => if progress c c' then repeat_greedy body k n c' else None)
              (ends c)).
    + destruct (first_some _ (ends c)); [reflexivity|]. now destruct (k c).
    + apply first_some_ext. intros c'.
      destruct (progress c c'); [apply IH | reflexivity].
Qed.

Lemma exec_run {A : Type} (r : regex) :
  forall c (k : cursor -> option A), exec r c k = first_some k (run r c).
Proof.
  induction r as [p| |r1 IH1 r2 IH2|r IH|r IH]; intros c k; simpl.
  - destruct (rest c) as [|a s]; [reflexivity|].
    destruct (p a); simpl; [now destruct (k (advance a s)) | reflexivity].
  - destruct (bol c); simpl; [now destruct (k c) | reflexivity].
  - rewrite IH1, first_some_flat_map. apply first_some_ext. intros c1. apply IH2.
  - apply repeat_greedy_iter. exact IH.
  - rewrite IH, first_some_flat_map. apply first_some_ext. intros c1.
    apply repeat_greedy_iter. exact IH.
Qed.

Lemma exec_Some (r : regex) (c : cursor) :
  exec r c Some = hd_error (run r c).
Proof. now rewrite exec_run, first_some_Some. Qed.

(** Enough rounds: more fuel than characters left changes nothing. *)
Lemma iter_fuel (body : cursor -> list cursor) :
  forall n m c,
    length (rest c) <= n -> length (rest c) <= m ->
    iter body n c = iter body m c.
Proof.
  induction n as [|n IH]; intros m c Hn Hm.
  - destruct m as [|m]; [reflexivity|]. simpl. f_equal.
    assert (E : forall l, flat_map
              (fun c' => if progress c c' then iter body m c' else []) l = []).
    { induction l as [|c' l IHl]; simpl; [reflexivity|].
      rewrite IHl. unfold progress.
      destruct (Nat.ltb_spec (length (rest c')) (length (rest c))); [lia|reflexivity]. }
    now rewrite E.
  - destruct m as [|m].
    + simpl. f_equal.
      assert (E : forall l, flat_map
                (fun c' => if progress c c' then iter body n c' else []) l = []).
      { induction l as [|c' l IHl]; simpl; [reflexivity|].
        rewrite IHl. unfold progress.
        destruct (Nat.ltb_spec (length (rest c')) (length (rest c))); [lia|reflexivity]. }
      now rewrite E.
    + simpl. f_equal. apply flat_map_ext. intros c'.
      unfold progress.
      destruct (Nat.ltb_spec (length (rest c')) (length (rest c))); [|reflexivity].
      apply IH; lia.
Qed.

Lemma run_star_fuel (r : regex) (n : nat) (c : cursor) :
  length (rest c) <= n -> iter (run r) n c = run (Star r) c.
Proof. intros H. simpl. apply iter_fuel; lia. Qed.

(** Every end the engine reaches is the end of a matched string. *)
Lemma iter_sound (r : regex) :
  (forall c c', In c' (run r c) ->
     exists m, rest c = m ++ rest c' /\ matches r (bol c) m /\
               bol c' = bol_after (bol c) m) ->
  forall n c c', In c' (iter (run r) n c) ->
     exists m, rest c = m ++ rest c' /\ matches (Star r) (bol c) m /\
               bol c' = bol_after (bol c) m.
Proof.
  intros Hr. induction n as [|n IH]; intros c c' Hin; simpl in Hin.
  - destruct Hin as [<-|[]]. exists []. repeat split. constructor.
  - apply in_app_or in Hin as [Hin|[<-|[]]].
    + apply in_flat_map in Hin as (c1 & H1 & Hin).
      unfold progress in Hin.
      destruct (Nat.ltb_spec (length (rest c1)) (length (rest c))) as [Hlt|]; [|easy].
      apply Hr in H1 as (m1 & E1 & M1 & B1).
      apply IH in Hin as (m2 & E2 & M2 & B2).
      exists (m1 ++ m2). split; [|split].
      * now rewrite E1, E2, app_assoc.
      * apply M_star_cons; [exact M1 | | now rewrite <- B1].
        intros ->. simpl in E1. rewrite E1 in Hlt. lia.
      * now rewrite B2, B1, bol_after_app.
    + exists []. repeat split. constructor.
Qed.

Lemma run_sound (r : regex) :
  forall c c', In c' (run r c) ->
    exists m, rest c = m ++ rest c' /\ matches r (bol c) m /\
              bol c' = bol_after (bol c) m.
Proof.
  induction r as [p| |r1 IH1 r2 IH2|r IH|r IH]; intros c c' Hin; simpl in Hin.
  - destruct c as [b [|a s]]; simpl in *; [easy|].
    destruct (p a) eqn:E; [|easy]. destruct Hin as [<-|[]].
    exists [a]. repeat split. now constructor.
  - destruct (bol c) eqn:E; [|easy]. destruct Hin as [<-|[]].
    exists []. rewrite E. repeat split. constructor.
  - apply in_flat_map in Hin as (c1 & H1 & H2).
    apply IH1 in H1 as (m1 & E1 & M1 & B1).
    apply IH2 in H2 as (m2 & E2 & M2 & B2).
    exists (m1 ++ m2). split; [|split].
    + now rewrite E1, E2, app_assoc.
    + econstructor; [exact M1 | now rewrite <- B1].
    + now rewrite B2, B1, bol_after_app.
  - now apply (iter_sound r IH) in Hin.
  - apply in_flat_map in Hin as (c1 & H1 & H2).
    apply IH in H1 as (m1 & E1 & M1 & B1).
    apply (iter_sound r IH) in H2 as (m2 & E2 & M2 & B2).
    exists (m1 ++ m2). split; [|split].
    + now rewrite E1, E2, app_assoc.
    + econstructor; [exact M1 | now rewrite <- B1].
    + now rewrite B2, B1, bol_after_app.
Qed.

(** Every matched string is found by the engine. *)
Lemma run_complete (r : regex) (b : bool) (m : str) :
  matches r b m ->
  forall s, In (Cursor (bol_after b m) s) (run r (Cursor b (m ++ s))).
Proof.
  induction 1 as [p b a Hp| |r1 r2 b m1 m2 _ IH1 _ IH2|r b
                 |r b m1 m2 _ IH1 Hne _ IH2|r b m1 m2 _ IH1 _ IH2]; intros s.
  - simpl. rewrite Hp. now left.
  - simpl. now left.
  - simpl. apply in_flat_map. exists (Cursor (bol_after b m1) (m2 ++ s)).
    split; [rewrite <- app_assoc; apply IH1|].
    rewrite <- bol_after_app. apply IH2.
  - simpl. destruct (length s); simpl; [now left|].
    apply in_or_app. right. now left.
  - change (run (Star r) ?c) with (iter (run r) (length (rest c)) c).
    simpl rest. destruct m1 as [|a m1]; [contradiction|]. simpl length.
    simpl iter. apply in_or_app. left. apply in_flat_map.
    exists (Cursor (bol_after b (a :: m1)) (m2 ++ s)). split.
    + rewrite <- app_assoc. apply (IH1 (m2 ++ s)).
    + unfold progress. simpl rest.
      destruct (Nat.ltb_spec (length (m2 ++ s)) (length (a :: (m1 ++ m2) ++ s))) as [_|Hge].
      * rewrite run_star_fuel.
        -- rewrite <- bol_after_app. apply IH2.
        -- simpl. rewrite !length_app. lia.
      * simpl in Hge. rewrite !length_app in Hge. lia.
  - simpl. apply in_flat_map. exists (Cursor (bol_after b m1) (m2 ++ s)).
    split; [rewrite <- app_assoc; apply IH1|].
    rewrite <- bol_after_app. apply (IH2 s).
Qed.

(** ** Greedy classes: [[...]*] and [[...]+] take the longest run *)

Lemma bol_after_cons (b : bool) (a : ascii) (m : str) :
  bol_after b (a :: m) = bol_after (Ascii.eqb a NL) m.
Proof. destruct m; reflexivity. Qed.

Lemma hd_error_app_nonempty {A : Type} (l1 l2 : list A) (x : A) :
  hd_error l1 = Some x -> hd_error (l1 ++ l2) = Some x.
Proof. destruct l1; [discriminate | easy]. Qed.

Lemma run_star_chr_hd (p : ascii -> bool) :
  forall s b,
    hd_error (run (Star (Chr p)) (Cursor b s)) =
    Some (Cursor (bol_after b (take_while p s)) (drop_while p s)).
Proof.
  induction s as [|a s IH]; intros b; [reflexivity|].
  change (run (Star (Chr p)) ?c) with (iter (run (Chr p)) (length (rest c)) c).
  simpl rest. simpl length. simpl iter. simpl take_while. simpl drop_while.
  destruct (p a) eqn:E; [|reflexivity].
  simpl flat_map. unfold progress, advance. simpl rest.
  assert (Hp : Nat.ltb (length s) (length (a :: s)) = true)
    by (apply Nat.ltb_lt; simpl; lia).
  rewrite Hp, app_nil_r. apply hd_error_app_nonempty.
  rewrite bol_after_cons.
  exact (IH (Ascii.eqb a NL)).
Qed.

Lemma run_plus_eq (r : regex) (c : cursor) :
  run (Plus r) c = flat_map (run (Star r)) (run r c).
Proof. reflexivity. Qed.

Lemma run_star_eq (r : regex) (c : cursor) :
  run (Star r) c = iter (run r) (length (rest c)) c.
Proof. reflexivity. Qed.

Lemma run_cat_eq (r1 r2 : regex) (c : cursor) :
  run (Cat r1 r2) c = flat_map (run r2) (run r1 c).
Proof. reflexivity. Qed.

Lemma run_chr_cons (p : ascii -> bool) (b : bool) (a : ascii) (s : str) :
  run (Chr p) (Cursor b (a :: s)) = if p a then [advance a s] else [].
Proof. reflexivity. Qed.

Lemma run_plus_chr_hd (p : ascii -> bool) (b : bool) (s : str) :
  hd_error (run (Plus (Chr p)) (Cursor b s)) =
  match take_while p s with
  | [] => None
  | m => Some (Cursor (bol_after b m) (drop_while p s))
  end.
Proof.
  destruct s as [|a s]; [reflexivity|].
  rewrite run_plus_eq, run_chr_cons. cbn [take_while drop_while].
  destruct (p a) eqn:E; [|reflexivity].
  cbn [flat_map]. rewrite app_nil_r. unfold advance.
  rewrite run_star_chr_hd, bol_after_cons. reflexivity.
Qed.

Lemma consumed_app (b b' : bool) (m s : str) :
  consumed (Cursor b (m ++ s)) (Cursor b' s) = m.
Proof.
  unfold consumed. simpl. rewrite length_app.
  replace (length m + length s - length s) with (length m) by lia.
  rewrite firstn_app, firstn_all, Nat.sub_diag. simpl. apply app_nil_r.
Qed.

Lemma consumed_while (p : ascii -> bool) (b b' : bool) (s : str) :
  consumed (Cursor b s) (Cursor b' (drop_while p s)) = take_while p s.
Proof.
  rewrite <- (take_drop_while p s) at 1. apply consumed_app.
Qed.

Lemma re_match_star_chr (p : ascii -> bool) (s : str) :
  re_match (Star (Chr p)) s = Some (take_while p s).
Proof.
  unfold re_match. rewrite exec_Some, run_star_chr_hd.
  now rewrite consumed_while.
Qed.

(** The match of line 236 never fails, and is the longest run of indent
    characters at the start. *)
Lemma re_match_indent_re (s : str) :
  re_match indent_re s = Some (take_while is_indent_char s).
Proof. apply re_match_star_chr. Qed.

Lemma extract_indent_take_while (s : str) :
  extract_indent s = take_while is_indent_char s.
Proof. unfold extract_indent. now rewrite re_match_indent_re. Qed.

(** ** [re.findall]: fuel and unfolding *)

Lemma scan_fuel (r : regex) :
  forall n m c,
    length (rest c) < n -> length (rest c) < m -> scan r n c = scan r m c.
Proof.
  induction n as [|n IH]; intros m c Hn Hm; [lia|].
  destruct m as [|m]; [lia|]. simpl.
  destruct (exec r c Some) as [c'|]; destruct (rest c) as [|a s] eqn:E;
    try reflexivity.
  - unfold progress. rewrite E.
    destruct (Nat.ltb_spec (length (rest c')) (length (a :: s))) as [Hlt|_].
    + f_equal. apply IH; simpl in *; lia.
    + f_equal. apply IH; simpl in *; lia.
  - apply IH; simpl in *; lia.
Qed.

(** [findall] has enough rounds: more of them find the same matches. *)
Lemma findall_fuel (r : regex) (s : str) (n : nat) :
  length s < n -> scan r n (Cursor true s) = findall r s.
Proof. intros H. apply scan_fuel; simpl; lia. Qed.

Lemma findall_findall_at (r : regex) (s : str) :
  findall r s = findall_at r (Cursor true s).
Proof. reflexivity. Qed.

Lemma findall_at_unfold (r : regex) (c : cursor) :
  findall_at r c =
  match hd_error (run r c), rest c with
  | Some c', a :: s =>
      if progress c c' then consumed c c' :: findall_at r c'
      else [] :: findall_at r (advance a s)
  | Some c', [] => [[]]
  | None, a :: s => findall_at r (advance a s)
  | None, [] => []
  end.
Proof.
  unfold findall_at at 1. cbn [scan]. rewrite exec_Some.
  destruct (hd_error (run r c)) as [c'|]; destruct (rest c) as [|a s] eqn:E;
    try reflexivity.
  unfold progress. rewrite E.
  destruct (Nat.ltb_spec (length (rest c')) (length (a :: s))) as [Hlt|_];
    [|reflexivity].
  f_equal. apply scan_fuel; simpl in *; lia.
Qed.

Lemma findall_at_nomatch (r : regex) (b : bool) (a : ascii) (s : str) :
  run r (Cursor b (a :: s)) = [] ->
  findall_at r (Cursor b (a :: s)) = findall_at r (advance a s).
Proof. intros H. rewrite findall_at_unfold, H. reflexivity. Qed.

Lemma findall_at_end (r : regex) (b : bool) :
  run r (Cursor b []) = [] -> findall_at r (Cursor b []) = [].
Proof. intros H. rewrite findall_at_unfold, H. reflexivity. Qed.

Lemma findall_at_match (r : regex) (b b' : bool) (m s : str) :
  m <> [] ->
  hd_error (run r (Cursor b (m ++ s))) = Some (Cursor b' s) ->
  findall_at r (Cursor b (m ++ s)) = m :: findall_at r (Cursor b' s).
Proof.
  intros Hm H. rewrite findall_at_unfold, H. cbn [rest].
  destruct m as [|a m]; [contradiction|]. cbn [app].
  change (a :: m ++ s) with ((a :: m) ++ s).
  unfold progress. cbn [rest].
  assert (Hp : Nat.ltb (length s) (length ((a :: m) ++ s)) = true)
    by (apply Nat.ltb_lt; rewrite length_app; simpl; lia).
  now rewrite Hp, consumed_app.
Qed.

(** ** Tokens: ['\S+'] finds the white-space-delimited tokens *)

Lemma tokens_space (c : ascii) (s : str) :
  is_space c = true -> tokens (c :: s) = tokens s.
Proof. intros H. simpl. now rewrite H. Qed.

Lemma tokens_spaces (sp s : str) :
  forallb is_space sp = true -> tokens (sp ++ s) = tokens s.
Proof.
  induction sp as [|c sp IH]; [reflexivity|]. simpl app. intros H.
  simpl in H. apply andb_prop in H as [Hc Hsp].
  rewrite tokens_space by exact Hc. auto.
Qed.

Lemma tokens_word (w s : str) :
  w <> [] -> forallb non_space w = true -> starts_with_space s ->
  tokens (w ++ s) = w :: tokens s.
Proof.
  induction w as [|c w IH]; [contradiction|]. intros _ H Hs.
  simpl in H. apply andb_prop in H as [Hc Hw].
  unfold non_space in Hc. apply negb_true_iff in Hc.
  destruct w as [|c' w].
  - simpl. rewrite Hc. destruct s as [|c' s]; [reflexivity|].
    simpl in Hs. now rewrite Hs.
  - change ((c :: c' :: w) ++ s) with (c :: (c' :: w) ++ s).
    cbn [tokens]. rewrite Hc.
    change ((c' :: w) ++ s) with (c' :: w ++ s) at 1.
    cbv iota beta.
    assert (Hc' : is_space c' = false).
    { simpl in Hw. apply andb_prop in Hw as [Hc' _].
      unfold non_space in Hc'. now apply negb_true_iff in Hc'. }
    rewrite Hc'. rewrite IH; [reflexivity|discriminate|exact Hw|exact Hs].
Qed.

Lemma drop_while_non_space_starts (s : str) :
  starts_with_space (drop_while non_space s).
Proof.
  destruct (drop_while non_space s) as [|c s'] eqn:E; [exact I|].
  apply drop_while_head in E. unfold non_space in E.
  simpl. now apply negb_false_iff in E.
Qed.

Lemma tokens_unfold (c : ascii) (s : str) :
  is_space c = false ->
  tokens (c :: s) =
  take_while non_space (c :: s) :: tokens (drop_while non_space (c :: s)).
Proof.
  intros Hc.
  rewrite <- (take_drop_while non_space (c :: s)) at 1.
  apply tokens_word.
  - simpl. unfold non_space at 1. now rewrite Hc.
  - apply take_while_all.
  - apply drop_while_non_space_starts.
Qed.

Lemma length_drop_while (p : ascii -> bool) (s : str) :
  length (drop_while p s) <= length s.
Proof.
  induction s as [|c s IH]; simpl; [lia|]. destruct (p c); simpl; lia.
Qed.

Lemma findall_at_token_re :
  forall n s b, length s < n -> findall_at token_re (Cursor b s) = tokens s.
Proof.
  induction n as [|n IH]; intros s b Hn; [lia|].
  destruct s as [|c s].
  - apply findall_at_end. reflexivity.
  - destruct (is_space c) eqn:Hc.
    + rewrite tokens_space by exact Hc.
      rewrite findall_at_nomatch.
      * apply IH. simpl in Hn. lia.
      * simpl. unfold non_space. now rewrite Hc.
    + rewrite tokens_unfold by exact Hc.
      pose proof (run_plus_chr_hd non_space b (c :: s)) as H.
      pose proof (take_drop_while non_space (c :: s)) as E.
      set (w := take_while non_space (c :: s)) in *.
      set (r := drop_while non_space (c :: s)) in *.
      assert (Hne : w <> []).
      { subst w. simpl. unfold non_space at 1. now rewrite Hc. }
      destruct w as [|a m]; [contradiction|].
      rewrite <- E in H |- *. unfold token_re.
      rewrite (findall_at_match _ _ _ _ _ Hne H). f_equal.
      apply IH.
      apply (f_equal (@length _)) in E. rewrite length_app in E.
      simpl in E, Hn. lia.
Qed.

Lemma findall_token_re (s : str) : findall token_re s = tokens s.
Proof.
  rewrite findall_findall_at. apply (findall_at_token_re (S (length s))). lia.
Qed.

(** ** What the paragraph pattern matches *)

Lemma matches_star_chr (p : ascii -> bool) (b : bool) (m : str) :
  matches (Star (Chr p)) b m -> forallb p m = true.
Proof.
  remember (Star (Chr p)) as r eqn:Er. intros H. revert Er.
  induction H as [| | | |r b m1 m2 H1 _ Hne _ IH2|]; try discriminate.
  - reflexivity.
  - intros [= ->]. inversion H1; subst. simpl. rewrite IH2 by reflexivity.
    now rewrite andb_true_r.
Qed.

Lemma matches_plus_chr (p : ascii -> bool) (b : bool) (m : str) :
  matches (Plus (Chr p)) b m -> m <> [] /\ forallb p m = true.
Proof.
  intros H. inversion H as [| | | | |r b' m1 m2 H1 H2]; subst.
  inversion H1; subst. split; [discriminate|].
  apply matches_star_chr in H2. simpl. now rewrite H2, andb_true_r.
Qed.

Lemma star_chr_matches (p : ascii -> bool) (m : str) :
  forallb p m = true -> forall b, matches (Star (Chr p)) b m.
Proof.
  induction m as [|a m IH]; intros H b; [constructor|].
  simpl in H. apply andb_prop in H as [Ha Hm].
  apply (M_star_cons (Chr p) b [a] m); [now constructor|discriminate|].
  now apply IH.
Qed.

Lemma plus_chr_matches (p : ascii -> bool) (m : str) :
  m <> [] -> forallb p m = true -> forall b, matches (Plus (Chr p)) b m.
Proof.
  destruct m as [|a m]; [contradiction|]. intros _ H b.
  simpl in H. apply andb_prop in H as [Ha Hm].
  apply (M_plus (Chr p) b [a] m); [now constructor|].
  now apply star_chr_matches.
Qed.

Lemma matches_word_re (b : bool) (m : str) :
  matches word_re b m ->
  exists sp w, m = sp ++ w /\ forallb blank sp = true /\
               w <> [] /\ forallb non_space w = true.
Proof.
  intros H. inversion H as [| |r1 r2 b' m1 m2 H1 H2| | |]; subst.
  apply matches_star_chr in H1. apply matches_plus_chr in H2 as [Hne H2].
  now exists m1, m2.
Qed.

Lemma word_re_matches (sp w : str) :
  forallb blank sp = true -> w <> [] -> forallb non_space w = true ->
  forall b, matches word_re b (sp ++ w).
Proof.
  intros Hsp Hne Hw b. apply M_cat.
  - now apply star_chr_matches.
  - now apply plus_chr_matches.
Qed.

Lemma blank_is_space (c : ascii) : blank c = true -> is_space c = true.
Proof.
  unfold blank, is_space, in_chars. simpl.
  intros H. apply orb_prop in H as [H|H]; [now rewrite H|].
  apply orb_prop in H as [H|H]; [|discriminate].
  rewrite H. now rewrite orb_true_r.
Qed.

Lemma good_line_nonempty (l : str) : good_line l = true -> l <> [].
Proof. intros H ->. discriminate. Qed.

Lemma good_line_word (sp w m2 : str) :
  forallb blank sp = true -> w <> [] -> forallb non_space w = true ->
  m2 = [] \/ good_line m2 = true ->
  good_line ((sp ++ w) ++ m2) = true.
Proof.
  intros Hsp Hne Hw Hm2. unfold good_line in *.
  assert (Hsp' : forallb line_char sp = true).
  { apply forallb_forall. intros c Hc. unfold line_char.
    rewrite (proj1 (forallb_forall _ _) Hsp c Hc). reflexivity. }
  assert (Hw' : forallb line_char w = true).
  { apply forallb_forall. intros c Hc. unfold line_char.
    rewrite (proj1 (forallb_forall _ _) Hw c Hc). apply orb_true_r. }
  rewrite !forallb_app, Hsp', Hw'. simpl.
  destruct Hm2 as [->|H].
  - rewrite app_nil_r. simpl. rewrite last_app_nonempty by exact Hne.
    destruct w as [|a w]; [contradiction|].
    apply (proj1 (forallb_forall _ _) Hw).
    assert (a :: w <> []) by discriminate.
    rewrite (app_removelast_last SP H) at 2. apply in_or_app. right. now left.
  - apply andb_prop in H as [H1 H2]. rewrite H1. simpl.
    rewrite last_app_nonempty; [exact H2|].
    intros ->. discriminate.
Qed.

Lemma matches_star_word (b : bool) (m : str) :
  matches (Star word_re) b m -> m = [] \/ good_line m = true.
Proof.
  remember (Star word_re) as r eqn:Er. intros H. revert Er.
  induction H as [| | | |r b m1 m2 H1 _ Hne _ IH2|]; try discriminate.
  - now left.
  - intros [= ->]. right.
    apply matches_word_re in H1 as (sp & w & -> & Hsp & Hw & Hw').
    apply good_line_word; auto.
Qed.

Lemma matches_plus_word (b : bool) (m : str) :
  matches (Plus word_re) b m -> good_line m = true.
Proof.
  intros H. inversion H as [| | | | |r b' m1 m2 H1 H2]; subst.
  apply matches_word_re in H1 as (sp & w & -> & Hsp & Hw & Hw').
  apply matches_star_word in H2. now apply good_line_word.
Qed.

Lemma matches_line_re (b : bool) (m : str) :
  matches line_re b m ->
  b = true /\ exists l, m = l ++ [NL] /\ good_line l = true.
Proof.
  intros H. inversion H as [| |r1 r2 b' m1 m2 H1 H2| | |]; subst.
  inversion H1; subst. simpl in H2.
  inversion H2 as [| |r1 r2 b' m3 m4 H3 H4| | |]; subst.
  apply matches_plus_word in H3. inversion H4 as [p b' a Ha| | | | |]; subst.
  apply Ascii.eqb_eq in Ha. subst a.
  split; [reflexivity|]. now exists m3.
Qed.

Lemma good_line_split (m : str) :
  good_line m = true ->
  exists sp w m2,
    m = (sp ++ w) ++ m2 /\ forallb blank sp = true /\
    w <> [] /\ forallb non_space w = true /\
    (m2 = [] \/ good_line m2 = true) /\ length m2 < length m.
Proof.
  intros H. unfold good_line in H. apply andb_prop in H as [Hall Hlast].
  pose proof (take_drop_while blank m) as E1.
  pose proof (take_while_all blank m) as Hsp.
  set (sp := take_while blank m) in *. clearbody sp.
  destruct (drop_while blank m) as [|c r1] eqn:Er1.
  - exfalso. rewrite app_nil_r in E1. subst m.
    destruct sp as [|a sp']; [discriminate|].
    assert (Hin : In (last (a :: sp') SP) (a :: sp')).
    { assert (Hne : a :: sp' <> []) by discriminate.
      rewrite (app_removelast_last SP Hne) at 2. apply in_or_app. right. now left. }
    apply (proj1 (forallb_forall _ _) Hsp) in Hin.
    apply blank_is_space in Hin. unfold non_space in Hlast.
    now rewrite Hin in Hlast.
  - pose proof (drop_while_head _ _ _ _ Er1) as Hc.
    pose proof (take_drop_while non_space (c :: r1)) as E2.
    pose proof (take_while_all non_space (c :: r1)) as Hw.
    set (w := take_while non_space (c :: r1)) in *.
    set (m2 := drop_while non_space (c :: r1)) in *.
    assert (Hall' : forallb line_char (c :: r1) = true).
    { rewrite <- E1, forallb_app in Hall. now apply andb_prop in Hall as [_ ?]. }
    assert (Hne : w <> []).
    { subst w. simpl in Hall'. apply andb_prop in Hall' as [Hlc _].
      unfold line_char in Hlc. rewrite Hc in Hlc. simpl in Hlc.
      simpl. now rewrite Hlc. }
    clearbody w m2.
    exists sp, w, m2. rewrite <- app_assoc, E2, E1.
    repeat split; auto.
    + destruct m2 as [|a m2'] eqn:Em2; [now left|right].
      unfold good_line. rewrite <- E2, forallb_app in Hall'.
      apply andb_prop in Hall' as [_ ->]. simpl.
      rewrite <- E1, <- E2, app_assoc in Hlast.
      rewrite last_app_nonempty in Hlast by discriminate. exact Hlast.
    + rewrite <- E1, <- E2, !length_app.
      destruct w; [contradiction|]. simpl. lia.
Qed.

Lemma star_word_matches :
  forall n m, length m < n -> m = [] \/ good_line m = true ->
              forall b, matches (Star word_re) b m.
Proof.
  induction n as [|n IH]; intros m Hn Hm b; [lia|].
  destruct Hm as [->|Hm]; [constructor|].
  apply good_line_split in Hm as (sp & w & m2 & -> & Hsp & Hne & Hw & Hm2 & Hlen).
  apply M_star_cons.
  - now apply word_re_matches.
  - intros E. apply app_eq_nil in E as [_ E]. contradiction.
  - apply IH; [lia | exact Hm2].
Qed.

Lemma plus_word_matches (m : str) (b : bool) :
  good_line m = true -> matches (Plus word_re) b m.
Proof.
  intros Hm.
  apply good_line_split in Hm as (sp & w & m2 & -> & Hsp & Hne & Hw & Hm2 & Hlen).
  apply M_plus; [now apply word_re_matches|].
  apply (star_word_matches (S (length m2))); [lia | exact Hm2].
Qed.

Lemma line_re_matches (l : str) :
  good_line l = true -> matches line_re true (l ++ [NL]).
Proof.
  intros H. change (l ++ [NL]) with ([] ++ l ++ [NL]).
  apply M_cat; [constructor|]. apply M_cat.
  - now apply plus_word_matches.
  - constructor. reflexivity.
Qed.

Lemma good_line_no_nl (l : str) : good_line l = true -> no_nl l = true.
Proof.
  unfold good_line, no_nl. intros H. apply andb_prop in H as [H _].
  apply forallb_forall. intros c Hc.
  apply (proj1 (forallb_forall _ _) H) in Hc.
  destruct (Ascii.eqb_spec c NL) as [->|]; [discriminate | reflexivity].
Qed.

Lemma first_nl_unique (l l' s s' : str) :
  no_nl l = true -> no_nl l' = true ->
  l ++ NL :: s = l' ++ NL :: s' -> l = l' /\ s = s'.
Proof.
  revert l'. induction l as [|a l IH]; intros [|a' l'] Hl Hl' E; simpl in *.
  - injection E as <-. auto.
  - injection E as <- _. rewrite Ascii.eqb_refl in Hl'. discriminate.
  - injection E as -> _. rewrite Ascii.eqb_refl in Hl. discriminate.
  - injection E as <- E. apply andb_prop in Hl as [_ Hl].
    apply andb_prop in Hl' as [_ Hl'].
    destruct (IH l' Hl Hl' E) as [-> ->]. auto.
Qed.

Lemma no_nl_not_in (l s s' : str) :
  no_nl l = true -> l <> s ++ NL :: s'.
Proof.
  intros H ->. unfold no_nl in H. rewrite forallb_app in H.
  apply andb_prop in H as [_ H]. simpl in H. discriminate.
Qed.

(** The ends of a match of [line_re]: only at the newline that ends an
    accepted line that starts at the cursor. *)
Lemma run_line_re_ends (c c' : cursor) :
  In c' (run line_re c) ->
  bol c = true /\
  exists l, rest c = l ++ NL :: rest c' /\ good_line l = true /\ bol c' = true.
Proof.
  intros H. apply run_sound in H as (m & E & M & B).
  apply matches_line_re in M as (Hb & l & -> & Hl).
  split; [exact Hb|]. exists l. rewrite E, <- app_assoc. repeat split; auto.
  rewrite B. unfold bol_after.
  destruct (l ++ [NL]) eqn:E'; [now destruct l|].
  rewrite <- E', last_last. reflexivity.
Qed.

Lemma hd_error_all {A : Type} (l : list A) (y : A) :
  l <> [] -> (forall x, In x l -> x = y) -> hd_error l = Some y.
Proof.
  destruct l as [|a l]; [contradiction|]. intros _ H. simpl.
  f_equal. apply H. now left.
Qed.

Lemma run_line_re_good (l s : str) :
  good_line l = true ->
  hd_error (run line_re (Cursor true (l ++ NL :: s))) = Some (Cursor true s).
Proof.
  intros Hl. apply hd_error_all.
  - pose proof (run_complete _ _ _ (line_re_matches l Hl) s) as H.
    rewrite <- app_assoc in H. change ([NL] ++ s) with (NL :: s) in H.
    intros E. rewrite E in H. exact H.
  - intros [b' s'] H. apply run_line_re_ends in H as (_ & l' & E & Hl' & B).
    simpl in *. apply first_nl_unique in E as [_ <-];
      auto using good_line_no_nl. now subst.
Qed.

Lemma run_line_re_bad (l s : str) (b : bool) :
  no_nl l = true -> good_line l = false ->
  run line_re (Cursor b (l ++ NL :: s)) = [].
Proof.
  intros Hn Hl. destruct (run line_re _) as [|c' r] eqn:E; [reflexivity|].
  assert (H : In c' (run line_re (Cursor b (l ++ NL :: s))))
    by (rewrite E; now left).
  apply run_line_re_ends in H as (_ & l' & E' & Hl' & _). simpl in E'.
  apply first_nl_unique in E' as [-> _]; auto using good_line_no_nl.
  congruence.
Qed.

Lemma run_line_re_tail (t : str) (b : bool) :
  no_nl t = true -> run line_re (Cursor b t) = [].
Proof.
  intros Hn. destruct (run line_re _) as [|c' r] eqn:E; [reflexivity|].
  assert (H : In c' (run line_re (Cursor b t))) by (rewrite E; now left).
  apply run_line_re_ends in H as (_ & l' & E' & _). simpl in E'.
  now apply no_nl_not_in in E'.
Qed.

Lemma run_line_re_mid (s : str) : run line_re (Cursor false s) = [].
Proof. reflexivity. Qed.

(** ** Paragraphs: maximal runs of accepted lines *)

Lemma nl_text_cons (l : str) (ls : list str) :
  nl_text (l :: ls) = l ++ NL :: nl_text ls.
Proof. unfold nl_text. simpl. now rewrite <- app_assoc. Qed.

Lemma nl_text_app (ls1 ls2 : list str) :
  nl_text (ls1 ++ ls2) = nl_text ls1 ++ nl_text ls2.
Proof. unfold nl_text. now rewrite map_app, concat_app. Qed.

Lemma good_prefix_after (ls : list str) :
  good_prefix ls ++ after_good ls = ls.
Proof.
  induction ls as [|l ls IH]; [reflexivity|]. simpl.
  destruct (good_line l); simpl; [now rewrite IH | reflexivity].
Qed.

Lemma iter_body_nil (body : cursor -> list cursor) (n : nat) (c : cursor) :
  body c = [] -> iter body n c = [c].
Proof. intros H. destruct n; simpl; [reflexivity | now rewrite H]. Qed.

Lemma run_star_line_hd (tail : str) :
  no_nl tail = true ->
  forall ls, Forall (fun l => no_nl l = true) ls ->
    hd_error (run (Star line_re) (Cursor true (nl_text ls ++ tail))) =
    Some (Cursor true (nl_text (after_good ls) ++ tail)).
Proof.
  intros Ht. induction ls as [|l ls IH]; intros Hls.
  - rewrite run_star_eq, iter_body_nil; [reflexivity|].
    now apply run_line_re_tail.
  - inversion Hls as [|? ? Hl Hls']; subst.
    rewrite nl_text_cons, <- app_assoc. cbn [app after_good].
    destruct (good_line l) eqn:G.
    + pose proof (run_line_re_good l (nl_text ls ++ tail) G) as H.
      rewrite run_star_eq. cbn [rest].
      destruct (length (l ++ NL :: nl_text ls ++ tail)) as [|n] eqn:L.
      { rewrite length_app in L. simpl in L. lia. }
      cbn [iter].
      destruct (run line_re _) as [|c1 tl]; [discriminate|].
      injection H as ->. cbn [flat_map].
      apply hd_error_app_nonempty, hd_error_app_nonempty.
      unfold progress. cbn [rest].
      assert (Hp : Nat.ltb (length (nl_text ls ++ tail))
                           (length (l ++ NL :: nl_text ls ++ tail)) = true).
      { apply Nat.ltb_lt. rewrite !length_app. simpl. rewrite !length_app. lia. }
      rewrite Hp, run_star_fuel.
      * now apply IH.
      * cbn [rest]. rewrite length_app in L. simpl in L. lia.
    + rewrite run_star_eq, iter_body_nil.
      * now rewrite nl_text_cons, <- app_assoc.
      * now apply run_line_re_bad.
Qed.

Lemma run_paragraph_good (tail : str) (l : str) (ls : list str) :
  no_nl tail = true -> Forall (fun l => no_nl l = true) ls ->
  good_line l = true ->
  hd_error (run paragraph_re (Cursor true (nl_text (l :: ls) ++ tail))) =
  Some (Cursor true (nl_text (after_good ls) ++ tail)).
Proof.
  intros Ht Hls G. unfold paragraph_re. rewrite run_plus_eq.
  rewrite nl_text_cons, <- app_assoc. cbn [app].
  pose proof (run_line_re_good l (nl_text ls ++ tail) G) as H.
  destruct (run line_re _) as [|c1 tl]; [discriminate|].
  injection H as ->. cbn [flat_map].
  apply hd_error_app_nonempty. now apply run_star_line_hd.
Qed.

Lemma run_paragraph_nil (c : cursor) :
  run line_re c = [] -> run paragraph_re c = [].
Proof. intros H. unfold paragraph_re. now rewrite run_plus_eq, H. Qed.

Lemma group_lines_good_prefix (ls : list str) :
  forall cur,
    cur ++ good_prefix ls <> [] ->
    group_lines cur ls =
    (cur ++ good_prefix ls) :: group_lines [] (after_good ls).
Proof.
  induction ls as [|l ls IH]; intros cur Hne.
  - simpl in *. rewrite app_nil_r in *. destruct cur; [contradiction|reflexivity].
  - simpl in *. destruct (good_line l) eqn:G.
    + rewrite IH; rewrite <- app_assoc; [reflexivity | exact Hne].
    + rewrite app_nil_r in *.
      destruct cur; [contradiction|]. simpl. now rewrite G.
Qed.

Lemma run_paragraph_mid (s : str) : run paragraph_re (Cursor false s) = [].
Proof. reflexivity. Qed.

Lemma findall_at_mid_tail (t : str) :
  no_nl t = true -> findall_at paragraph_re (Cursor false t) = [].
Proof.
  induction t as [|a t IH]; intros Hn.
  - now apply findall_at_end.
  - simpl in Hn. apply andb_prop in Hn as [Ha Hn].
    rewrite findall_at_nomatch by apply run_paragraph_mid.
    unfold advance. apply negb_true_iff in Ha. rewrite Ha. now apply IH.
Qed.

Lemma findall_at_mid_line (l s : str) :
  no_nl l = true ->
  findall_at paragraph_re (Cursor false (l ++ NL :: s)) =
  findall_at paragraph_re (Cursor true s).
Proof.
  induction l as [|a l IH]; intros Hn.
  - cbn [app]. now rewrite findall_at_nomatch by apply run_paragraph_mid.
  - simpl in Hn. apply andb_prop in Hn as [Ha Hn]. cbn [app].
    rewrite findall_at_nomatch by apply run_paragraph_mid.
    unfold advance. apply negb_true_iff in Ha. rewrite Ha. now apply IH.
Qed.

Lemma findall_at_bad_line (l s : str) :
  no_nl l = true -> good_line l = false ->
  findall_at paragraph_re (Cursor true (l ++ NL :: s)) =
  findall_at paragraph_re (Cursor true s).
Proof.
  intros Hn G.
  assert (H : run paragraph_re (Cursor true (l ++ NL :: s)) = [])
    by now apply run_paragraph_nil, run_line_re_bad.
  destruct l as [|a l].
  - cbn [app] in *. now rewrite findall_at_nomatch.
  - cbn [app] in *. rewrite findall_at_nomatch by exact H.
    simpl in Hn. apply andb_prop in Hn as [Ha Hn].
    unfold advance. apply negb_true_iff in Ha. rewrite Ha.
    now apply findall_at_mid_line.
Qed.

Lemma findall_at_tail (t : str) (b : bool) :
  no_nl t = true -> findall_at paragraph_re (Cursor b t) = [].
Proof.
  intros Hn.
  assert (H : run paragraph_re (Cursor b t) = [])
    by now apply run_paragraph_nil, run_line_re_tail.
  destruct t as [|a t].
  - now apply findall_at_end.
  - rewrite findall_at_nomatch by exact H.
    simpl in Hn. apply andb_prop in Hn as [Ha Hn].
    unfold advance. apply negb_true_iff in Ha. rewrite Ha.
    now apply findall_at_mid_tail.
Qed.

Lemma after_good_length (ls : list str) :
  length (after_good ls) <= length ls.
Proof.
  induction ls as [|l ls IH]; simpl; [lia|]. destruct (good_line l); simpl; lia.
Qed.

(** [re.findall(paragraph_re, text, re.MULTILINE)] on a text given by
    its newline-terminated lines and the unterminated rest. *)
Lemma findall_at_paragraph_re (tail : str) :
  no_nl tail = true ->
  forall n ls, length ls < n -> Forall (fun l => no_nl l = true) ls ->
    findall_at paragraph_re (Cursor true (nl_text ls ++ tail)) =
    map nl_text (group_lines [] ls).
Proof.
  intros Ht. induction n as [|n IH]; intros ls Hn Hls; [lia|].
  destruct ls as [|l ls].
  - now apply findall_at_tail.
  - inversion Hls as [|? ? Hl Hls']; subst.
    destruct (good_line l) eqn:G.
    + pose proof (run_paragraph_good tail l ls Ht Hls' G) as H.
      rewrite group_lines_good_prefix by (simpl; rewrite G; discriminate).
      cbn [app map].
      replace (nl_text (l :: ls) ++ tail)
        with (nl_text (good_prefix (l :: ls)) ++
              (nl_text (after_good (l :: ls)) ++ tail)) in *
        by now rewrite app_assoc, <- nl_text_app, good_prefix_after.
      cbn [after_good] in *. rewrite G in *.
      assert (Hne : nl_text (good_prefix (l :: ls)) <> []).
      { cbn [good_prefix]. rewrite G, nl_text_cons. now destruct l. }
      rewrite (findall_at_match _ _ _ _ _ Hne H).
      f_equal. apply IH.
      * pose proof (after_good_length ls). simpl in Hn. lia.
      * clear -Hls'. induction ls as [|x ls IHl]; [constructor|].
        inversion Hls'; subst. simpl. destruct (good_line x); auto.
    + rewrite nl_text_cons, <- app_assoc. cbn [app].
      rewrite findall_at_bad_line by assumption.
      simpl. rewrite G. apply IH; [simpl in Hn; lia | exact Hls'].
Qed.

(** ** Lines: [splitlines], [join] and the stripped text *)

Lemma no_break_no_nl (l : str) : no_break l = true -> no_nl l = true.
Proof.
  unfold no_break, no_nl. intros H. apply forallb_forall. intros c Hc.
  apply (proj1 (forallb_forall _ _) H) in Hc. unfold is_linebreak in Hc.
  now destruct (Ascii.eqb c NL).
Qed.

Lemma splitlines_nonempty (s : str) : s <> [] -> splitlines s <> [].
Proof.
  destruct s as [|c s]; [contradiction|]. intros _. simpl.
  destruct (Ascii.eqb c NL); [discriminate|].
  destruct (Ascii.eqb c CR).
  - destruct s as [|c' s]; [discriminate|]. now destruct (Ascii.eqb c' NL).
  - now destruct (splitlines s).
Qed.

Lemma splitlines_no_break :
  forall n s, length s < n ->
    Forall (fun l => no_break l = true) (splitlines s).
Proof.
  induction n as [|n IH]; intros s Hn; [lia|].
  destruct s as [|c s]; [constructor|]. simpl in *.
  destruct (Ascii.eqb c NL) eqn:E1.
  { constructor; [reflexivity | apply IH; lia]. }
  destruct (Ascii.eqb c CR) eqn:E2.
  { destruct s as [|c' s]; [repeat constructor|]. simpl in Hn.
    destruct (Ascii.eqb c' NL); (constructor; [reflexivity | apply IH; simpl; lia]). }
  assert (H : Forall (fun l => no_break l = true) (splitlines s)) by (apply IH; lia).
  destruct (splitlines s) as [|l ls].
  - repeat constructor. simpl. unfold is_linebreak. now rewrite E1, E2.
  - inversion H; subst. constructor; [|assumption].
    simpl. unfold is_linebreak at 1. now rewrite E1, E2.
Qed.

Lemma splitlines_lines_no_break (s : str) :
  Forall (fun l => no_break l = true) (splitlines s).
Proof. apply (splitlines_no_break (S (length s))). lia. Qed.

Lemma splitlines_line (l s : str) :
  no_break l = true -> splitlines (l ++ NL :: s) = l :: splitlines s.
Proof.
  induction l as [|c l IH]; intros H; [reflexivity|].
  simpl in H. apply andb_prop in H as [Hc Hl]. unfold is_linebreak in Hc.
  apply negb_true_iff, orb_false_elim in Hc as [E1 E2].
  cbn [app splitlines]. rewrite E1, E2, IH by exact Hl. reflexivity.
Qed.

Lemma splitlines_nl_text (ls : list str) (s : str) :
  Forall (fun l => no_break l = true) ls ->
  splitlines (nl_text ls ++ s) = ls ++ splitlines s.
Proof.
  induction 1 as [|l ls Hl _ IH]; [reflexivity|].
  rewrite nl_text_cons, <- app_assoc. cbn [app].
  now rewrite splitlines_line, IH.
Qed.

Lemma splitlines_unterminated (l : str) :
  no_break l = true -> l <> [] -> splitlines l = [l].
Proof.
  induction l as [|c l IH]; intros H Hne; [contradiction|].
  simpl in H. apply andb_prop in H as [Hc Hl]. unfold is_linebreak in Hc.
  apply negb_true_iff, orb_false_elim in Hc as [E1 E2].
  cbn [splitlines]. rewrite E1, E2.
  destruct l as [|c' l]; [reflexivity|].
  rewrite IH; [reflexivity | exact Hl | discriminate].
Qed.

(** A newline ends a line wherever it stands. *)
Lemma splitlines_app_nl :
  forall n x y, length x < n ->
    splitlines (x ++ NL :: y) = splitlines (x ++ [NL]) ++ splitlines y.
Proof.
  induction n as [|n IH]; intros x y Hn; [lia|].
  destruct x as [|c x]; [reflexivity|]. simpl in Hn.
  cbn [app splitlines].
  destruct (Ascii.eqb c NL) eqn:E1.
  { rewrite IH by lia. reflexivity. }
  destruct (Ascii.eqb c CR) eqn:E2.
  { destruct x as [|c' x]; [reflexivity|]. cbn [app]. simpl in Hn.
    destruct (Ascii.eqb c' NL).
    - rewrite IH by lia. reflexivity.
    - change (c' :: x ++ NL :: y) with ((c' :: x) ++ NL :: y).
      rewrite IH by (simpl; lia). reflexivity. }
  rewrite IH by lia.
  pose proof (splitlines_nonempty (x ++ [NL])) as Hne.
  destruct (splitlines (x ++ [NL])) as [|l ls]; [|reflexivity].
  exfalso. apply Hne; [|reflexivity]. now destruct x.
Qed.

(** Appending the newline of line 231 to a text that does not end with
    one adds no line. *)
Lemma splitlines_add_nl :
  forall n t, length t < n -> t <> [] -> last t SP <> NL ->
    splitlines (t ++ [NL]) = splitlines t.
Proof.
  induction n as [|n IH]; intros t Hn Hne Hlast; [lia|].
  destruct t as [|c t]; [contradiction|]. simpl in Hn.
  cbn [app splitlines].
  destruct (Ascii.eqb c NL) eqn:E1.
  { destruct t as [|c' t].
    - apply Ascii.eqb_eq in E1. subst c. now elim Hlast.
    - rewrite IH; [reflexivity|simpl in *; lia|discriminate|exact Hlast]. }
  destruct (Ascii.eqb c CR) eqn:E2.
  { destruct t as [|c' t]; [reflexivity|]. cbn [app]. simpl in Hn.
    destruct (Ascii.eqb c' NL) eqn:E3.
    - destruct t as [|c'' t].
      + apply Ascii.eqb_eq in E3. subst c'. now elim Hlast.
      + rewrite IH; [reflexivity|simpl in *; lia|discriminate|exact Hlast].
    - change (c' :: t ++ [NL]) with ((c' :: t) ++ [NL]).
      rewrite IH; [reflexivity|simpl; lia|discriminate|exact Hlast]. }
  destruct t as [|c' t]; [reflexivity|].
  rewrite IH; [reflexivity|lia|discriminate|exact Hlast].
Qed.

Lemma join_nl (L : list str) :
  L <> [] -> join [NL] L = nl_text (removelast L) ++ last L [].
Proof.
  induction L as [|l L IH]; [contradiction|]. intros _.
  destruct L as [|l' L]; [reflexivity|].
  change (join [NL] (l :: l' :: L)) with (l ++ [NL] ++ join [NL] (l' :: L)).
  rewrite IH by discriminate.
  change (removelast (l :: l' :: L)) with (l :: removelast (l' :: L)).
  change (last (l :: l' :: L) []) with (last (l' :: L) []).
  now rewrite nl_text_cons, <- app_assoc.
Qed.

Lemma lstrip_suffix (chars s : str) : exists p, s = p ++ lstrip chars s.
Proof.
  induction s as [|c s [p IH]]; [now exists []|]. simpl.
  destruct (in_chars c chars); [|now exists []].
  exists (c :: p). simpl. now f_equal.
Qed.

Lemma lstrip_no_break (chars s : str) :
  no_break s = true -> no_break (lstrip chars s) = true.
Proof.
  destruct (lstrip_suffix chars s) as [p E]. intros H.
  rewrite E in H. unfold no_break in *. rewrite forallb_app in H.
  now apply andb_prop in H as [_ ?].
Qed.

Lemma stripped_lines_no_break (text : str) :
  Forall (fun l => no_break l = true) (stripped_lines text).
Proof.
  unfold stripped_lines. apply Forall_map.
  eapply Forall_impl; [|apply splitlines_lines_no_break].
  intros l. apply lstrip_no_break.
Qed.

Lemma Forall_removelast {A : Type} (P : A -> Prop) (l : list A) :
  Forall P l -> Forall P (removelast l).
Proof.
  induction 1 as [|a l Ha Hl IH]; [constructor|].
  simpl. destruct l; [constructor|]. constructor; assumption.
Qed.

Lemma Forall_last {A : Type} (P : A -> Prop) (l : list A) (d : A) :
  P d -> Forall P l -> P (last l d).
Proof.
  intros Hd. induction 1 as [|a l Ha Hl IH]; [exact Hd|].
  simpl. destruct l; assumption.
Qed.

(** The paragraphs of the stripped text: the runs of accepted lines among
    its lines, the last line apart, which no newline terminates. *)
Lemma paragraphs_of_strip_indent (text : str) :
  paragraphs_of (strip_indent text) =
  map nl_text (group_lines [] (removelast (stripped_lines text))).
Proof.
  unfold paragraphs_of, strip_indent. fold (stripped_lines text).
  pose proof (stripped_lines_no_break text) as H.
  destruct (stripped_lines text) as [|l L] eqn:E; [reflexivity|].
  rewrite join_nl by discriminate. rewrite findall_findall_at.
  assert (Ht : no_nl (last (l :: L) []) = true).
  { apply no_break_no_nl, Forall_last; [reflexivity | exact H]. }
  apply (findall_at_paragraph_re _ Ht (S (length (removelast (l :: L))))).
  - lia.
  - apply Forall_removelast. eapply Forall_impl; [|exact H].
    intros a. apply no_break_no_nl.
Qed.

(** ** [format_paragraph] fills lines greedily *)

Lemma is_word_nonempty (w : str) : is_word w = true -> w <> [].
Proof. intros H ->. discriminate. Qed.

Lemma is_word_non_space (w : str) :
  is_word w = true -> forallb non_space w = true.
Proof. unfold is_word. intros H. now apply andb_prop in H as [_ ?]. Qed.

Lemma len_nonneg (s : str) : (0 <= len s)%Z.
Proof. unfold len. lia. Qed.

Lemma len_pos (s : str) : s <> [] -> (1 <= len s)%Z.
Proof. unfold len. destruct s; [contradiction|]. simpl length. lia. Qed.

Lemma len_app (s1 s2 : str) : len (s1 ++ s2) = (len s1 + len s2)%Z.
Proof. unfold len. rewrite length_app. lia. Qed.

Lemma space_for_last (x y w : str) :
  last x SP = last y SP -> space_for x w = space_for y w.
Proof. unfold space_for, is_after_period. now intros ->. Qed.

Lemma space_for_app (x y w : str) :
  y <> [] -> space_for (x ++ y) w = space_for y w.
Proof. intros H. apply space_for_last. now apply last_app_nonempty. Qed.

Lemma space_for_cases (x w : str) :
  space_for x w = [SP] \/ space_for x w = [SP; SP].
Proof. unfold space_for. destruct (_ && _); auto. Qed.

Lemma render_words_nonempty (ws : list str) :
  ws <> [] -> Forall (fun w => is_word w = true) ws -> render_words ws <> [].
Proof.
  destruct ws as [|w ws]; [contradiction|]. intros _ H.
  inversion H as [|? ? Hw _]; subst. apply is_word_nonempty in Hw.
  simpl. destruct ws; [exact Hw|].
  intros E. apply app_eq_nil in E as [E _]. contradiction.
Qed.

Lemma render_words_snoc (cur : list str) (w : str) :
  cur <> [] -> Forall (fun w => is_word w = true) cur ->
  render_words (cur ++ [w]) =
  render_words cur ++ space_for (render_words cur) w ++ w.
Proof.
  induction cur as [|a cur IH]; [contradiction|]. intros _ H.
  inversion H as [|? ? Ha Hcur]; subst.
  destruct cur as [|b cur]; [reflexivity|].
  change (render_words ((a :: b :: cur) ++ [w]))
    with (a ++ space_for a b ++ render_words ((b :: cur) ++ [w])).
  rewrite IH by (auto; discriminate).
  change (render_words (a :: b :: cur))
    with (a ++ space_for a b ++ render_words (b :: cur)).
  rewrite <- !app_assoc. do 3 f_equal.
  rewrite !app_assoc, space_for_app; [reflexivity|].
  apply render_words_nonempty; [discriminate | exact Hcur].
Qed.

Section FormatFacts.

Variable indent : str.
Variable indent_width : Z.
Variable max_line_length : Z.
Hypothesis indent_width_nonneg : (0 <= indent_width)%Z.

Local Abbreviation add_word := (add_word indent indent_width max_line_length).
Local Abbreviation layout := (layout indent_width max_line_length).
Local Abbreviation layout_words := (layout_words indent_width max_line_length).
Local Abbreviation render_line := (render_line indent).
Local Abbreviation fits := (fits indent_width max_line_length).
Local Abbreviation line_width := (line_width indent_width).

Lemma line_width_pos (cur : list str) :
  cur <> [] -> Forall (fun w => is_word w = true) cur ->
  (1 <= line_width cur)%Z.
Proof.
  intros Hne H. unfold line_width.
  pose proof (len_pos _ (render_words_nonempty cur Hne H)). lia.
Qed.

Local Abbreviation filling := (filling indent indent_width).

Lemma add_word_fits (pre : str) (cur : list str) (w : str) :
  cur <> [] -> Forall (fun w => is_word w = true) cur ->
  fits cur w = true ->
  add_word (filling pre cur) w = filling pre (cur ++ [w]).
Proof.
  intros Hne Hcur Hf. unfold add_word, filling. cbn [offset new_paragraph].
  pose proof (line_width_pos cur Hne Hcur) as Hpos.
  assert (E0 : (line_width cur =? 0)%Z = false) by (apply Z.eqb_neq; lia).
  rewrite E0. cbn [negb].
  assert (Es : space_for (pre ++ render_line cur) w =
               space_for (render_words cur) w).
  { unfold render_line. rewrite !app_assoc.
    apply space_for_app. now apply render_words_nonempty. }
  rewrite Es. unfold fits in Hf. rewrite Hf. cbn [offset new_paragraph].
  pose proof (len_nonneg (space_for (render_words cur) w)).
  pose proof (len_nonneg w).
  assert (E1 : (line_width cur + len (space_for (render_words cur) w) + len w
                =? 0)%Z = false) by (apply Z.eqb_neq; lia).
  rewrite E1. unfold render_line, line_width.
  rewrite render_words_snoc by assumption.
  rewrite !len_app, <- !app_assoc. f_equal. lia.
Qed.

Lemma add_word_overflow (pre : str) (cur : list str) (w : str) :
  cur <> [] -> Forall (fun w => is_word w = true) cur ->
  fits cur w = false ->
  add_word (filling pre cur) w = filling (pre ++ render_line cur ++ [NL]) [w].
Proof.
  intros Hne Hcur Hf. unfold add_word, filling. cbn [offset new_paragraph].
  pose proof (line_width_pos cur Hne Hcur) as Hpos.
  assert (E0 : (line_width cur =? 0)%Z = false) by (apply Z.eqb_neq; lia).
  rewrite E0. cbn [negb].
  assert (Es : space_for (pre ++ render_line cur) w =
               space_for (render_words cur) w).
  { unfold render_line. rewrite !app_assoc.
    apply space_for_app. now apply render_words_nonempty. }
  rewrite Es. unfold fits in Hf. rewrite Hf. cbn [offset new_paragraph].
  rewrite Z.eqb_refl. unfold render_line, line_width. simpl render_words.
  now rewrite <- !app_assoc.
Qed.

Lemma add_word_first (w : str) :
  add_word (FpState [] 0) w = filling [] [w].
Proof. reflexivity. Qed.

Lemma fold_add_word_layout (ws : list str) :
  Forall (fun w => is_word w = true) ws ->
  forall pre cur,
    cur <> [] -> Forall (fun w => is_word w = true) cur ->
    new_paragraph (fold_left add_word ws (filling pre cur)) ++ [NL] =
    pre ++ nl_text (map render_line (layout cur ws)).
Proof.
  induction 1 as [|w ws Hw Hws IH]; intros pre cur Hne Hcur.
  - simpl. unfold nl_text. simpl. now rewrite app_nil_r, <- app_assoc.
  - cbn [fold_left layout]. destruct (fits cur w) eqn:Hf.
    + rewrite add_word_fits by assumption. apply IH.
      * now destruct cur.
      * apply Forall_app. split; [exact Hcur | now constructor].
    + rewrite add_word_overflow by assumption.
      rewrite IH; [|discriminate | now constructor].
      cbn [map]. rewrite nl_text_cons, <- !app_assoc. reflexivity.
Qed.

(** [format_paragraph] prints the greedy layout of its words. *)
Lemma format_words_layout (ws : list str) :
  ws <> [] -> Forall (fun w => is_word w = true) ws ->
  format_words indent indent_width max_line_length ws =
  nl_text (map render_line (layout_words ws)).
Proof.
  destruct ws as [|w ws]; [contradiction|]. intros _ H.
  inversion H as [|? ? Hw Hws]; subst.
  unfold format_words. cbn [fold_left]. rewrite add_word_first.
  rewrite fold_add_word_layout; [reflexivity | exact Hws | discriminate|].
  now constructor.
Qed.

End FormatFacts.

(** ** Tokens of lines and of rendered lines *)

Lemma tokens_start (c : ascii) (s : str) :
  is_space c = false -> tokens (c :: s) <> [].
Proof. intros H. now rewrite tokens_unfold. Qed.

Lemma tokens_cons2 (x y : ascii) (s : str) :
  is_space x = false ->
  tokens (x :: y :: s) =
  if is_space y then [x] :: tokens (y :: s)
  else match tokens (y :: s) with
       | t :: ts => (x :: t) :: ts
       | [] => [[x]]
       end.
Proof.
  intros Hx.
  change (tokens (x :: y :: s))
    with (if is_space x then tokens (y :: s)
          else if is_space y then [x] :: tokens (y :: s)
               else match tokens (y :: s) with
                    | t :: ts => (x :: t) :: ts
                    | [] => [[x]]
                    end).
  now rewrite Hx.
Qed.

Lemma tokens_app_space (a : str) (c : ascii) (b : str) :
  is_space c = true -> tokens (a ++ c :: b) = tokens a ++ tokens (c :: b).
Proof.
  intros Hc. induction a as [|x a IH]; [reflexivity|].
  destruct (is_space x) eqn:Hx.
  - cbn [app]. rewrite !(tokens_space x) by exact Hx. exact IH.
  - destruct a as [|y a].
    + cbn [app]. rewrite tokens_cons2, Hc by exact Hx.
      simpl. now rewrite Hx.
    + change ((x :: y :: a) ++ c :: b) with (x :: y :: a ++ c :: b).
      rewrite !tokens_cons2 by exact Hx.
      change (y :: a ++ c :: b) with ((y :: a) ++ c :: b). rewrite IH.
      destruct (is_space y) eqn:Hy; [reflexivity|].
      pose proof (tokens_start y a Hy) as Hne.
      destruct (tokens (y :: a)); [contradiction | reflexivity].
Qed.

Lemma tokens_nl_text (ls : list str) :
  tokens (nl_text ls) = flat_map tokens ls.
Proof.
  induction ls as [|l ls IH]; [reflexivity|].
  rewrite nl_text_cons, tokens_app_space by reflexivity.
  now rewrite tokens_space, IH by reflexivity.
Qed.

Lemma take_while_nonempty (p : ascii -> bool) (c : ascii) (s : str) :
  p c = true -> take_while p (c :: s) <> [].
Proof. intros H. simpl. now rewrite H. Qed.

Lemma tokens_are_words :
  forall n s, length s < n -> Forall (fun w => is_word w = true) (tokens s).
Proof.
  induction n as [|n IH]; intros s Hn; [lia|].
  destruct s as [|c s]; [constructor|].
  destruct (is_space c) eqn:Hc.
  - rewrite tokens_space by exact Hc. apply IH. simpl in Hn. lia.
  - rewrite tokens_unfold by exact Hc. constructor.
    + unfold is_word. rewrite take_while_all, andb_true_r.
      simpl. unfold non_space at 1. now rewrite Hc.
    + apply IH. pose proof (length_drop_while non_space (c :: s)) as L.
      simpl in L. unfold non_space in L at 1. rewrite Hc in L. simpl in L.
      pose proof (length_drop_while non_space s).
      simpl. unfold non_space at 1. rewrite Hc. simpl. simpl in Hn. lia.
Qed.

Lemma tokens_words (s : str) : Forall (fun w => is_word w = true) (tokens s).
Proof. apply (tokens_are_words (S (length s))). lia. Qed.

Lemma tokens_single (w : str) : is_word w = true -> tokens w = [w].
Proof.
  intros H. rewrite <- (app_nil_r w) at 1.
  rewrite tokens_word; [reflexivity | | | exact I].
  - now apply is_word_nonempty.
  - now apply is_word_non_space.
Qed.

Lemma tokens_render_words (ws : list str) :
  Forall (fun w => is_word w = true) ws -> tokens (render_words ws) = ws.
Proof.
  induction 1 as [|w ws Hw Hws IH]; [reflexivity|].
  destruct ws as [|w' ws]; [now apply tokens_single|].
  change (render_words (w :: w' :: ws))
    with (w ++ space_for w w' ++ render_words (w' :: ws)).
  rewrite tokens_word.
  - f_equal. rewrite tokens_spaces; [exact IH|].
    now destruct (space_for_cases w w') as [-> | ->].
  - now apply is_word_nonempty.
  - now apply is_word_non_space.
  - now destruct (space_for_cases w w') as [-> | ->].
Qed.

Lemma good_line_tokens (l : str) : good_line l = true -> tokens l <> [].
Proof.
  intros H. apply good_line_split in H as (sp & w & m2 & -> & Hsp & Hne & Hw & _).
  rewrite <- app_assoc, tokens_spaces.
  - destruct w as [|c w]; [contradiction|]. cbn [app].
    apply tokens_start. simpl in Hw. apply andb_prop in Hw as [Hc _].
    unfold non_space in Hc. now apply negb_true_iff in Hc.
  - apply forallb_forall. intros c Hc. apply blank_is_space.
    now apply (proj1 (forallb_forall _ _) Hsp).
Qed.

(** ** The runs of accepted lines *)

Lemma group_lines_blocks (ls : list str) :
  forall cur,
    Forall (fun l => good_line l = true) cur ->
    Forall (fun b => b <> [] /\ Forall (fun l => good_line l = true) b)
           (group_lines cur ls).
Proof.
  induction ls as [|l ls IH]; intros cur Hcur; simpl.
  - destruct cur; [constructor|]. constructor; [|constructor].
    split; [discriminate | exact Hcur].
  - destruct (good_line l) eqn:G.
    + apply IH. apply Forall_app. split; [exact Hcur | now constructor].
    + destruct cur; [now apply IH|]. constructor; [|now apply IH].
      split; [discriminate | exact Hcur].
Qed.

Lemma group_lines_concat (ls : list str) :
  forall cur, concat (group_lines cur ls) = cur ++ filter good_line ls.
Proof.
  induction ls as [|l ls IH]; intros cur; simpl.
  - destruct cur; [reflexivity|]. simpl. now rewrite !app_nil_r.
  - destruct (good_line l) eqn:G.
    + now rewrite IH, <- app_assoc.
    + destruct cur; [now rewrite IH|]. simpl. rewrite IH. reflexivity.
Qed.

Lemma paragraph_tokens_nonempty (b : list str) :
  b <> [] -> Forall (fun l => good_line l = true) b ->
  tokens (nl_text b) <> [].
Proof.
  destruct b as [|l b]; [contradiction|]. intros _ H.
  inversion H as [|? ? Hl _]; subst.
  rewrite tokens_nl_text. simpl. apply good_line_tokens in Hl.
  destruct (tokens l); [contradiction | discriminate].
Qed.

Lemma paragraphs_have_tokens (text : str) :
  Forall (fun p => tokens p <> []) (paragraphs_of (strip_indent text)).
Proof.
  rewrite paragraphs_of_strip_indent. apply Forall_map.
  eapply Forall_impl; [|apply (group_lines_blocks _ [] (Forall_nil _))].
  intros b [Hne Hb]. now apply paragraph_tokens_nonempty.
Qed.

(** ** The indent *)

Lemma indent_char_cases (c : ascii) :
  is_indent_char c = true ->
  is_linebreak c = false /\ (c = TAB \/ is_space c = true \/ non_space c = true).
Proof.
  unfold is_indent_char, in_chars, INDENT_CHARS. cbn [existsb].
  intros H. repeat (apply orb_prop in H as [H|H];
    [apply Ascii.eqb_eq in H; subst c; split; [reflexivity|]; auto|]).
  discriminate.
Qed.

Lemma extract_indent_chars (text : str) :
  forallb is_indent_char (extract_indent text) = true.
Proof. rewrite extract_indent_take_while. apply take_while_all. Qed.

Lemma indent_no_break (indent : str) :
  forallb is_indent_char indent = true -> no_break indent = true.
Proof.
  intros H. apply forallb_forall. intros c Hc.
  apply (proj1 (forallb_forall _ _) H) in Hc.
  apply indent_char_cases in Hc as [-> _]. reflexivity.
Qed.

Lemma count_nonneg (c : ascii) (s : str) : (0 <= count c s)%Z.
Proof. unfold count. lia. Qed.

Lemma indent_width_nonneg (indent : str) (tab_width : Z) :
  (1 <= tab_width)%Z -> (0 <= indent_width_of indent tab_width)%Z.
Proof.
  intros H. unfold indent_width_of.
  pose proof (len_nonneg indent). pose proof (count_nonneg TAB indent). nia.
Qed.

(** ** The lines of the replacement text *)

Lemma join_blank_line (sep : str) (blocks : list (list str)) :
  join (sep ++ [NL]) (map nl_text blocks) = nl_text (join_lines sep blocks).
Proof.
  induction blocks as [|b bs IH]; [reflexivity|].
  destruct bs as [|b' bs]; [reflexivity|].
  change (join (sep ++ [NL]) (map nl_text (b :: b' :: bs)))
    with (nl_text b ++ (sep ++ [NL]) ++ join (sep ++ [NL]) (map nl_text (b' :: bs))).
  rewrite IH.
  change (join_lines sep (b :: b' :: bs))
    with (b ++ sep :: join_lines sep (b' :: bs)).
  now rewrite nl_text_app, nl_text_cons, <- !app_assoc.
Qed.

Lemma format_paragraph_lines (indent : str) (iw w : Z) (p : str) :
  (0 <= iw)%Z -> tokens p <> [] ->
  format_paragraph indent iw w p = nl_text (paragraph_lines indent iw w p).
Proof.
  intros Hiw Hne. unfold format_paragraph, paragraph_lines.
  rewrite findall_token_re.
  apply format_words_layout; [exact Hiw | exact Hne | apply tokens_words].
Qed.

(** [reflow] prints the lines [out_lines]. *)
Lemma reflow_out_lines (t : str) (w tw : Z) :
  (1 <= tw)%Z -> reflow t w tw = nl_text (out_lines t w tw).
Proof.
  intros Htw. unfold reflow, out_lines. cbv zeta.
  rewrite <- join_blank_line. f_equal.
  rewrite map_map. apply map_ext_Forall.
  eapply Forall_impl; [|apply paragraphs_have_tokens].
  intros p Hp. apply format_paragraph_lines; [|exact Hp].
  now apply indent_width_nonneg.
Qed.

(** ** The greedy layout *)

Section LayoutFacts.

Variable indent : str.
Variable indent_width : Z.
Variable max_line_length : Z.
Hypothesis indent_width_nonneg : (0 <= indent_width)%Z.

Local Abbreviation lay := (layout indent_width max_line_length).
Local Abbreviation lay_words := (layout_words indent_width max_line_length).
Local Abbreviation fit := (fits indent_width max_line_length).
Local Abbreviation lwidth := (line_width indent_width).

Lemma layout_concat (ws : list str) :
  forall cur, concat (lay cur ws) = cur ++ ws.
Proof.
  induction ws as [|w ws IH]; intros cur; cbn [layout].
  - simpl. now rewrite app_nil_r.
  - destruct (fit cur w).
    + now rewrite IH, <- app_assoc.
    + simpl. now rewrite IH.
Qed.

Lemma layout_words_concat (ws : list str) : concat (lay_words ws) = ws.
Proof. destruct ws as [|w ws]; [reflexivity|]. apply layout_concat. Qed.

Lemma layout_lines_words (ws : list str) :
  Forall (fun w => is_word w = true) ws ->
  forall cur,
    cur <> [] -> Forall (fun w => is_word w = true) cur ->
    Forall (fun l => l <> [] /\ Forall (fun w => is_word w = true) l)
           (lay cur ws).
Proof.
  induction 1 as [|w ws Hw Hws IH]; intros cur Hne Hcur; cbn [layout].
  - now repeat constructor.
  - destruct (fit cur w).
    + apply IH; [now destruct cur|].
      apply Forall_app. split; [exact Hcur | now constructor].
    + constructor; [now split|].
      apply IH; [discriminate | now constructor].
Qed.

Lemma layout_words_lines (ws : list str) :
  Forall (fun w => is_word w = true) ws ->
  Forall (fun l => l <> [] /\ Forall (fun w => is_word w = true) l)
         (lay_words ws).
Proof.
  destruct ws as [|w ws]; [constructor|]. intros H.
  inversion H; subst. apply layout_lines_words; auto. discriminate.
Qed.

Lemma line_width_snoc (cur : list str) (w : str) :
  cur <> [] -> Forall (fun w => is_word w = true) cur ->
  lwidth (cur ++ [w]) =
  (lwidth cur + len (space_for (render_words cur) w) + len w)%Z.
Proof.
  intros Hne Hcur. unfold line_width.
  rewrite render_words_snoc, !len_app by assumption. lia.
Qed.

(** Every line of the lay holds one word or is within the width. *)
Lemma layout_width (ws : list str) :
  Forall (fun w => is_word w = true) ws ->
  forall cur,
    cur <> [] -> Forall (fun w => is_word w = true) cur ->
    (exists w, cur = [w]) \/ (lwidth cur <= max_line_length)%Z ->
    Forall (fun l => (exists w, l = [w]) \/
                     (lwidth l <= max_line_length)%Z)
           (lay cur ws).
Proof.
  induction 1 as [|w ws Hw Hws IH]; intros cur Hne Hcur Hc; cbn [layout].
  - constructor; [exact Hc | constructor].
  - destruct (fit cur w) eqn:Hf.
    + apply IH; [now destruct cur| |].
      * apply Forall_app. split; [exact Hcur | now constructor].
      * right. rewrite line_width_snoc by assumption.
        unfold fits in Hf. now apply Z.leb_le in Hf.
    + constructor; [exact Hc|].
      apply IH; [discriminate | now constructor | left; now exists w].
Qed.

Lemma layout_words_width (ws : list str) :
  Forall (fun w => is_word w = true) ws ->
  Forall (fun l => (exists w, l = [w]) \/ (lwidth l <= max_line_length)%Z)
         (lay_words ws).
Proof.
  destruct ws as [|w ws]; [constructor|]. intros H.
  inversion H; subst. apply layout_width; auto; [discriminate|].
  left. now exists w.
Qed.

(** A word longer than the width fit on no line. *)
Lemma overlong_never_fits (cur : list str) (w : str) :
  (max_line_length < len w)%Z -> fit cur w = false.
Proof.
  intros H. unfold fits, line_width. apply Z.leb_gt.
  pose proof (len_nonneg (render_words cur)).
  pose proof (len_nonneg (space_for (render_words cur) w)). lia.
Qed.

Lemma after_overlong_never_fits (w x : str) :
  (max_line_length < len w)%Z -> fit [w] x = false.
Proof.
  intros H. unfold fits, line_width. apply Z.leb_gt.
  cbn [render_words].
  pose proof (len_nonneg (space_for w x)). pose proof (len_nonneg x). lia.
Qed.

Lemma layout_after_overlong (w : str) (ws2 : list str) :
  (max_line_length < len w)%Z -> lay [w] ws2 = [w] :: lay_words ws2.
Proof.
  intros H. destruct ws2 as [|x ws2]; [reflexivity|].
  cbn [layout layout_words]. now rewrite after_overlong_never_fits.
Qed.

Lemma layout_overlong (w : str) (ws2 : list str) :
  (max_line_length < len w)%Z ->
  forall ws1 cur,
    lay cur (ws1 ++ w :: ws2) = lay cur ws1 ++ [w] :: lay_words ws2.
Proof.
  intros H. induction ws1 as [|a ws1 IH]; intros cur.
  - cbn [app layout]. rewrite overlong_never_fits by exact H.
    f_equal. now apply layout_after_overlong.
  - cbn [app layout]. destruct (fit cur a); now rewrite IH.
Qed.

Lemma layout_words_overlong (w : str) (ws1 ws2 : list str) :
  (max_line_length < len w)%Z ->
  lay_words (ws1 ++ w :: ws2) = lay_words ws1 ++ [w] :: lay_words ws2.
Proof.
  intros H. destruct ws1 as [|a ws1].
  - cbn [app layout_words]. now apply layout_after_overlong.
  - cbn [app layout_words]. now apply layout_overlong.
Qed.

End LayoutFacts.

(** * The properties of the specification *)

(** ** The indent (lines 236-237) *)

Lemma in_chars_In (c : ascii) (chars : str) :
  in_chars c chars = true <-> In c chars.
Proof.
  unfold in_chars. rewrite existsb_exists. split.
  - intros (x & Hx & E). apply Ascii.eqb_eq in E. now subst.
  - intros H. exists c. split; [exact H | apply Ascii.eqb_refl].
Qed.

Lemma take_while_add_nl (p : ascii -> bool) (t : str) :
  p NL = false -> take_while p (t ++ [NL]) = take_while p t.
Proof.
  intros H. induction t as [|c t IH]; simpl; [now rewrite H|].
  now rewrite IH.
Qed.

Lemma first_line_cons (c : ascii) (t : str) :
  is_linebreak c = false -> first_line (c :: t) = c :: first_line t.
Proof.
  unfold is_linebreak, first_line. intros H.
  apply orb_false_elim in H as [E1 E2]. simpl. rewrite E1, E2.
  now destruct (splitlines t).
Qed.

Lemma first_line_break (c : ascii) (t : str) :
  is_linebreak c = true -> first_line (c :: t) = [].
Proof.
  unfold is_linebreak, first_line. intros H. simpl.
  destruct (Ascii.eqb c NL); [reflexivity|]. simpl in H. rewrite H.
  destruct t as [|c' t]; [reflexivity|]. now destruct (Ascii.eqb c' NL).
Qed.

Lemma take_while_first_line (p : ascii -> bool) (t : str) :
  (forall c, p c = true -> is_linebreak c = false) ->
  take_while p t = take_while p (first_line t).
Proof.
  intros Hp. induction t as [|c t IH]; [reflexivity|].
  destruct (is_linebreak c) eqn:E.
  - rewrite first_line_break by exact E. simpl.
    destruct (p c) eqn:Hc; [|reflexivity].
    apply Hp in Hc. congruence.
  - rewrite first_line_cons by exact E. simpl. now rewrite IH.
Qed.

Lemma extract_indent_first_line (text : str) :
  extract_indent (text ++ [NL]) = take_while is_indent_char (first_line text).
Proof.
  rewrite extract_indent_take_while, take_while_add_nl by reflexivity.
  apply take_while_first_line. intros c Hc.
  now apply indent_char_cases in Hc as [? _].
Qed.

(** C5: the extracted indent is the longest prefix of the first line of
    the input made only of the characters space, tab, [#], [/], [;], [*],
    [!] and [-] (so it is empty when the line starts with none of them),
    and the indent width is [len(indent) + indent.count(tab) * (tab_width
    - 1)]. *)
Theorem indent_longest_prefix_of_first_line (text : str) (tab_width : Z) :
  let indent := extract_indent (text ++ [NL]) in
  let indent_set := [SP; TAB; "#"; "/"; ";"; "*"; "!"; "-"]%char in
  (exists r, first_line text = indent ++ r) /\
  Forall (fun c => In c indent_set) indent /\
  (forall p r, first_line text = p ++ r ->
               Forall (fun c => In c indent_set) p ->
               exists q, indent = p ++ q) /\
  (indent = [] <->
   match first_line text with
   | [] => True
   | c :: _ => ~ In c indent_set
   end) /\
  indent_width_of indent tab_width =
  (len indent + count TAB indent * (tab_width - 1))%Z.
Proof.
  cbv zeta. rewrite extract_indent_first_line.
  split; [|split; [|split; [|split]]].
  - exists (drop_while is_indent_char (first_line text)).
    symmetry. apply take_drop_while.
  - apply Forall_forall. intros c Hc.
    pose proof (take_while_all is_indent_char (first_line text)) as H.
    apply (proj1 (forallb_forall _ _) H) in Hc.
    now apply in_chars_In in Hc.
  - intros p r E Hp. rewrite E.
    exists (take_while is_indent_char r). apply take_while_app.
    apply forallb_forall. intros c Hc.
    apply (proj1 (Forall_forall _ _) Hp) in Hc. now apply in_chars_In.
  - destruct (first_line text) as [|c r]; [easy|]. cbn [take_while].
    destruct (is_indent_char c) eqn:E.
    + split; [discriminate|]. intros H. exfalso. apply H.
      now apply in_chars_In.
    + split; [|reflexivity]. intros _ H.
      apply in_chars_In in H. change (is_indent_char c = true) in H.
      congruence.
  - reflexivity.
Qed.

(** ** The loop of [format_paragraph] (lines 250-269) *)

Section LoopFacts.

Variable indent : str.
Variable indent_width : Z.
Variable max_line_length : Z.
Hypothesis indent_width_nonneg : (0 <= indent_width)%Z.

Local Abbreviation step := (add_word indent indent_width max_line_length).
Local Abbreviation fill := (filling indent indent_width).

Lemma add_word_grows (st : fp_state) (w : str) :
  exists post, new_paragraph (step st w) = new_paragraph st ++ post.
Proof.
  unfold add_word.
  destruct (negb (offset st =? 0)%Z) eqn:E0.
  - destruct (_ <=? max_line_length)%Z; cbn [offset new_paragraph].
    + match goal with |- context [if ?c then _ else _] => destruct c end;
        cbn [new_paragraph]; rewrite <- ?app_assoc; eauto.
    + rewrite Z.eqb_refl. cbn [new_paragraph]. rewrite <- app_assoc. eauto.
  - apply negb_false_iff in E0. rewrite E0. cbn [new_paragraph]. eauto.
Qed.

Lemma fold_add_word_grows (ws : list str) :
  forall st, exists post,
    new_paragraph (fold_left step ws st) = new_paragraph st ++ post.
Proof.
  induction ws as [|w ws IH]; intros st.
  - exists []. simpl. now rewrite app_nil_r.
  - cbn [fold_left]. destruct (IH (step st w)) as [post1 E1].
    destruct (add_word_grows st w) as [post2 E2].
    exists (post2 ++ post1). now rewrite E1, E2, app_assoc.
Qed.

(** After every word the loop is filling a line that holds a word. *)
Lemma fold_add_word_filling (ws : list str) :
  Forall (fun w => is_word w = true) ws ->
  forall pre cur,
    cur <> [] -> Forall (fun w => is_word w = true) cur ->
    exists pre' cur',
      fold_left step ws (fill pre cur) = fill pre' cur' /\
      cur' <> [] /\ Forall (fun w => is_word w = true) cur'.
Proof.
  induction 1 as [|w ws Hw Hws IH]; intros pre cur Hne Hcur.
  - now exists pre, cur.
  - cbn [fold_left].
    destruct (fits indent_width max_line_length cur w) eqn:Hf.
    + rewrite add_word_fits by assumption. apply IH; [now destruct cur|].
      apply Forall_app. split; [exact Hcur | now constructor].
    + rewrite add_word_overflow by assumption.
      apply IH; [discriminate | now constructor].
Qed.

Lemma fold_add_word_filling_first (w : str) (ws : list str) :
  Forall (fun w => is_word w = true) (w :: ws) ->
  exists pre cur,
    fold_left step (w :: ws) (FpState [] 0) = fill pre cur /\
    cur <> [] /\ Forall (fun w => is_word w = true) cur.
Proof.
  intros H. inversion H; subst. cbn [fold_left].
  rewrite add_word_first.
  apply fold_add_word_filling; [assumption | discriminate | now constructor].
Qed.

End LoopFacts.

Lemma last_non_space (w : str) :
  is_word w = true -> non_space (last w SP) = true.
Proof.
  intros H. pose proof (is_word_nonempty w H) as Hne.
  apply is_word_non_space in H.
  apply (proj1 (forallb_forall _ _) H).
  rewrite (app_removelast_last SP Hne) at 2. apply in_or_app. right. now left.
Qed.

Lemma last_render_words (cur : list str) :
  cur <> [] -> Forall (fun w => is_word w = true) cur ->
  non_space (last (render_words cur) SP) = true.
Proof.
  intros Hne H. destruct (exists_last Hne) as (cur' & x & ->).
  apply Forall_app in H as [Hcur' Hx]. inversion Hx; subst.
  destruct cur' as [|a cur'].
  - now apply last_non_space.
  - rewrite render_words_snoc by (auto; discriminate).
    rewrite !app_assoc, last_app_nonempty by now apply is_word_nonempty.
    now apply last_non_space.
Qed.

(** The subscripts [new_paragraph[-1]] and [word[0]] of lines 254-255 are
    in range whenever they are evaluated: the offset is not 0 only after
    a word has been added, and a match of ['\S+'] is not empty. *)
Lemma format_words_subscripts
      (indent : str) (indent_width max_line_length : Z)
      (paragraph : str) (before : list str) (word : str) (after : list str) :
  (0 <= indent_width)%Z ->
  findall token_re paragraph = before ++ word :: after ->
  let st := fold_left (add_word indent indent_width max_line_length) before
                      (FpState [] 0) in
  word <> [] /\ (offset st <> 0%Z -> new_paragraph st <> []).
Proof.
  intros Hiw E st. pose proof (tokens_words paragraph) as H.
  rewrite <- findall_token_re, E in H.
  apply Forall_app in H as [Hb Hw]. inversion Hw as [|? ? Hword _]; subst.
  split; [now apply is_word_nonempty|].
  subst st. destruct before as [|w0 before]; [now intros []|].
  destruct (fold_add_word_filling_first indent indent_width max_line_length
              Hiw w0 before Hb) as (pre & cur & -> & Hne & Hcur).
  intros _. unfold filling, render_line. cbn [new_paragraph].
  pose proof (render_words_nonempty cur Hne Hcur) as Hr.
  intros E'. apply app_eq_nil in E' as [_ E']. now apply app_eq_nil in E' as [_ E'].
Qed.

(** C3: within a paragraph, a token appended to the non-empty current
    line is preceded by exactly two spaces when the last character of the
    line so far is a period and the token starts with one of [A]-[Z], and
    by exactly one space otherwise; the characters on both sides of the
    spaces are not white space, and the text stays in the output. *)
Theorem appended_token_spacing
        (indent : str) (indent_width max_line_length : Z)
        (paragraph : str) (first : str) (before : list str) (word : str)
        (after : list str) :
  (0 <= indent_width)%Z ->
  findall token_re paragraph = (first :: before) ++ word :: after ->
  let st := fold_left (add_word indent indent_width max_line_length)
                      (first :: before) (FpState [] 0) in
  let after_period := Ascii.eqb (last (new_paragraph st) SP) "."%char in
  let before_capital :=
    in_chars (hd SP word) (lit "ABCDEFGHIJKLMNOPQRSTUVWXYZ") in
  let space := if after_period && before_capital then [SP; SP] else [SP] in
  (offset st + len space + len word <= max_line_length)%Z ->
  new_paragraph (add_word indent indent_width max_line_length st word) =
  new_paragraph st ++ space ++ word /\
  non_space (last (new_paragraph st) SP) = true /\
  non_space (hd SP word) = true /\
  exists rest,
    format_paragraph indent indent_width max_line_length paragraph =
    new_paragraph st ++ space ++ word ++ rest.
Proof.
  intros Hiw E st after_period before_capital space Hfit.
  pose proof (tokens_words paragraph) as H.
  rewrite <- findall_token_re, E in H.
  apply Forall_app in H as [Hb Hw]. inversion Hw as [|? ? Hword Hafter]; subst.
  destruct (fold_add_word_filling_first indent indent_width max_line_length
              Hiw first before Hb) as (pre & cur & Est & Hne & Hcur).
  fold st in Est.
  assert (Hsp : space = space_for (render_words cur) word).
  { subst space after_period before_capital. rewrite Est.
    unfold filling, render_line. cbn [new_paragraph].
    rewrite !app_assoc, last_app_nonempty
      by now apply render_words_nonempty.
    reflexivity. }
  assert (Hf : fits indent_width max_line_length cur word = true).
  { unfold fits. apply Z.leb_le. rewrite <- Hsp.
    rewrite Est in Hfit. exact Hfit. }
  assert (Hnp : new_paragraph
                  (add_word indent indent_width max_line_length st word) =
                new_paragraph st ++ space ++ word).
  { rewrite Est, add_word_fits by assumption.
    unfold filling, render_line. cbn [new_paragraph].
    rewrite render_words_snoc, <- Hsp by assumption.
    now rewrite <- !app_assoc. }
  split; [exact Hnp|]. split; [|split].
  - rewrite Est. unfold filling, render_line. cbn [new_paragraph].
    rewrite !app_assoc, last_app_nonempty
      by now apply render_words_nonempty.
    now apply last_render_words.
  - pose proof (is_word_nonempty word Hword).
    apply is_word_non_space in Hword.
    destruct word as [|c word]; [contradiction|].
    simpl in Hword. now apply andb_prop in Hword as [? _].
  - unfold format_paragraph, format_words. rewrite E, fold_left_app.
    change (fold_left (add_word indent indent_width max_line_length)
                      (first :: before) (FpState [] 0)) with st.
    change (fold_left (add_word indent indent_width max_line_length)
                      (word :: after) st)
      with (fold_left (add_word indent indent_width max_line_length) after
              (add_word indent indent_width max_line_length st word)).
    destruct (fold_add_word_grows indent indent_width max_line_length after
                (add_word indent indent_width max_line_length st word))
      as [post Ep].
    rewrite Ep, Hnp. exists (post ++ [NL]). now rewrite <- !app_assoc.
Qed.

(** ** The lines of the output *)

Lemma non_space_no_break (c : ascii) :
  non_space c = true -> is_linebreak c = false.
Proof.
  unfold non_space, is_space, is_linebreak, in_chars. cbn [existsb].
  intros H. apply negb_true_iff in H.
  destruct (Ascii.eqb c NL) eqn:E1.
  { rewrite !orb_true_r in H. discriminate. }
  destruct (Ascii.eqb c CR) eqn:E2; [|reflexivity].
  rewrite !orb_true_r in H. discriminate.
Qed.

Lemma word_no_break (w : str) : is_word w = true -> no_break w = true.
Proof.
  intros H. apply is_word_non_space in H. apply forallb_forall.
  intros c Hc. apply (proj1 (forallb_forall _ _) H) in Hc.
  now rewrite non_space_no_break.
Qed.

Lemma no_break_app (a b : str) :
  no_break (a ++ b) = no_break a && no_break b.
Proof. apply forallb_app. Qed.

Lemma space_for_no_break (x w : str) : no_break (space_for x w) = true.
Proof. now destruct (space_for_cases x w) as [-> | ->]. Qed.

Lemma render_words_no_break (ws : list str) :
  Forall (fun w => is_word w = true) ws -> no_break (render_words ws) = true.
Proof.
  induction 1 as [|w ws Hw Hws IH]; [reflexivity|].
  destruct ws as [|w' ws]; [now apply word_no_break|].
  change (render_words (w :: w' :: ws))
    with (w ++ space_for w w' ++ render_words (w' :: ws)).
  now rewrite !no_break_app, word_no_break, space_for_no_break, IH.
Qed.

Lemma in_join_lines (sep x : str) (blocks : list (list str)) :
  In x (join_lines sep blocks) ->
  x = sep \/ exists b, In b blocks /\ In x b.
Proof.
  induction blocks as [|b bs IH]; [intros []|].
  destruct bs as [|b' bs].
  - intros H. right. exists b. split; [now left | exact H].
  - change (join_lines sep (b :: b' :: bs))
      with (b ++ sep :: join_lines sep (b' :: bs)).
    intros H. apply in_app_or in H as [H|[H|H]].
    + right. exists b. split; [now left | exact H].
    + now left.
    + destruct (IH H) as [->|(b0 & Hb0 & Hx)]; [now left|].
      right. exists b0. split; [now right | exact Hx].
Qed.

Lemma join_lines_in (sep x : str) (b : list str) (blocks : list (list str)) :
  In b blocks -> In x b -> In x (join_lines sep blocks).
Proof.
  induction blocks as [|b0 bs IH]; [intros []|].
  intros Hb Hx. destruct bs as [|b' bs].
  - destruct Hb as [->|[]]. exact Hx.
  - change (join_lines sep (b0 :: b' :: bs))
      with (b0 ++ sep :: join_lines sep (b' :: bs)).
    apply in_or_app. destruct Hb as [->|Hb]; [now left|].
    right. right. now apply IH.
Qed.

(** An output line is the separator or a line of a re-wrapped paragraph. *)
Lemma out_lines_cases (t : str) (w tw : Z) (l : str) :
  In l (out_lines t w tw) ->
  let indent := extract_indent (t ++ [NL]) in
  let iw := indent_width_of indent tw in
  l = indent \/
  exists p ws,
    In p (paragraphs_of (strip_indent (t ++ [NL]))) /\
    In ws (layout_words iw w (tokens p)) /\
    l = render_line indent ws.
Proof.
  unfold out_lines. cbv zeta. intros H.
  apply in_join_lines in H as [->|(b & Hb & Hl)]; [now left|].
  right. apply in_map_iff in Hb as (p & <- & Hp).
  unfold paragraph_lines in Hl. apply in_map_iff in Hl as (ws & <- & Hws).
  now exists p, ws.
Qed.

Lemma layout_line_words (iw w : Z) (p : str) (ws : list str) :
  In ws (layout_words iw w (tokens p)) ->
  ws <> [] /\ Forall (fun x => is_word x = true) ws.
Proof.
  intros H.
  pose proof (layout_words_lines iw w (tokens p) (tokens_words p)) as HF.
  now apply (proj1 (Forall_forall _ _) HF) in H.
Qed.

Lemma out_lines_no_break (t : str) (w tw : Z) :
  Forall (fun l => no_break l = true) (out_lines t w tw).
Proof.
  apply Forall_forall. intros l Hl.
  pose proof (indent_no_break _ (extract_indent_chars (t ++ [NL]))) as Hi.
  apply out_lines_cases in Hl as [->|(p & ws & _ & Hws & ->)]; [exact Hi|].
  apply layout_line_words in Hws as [_ Hws].
  unfold render_line. now rewrite no_break_app, Hi, render_words_no_break.
Qed.

Lemma splitlines_nl_text_exact (ls : list str) :
  Forall (fun l => no_break l = true) ls -> splitlines (nl_text ls) = ls.
Proof.
  intros H. rewrite <- (app_nil_r (nl_text ls)).
  rewrite splitlines_nl_text by exact H. apply app_nil_r.
Qed.

(** The lines of the replacement text, as [splitlines] reads them. *)
Lemma splitlines_reflow (t : str) (w tw : Z) :
  (1 <= tw)%Z -> splitlines (reflow t w tw) = out_lines t w tw.
Proof.
  intros Htw. rewrite reflow_out_lines by exact Htw.
  apply splitlines_nl_text_exact, out_lines_no_break.
Qed.

Lemma count_app (c : ascii) (a b : str) :
  count c (a ++ b) = (count c a + count c b)%Z.
Proof. unfold count. rewrite filter_app, length_app. lia. Qed.

Lemma count_tab_spaces (s : str) :
  forallb (fun c => negb (Ascii.eqb TAB c)) s = true -> count TAB s = 0%Z.
Proof.
  unfold count. intros H. induction s as [|c s IH]; [reflexivity|].
  simpl in *. apply andb_prop in H as [Hc Hs]. apply negb_true_iff in Hc.
  rewrite Hc. now apply IH.
Qed.

Lemma render_words_no_tab (ws : list str) :
  Forall (fun w => is_word w = true) ws -> count TAB (render_words ws) = 0%Z.
Proof.
  intros H. apply count_tab_spaces, forallb_forall. intros c Hc.
  destruct (Ascii.eqb_spec TAB c) as [<-|]; [|reflexivity]. exfalso.
  revert Hc. induction H as [|w ws Hw Hws IH]; [intros []|].
  destruct ws as [|w' ws].
  - intros Hc. apply is_word_non_space in Hw.
    apply (proj1 (forallb_forall _ _) Hw) in Hc. discriminate.
  - change (render_words (w :: w' :: ws))
      with (w ++ space_for w w' ++ render_words (w' :: ws)).
    intros Hc. apply in_app_or in Hc as [Hc|Hc].
    + apply is_word_non_space in Hw.
      apply (proj1 (forallb_forall _ _) Hw) in Hc. discriminate.
    + apply in_app_or in Hc as [Hc|Hc]; [|now apply IH].
      destruct (space_for_cases w w') as [E | E]; rewrite E in Hc;
        simpl in Hc; intuition discriminate.
Qed.

Lemma col_width_render_line (indent : str) (tw : Z) (ws : list str) :
  Forall (fun w => is_word w = true) ws ->
  col_width tw (render_line indent ws) =
  line_width (indent_width_of indent tw) ws.
Proof.
  intros H. unfold col_width, render_line, line_width, indent_width_of.
  rewrite len_app, count_app, render_words_no_tab by exact H. lia.
Qed.

(** ** Width, indentation and over-long tokens *)

(** C1, as the code has it: every line of the output is at most
    [max_line_length] columns wide (a tab of the indent counting
    [tab_width] columns), except the separator lines, which hold the
    indent alone, and the lines that hold a single token whose width
    together with the indent exceeds [max_line_length]. *)
Theorem output_line_width (t : str) (w tw : Z) (l : str) :
  (1 <= tw)%Z ->
  In l (splitlines (reflow t w tw)) ->
  let indent := extract_indent (t ++ [NL]) in
  (col_width tw l <= w)%Z \/
  l = indent \/
  exists tok, is_word tok = true /\ l = indent ++ tok /\
              (w < indent_width_of indent tw + len tok)%Z.
Proof.
  intros Htw Hl. rewrite splitlines_reflow in Hl by exact Htw.
  apply out_lines_cases in Hl as [->|(p & ws & _ & Hws & ->)]; [now right; left|].
  cbv zeta.
  pose proof (layout_line_words _ _ _ _ Hws) as [Hne Hwords].
  pose proof (layout_words_width (indent_width_of (extract_indent (t ++ [NL])) tw)
                w (tokens p) (tokens_words p)) as HF.
  apply (proj1 (Forall_forall _ _) HF) in Hws.
  rewrite col_width_render_line by exact Hwords.
  destruct Hws as [[tok ->]|Hle]; [|now left].
  destruct (Z_le_gt_dec (line_width
              (indent_width_of (extract_indent (t ++ [NL])) tw) [tok]) w)
    as [Hle|Hgt]; [now left|].
  right. right. exists tok. inversion Hwords; subst.
  unfold line_width in Hgt. cbn [render_words] in Hgt.
  repeat split; [assumption | lia].
Qed.

(** C6: a token longer than [max_line_length] stands alone on its line,
    whole: the paragraph is printed as the words before the token, the
    line made of the indent and the token, and the words after it; and
    that line is a line of the output. *)
Theorem overlong_token_alone
        (t : str) (w tw : Z) (p : str) (ws1 : list str) (tok : str)
        (ws2 : list str) :
  (1 <= tw)%Z ->
  In p (paragraphs_of (strip_indent (t ++ [NL]))) ->
  findall token_re p = ws1 ++ tok :: ws2 ->
  (w < len tok)%Z ->
  let indent := extract_indent (t ++ [NL]) in
  let iw := indent_width_of indent tw in
  let fmt := fun ws => match ws with
                       | [] => []
                       | _ => format_words indent iw w ws
                       end in
  format_paragraph indent iw w p =
  fmt ws1 ++ (indent ++ tok ++ [NL]) ++ fmt ws2 /\
  In (indent ++ tok) (splitlines (reflow t w tw)).
Proof.
  intros Htw Hp E Hlong indent iw fmt.
  pose proof (indent_width_nonneg indent tw Htw) as Hiw. fold iw in Hiw.
  pose proof (tokens_words p) as Hwords.
  rewrite findall_token_re in E. rewrite E in Hwords.
  pose proof Hwords as Hall.
  apply Forall_app in Hwords as [H1 H2].
  inversion H2 as [|? ? Htok H2']; subst.
  assert (Hfmt : forall ws, Forall (fun x => is_word x = true) ws ->
                 fmt ws = nl_text (map (render_line indent)
                                       (layout_words iw w ws))).
  { intros [|x ws] H; [reflexivity|].
    apply format_words_layout; [exact Hiw | discriminate | exact H]. }
  split.
  - unfold format_paragraph. rewrite findall_token_re, E.
    rewrite format_words_layout; [|exact Hiw|now destruct ws1|exact Hall].
    rewrite layout_words_overlong by assumption.
    rewrite map_app, nl_text_app. cbn [map]. rewrite nl_text_cons.
    rewrite !Hfmt by assumption. unfold render_line at 2.
    cbn [render_words]. now rewrite <- !app_assoc.
  - rewrite splitlines_reflow by exact Htw. unfold out_lines. cbv zeta.
    apply (join_lines_in _ _ (paragraph_lines indent iw w p)).
    + apply in_map_iff. now exists p.
    + unfold paragraph_lines. rewrite E, layout_words_overlong by assumption.
      apply in_map_iff. exists [tok]. split; [unfold render_line; reflexivity|].
      apply in_or_app. right. now left.
Qed.

(** C1 as stated fails: under an indent of four columns, the line of a
    single token of eight characters is twelve columns wide, beyond a
    [max_line_length] of ten that the token itself does not exceed. *)
Lemma width_bound_counterexample :
  let text := lit "    abcdefgh" ++ [NL] in
  let line := lit "    abcdefgh" in
  In line (splitlines (reflow text 10 4)) /\
  (10 < col_width 4 line)%Z /\
  tokens line = [lit "abcdefgh"] /\
  (len (lit "abcdefgh") <= 10)%Z.
Proof.
  cbv zeta. split; [vm_compute; now left|].
  split; [reflexivity|]. split; [reflexivity|]. now vm_compute.
Qed.

(** ** The indent-stripping stage (lines 240-241) *)

Lemma lstrip_idempotent (chars l : str) :
  lstrip chars (lstrip chars l) = lstrip chars l.
Proof.
  induction l as [|c l IH]; [reflexivity|]. simpl.
  destruct (in_chars c chars) eqn:E; [exact IH|]. simpl. now rewrite E.
Qed.

Lemma splitlines_join (L : list str) :
  Forall (fun l => no_break l = true) L ->
  splitlines (join [NL] L) =
  match last L [] with [] => removelast L | _ => L end.
Proof.
  intros H. destruct L as [|l0 L0]; [reflexivity|].
  set (L := l0 :: L0) in *. assert (Hne : L <> []) by discriminate.
  clearbody L. rewrite join_nl by exact Hne.
  rewrite splitlines_nl_text by now apply Forall_removelast.
  pose proof (Forall_last _ L [] eq_refl H) as Hx. cbv beta in Hx.
  destruct (last L []) as [|c x] eqn:E.
  - simpl. apply app_nil_r.
  - rewrite splitlines_unterminated by (auto; discriminate).
    rewrite <- E. symmetry. now apply app_removelast_last.
Qed.

Lemma nl_text_snoc (ls : list str) (l : str) :
  nl_text (ls ++ [l]) = nl_text ls ++ l ++ [NL].
Proof. rewrite nl_text_app. unfold nl_text at 2. simpl. now rewrite app_nil_r. Qed.

Lemma removelast_snoc {A : Type} (l : list A) (x : A) :
  removelast (l ++ [x]) = l.
Proof. apply removelast_last. Qed.

Lemma last_no_nl (x : str) :
  x <> [] -> no_nl x = true -> Ascii.eqb (last x SP) NL = false.
Proof.
  intros Hne H. unfold no_nl in H.
  assert (Hin : In (last x SP) x).
  { rewrite (app_removelast_last SP Hne) at 2. apply in_or_app. right. now left. }
  apply (proj1 (forallb_forall _ _) H) in Hin. now apply negb_true_iff in Hin.
Qed.

Lemma drop_final_nl_snoc (s : str) : drop_final_nl (s ++ [NL]) = s.
Proof.
  unfold drop_final_nl. destruct (s ++ [NL]) eqn:E.
  - now destruct s.
  - rewrite <- E, last_last, removelast_last. reflexivity.
Qed.

Lemma drop_final_nl_keep (s : str) :
  Ascii.eqb (last s SP) NL = false -> drop_final_nl s = s.
Proof.
  intros E. unfold drop_final_nl. destruct s; [reflexivity|]. now rewrite E.
Qed.

Lemma drop_final_nl_join (L : list str) :
  Forall (fun l => no_break l = true) L ->
  drop_final_nl (join [NL] L) =
  join [NL] (match last L [] with [] => removelast L | _ => L end).
Proof.
  intros H. destruct L as [|l0 L0]; [reflexivity|].
  set (L := l0 :: L0) in *. assert (Hne : L <> []) by discriminate.
  clearbody L.
  pose proof (Forall_last _ L [] eq_refl H) as Hx. cbv beta in Hx.
  rewrite (join_nl L) by exact Hne.
  destruct (last L []) as [|c x] eqn:E.
  - rewrite app_nil_r.
    destruct (removelast L) as [|r0 R0] eqn:ER; [reflexivity|].
    rewrite <- ER. assert (HR : removelast L <> []) by (rewrite ER; discriminate).
    clear ER. rewrite (join_nl _ HR).
    rewrite (app_removelast_last [] HR) at 1.
    now rewrite nl_text_snoc, app_assoc, drop_final_nl_snoc.
  - rewrite drop_final_nl_keep.
    + rewrite <- E. symmetry. now apply join_nl.
    + rewrite last_app_nonempty by discriminate.
      apply last_no_nl; [discriminate | now apply no_break_no_nl].
Qed.

Lemma map_lstrip_stripped (text : str) (L : list str) :
  incl L (stripped_lines text) ->
  map (lstrip INDENT_CHARS) L = L.
Proof.
  intros H. rewrite <- (map_id L) at 2. apply map_ext_in. intros l Hl.
  apply H in Hl. unfold stripped_lines in Hl.
  apply in_map_iff in Hl as (x & <- & _). apply lstrip_idempotent.
Qed.

Lemma incl_removelast {A : Type} (l : list A) : incl (removelast l) l.
Proof.
  induction l as [|a l IH]; [easy|]. simpl. destruct l; [easy|].
  intros x [->|H]; [now left|]. right. now apply IH.
Qed.

(** C9, as the code has it: removing the leading indent characters of a
    line twice is the same as once, and applying the whole stage (split,
    strip, join) to its own output returns that output without its final
    newline, if it has one; so the stage is idempotent on the texts whose
    stripped form does not end with a newline. *)
Theorem strip_indent_twice (text : str) :
  strip_indent (strip_indent text) = drop_final_nl (strip_indent text) /\
  (Ascii.eqb (last (strip_indent text) SP) NL = false ->
   strip_indent (strip_indent text) = strip_indent text) /\
  (forall l, lstrip INDENT_CHARS (lstrip INDENT_CHARS l) =
             lstrip INDENT_CHARS l).
Proof.
  assert (H1 : strip_indent (strip_indent text) =
               drop_final_nl (strip_indent text)).
  { unfold strip_indent at 1 3. fold (stripped_lines text).
    pose proof (stripped_lines_no_break text) as H.
    rewrite drop_final_nl_join by exact H.
    unfold strip_indent. rewrite splitlines_join by exact H.
    f_equal. apply (map_lstrip_stripped text).
    destruct (last (stripped_lines text) []);
      [apply incl_removelast | apply incl_refl]. }
  split; [exact H1|]. split; [|intros l; apply lstrip_idempotent].
  intros E. rewrite H1. unfold drop_final_nl.
  destruct (strip_indent text); [reflexivity|]. now rewrite E.
Qed.

(** C9 as stated fails on the text [a], newline, newline (the selection
    [a], newline with the newline of line 231): the stage returns [a],
    newline, and returns [a] when applied to that. *)
Lemma strip_indent_idempotence_counterexample :
  strip_indent (text_of ["a"; ""]) = lit "a" ++ [NL] /\
  strip_indent (strip_indent (text_of ["a"; ""])) = lit "a".
Proof. split; reflexivity. Qed.

(** ** Which lines reach the output *)

Lemma paragraphs_of_nl_text (ls : list str) :
  Forall (fun l => no_break l = true) ls ->
  paragraphs_of (nl_text ls) = map nl_text (group_lines [] ls).
Proof.
  intros H. unfold paragraphs_of. rewrite findall_findall_at.
  rewrite <- (app_nil_r (nl_text ls)).
  apply (findall_at_paragraph_re [] eq_refl (S (length ls))); [lia|].
  eapply Forall_impl; [|exact H]. intros a. apply no_break_no_nl.
Qed.

Lemma flat_map_join_lines {B : Type} (f : str -> list B) (sep : str)
      (blocks : list (list str)) :
  f sep = [] ->
  flat_map f (join_lines sep blocks) = flat_map (flat_map f) blocks.
Proof.
  intros Hsep. induction blocks as [|b bs IH]; [reflexivity|].
  destruct bs as [|b' bs].
  - simpl. now rewrite app_nil_r.
  - change (join_lines sep (b :: b' :: bs))
      with (b ++ sep :: join_lines sep (b' :: bs)).
    rewrite flat_map_app. cbn [flat_map] in *. now rewrite Hsep, IH.
Qed.

Lemma skipn_indent (indent r : str) : skipn (length indent) (indent ++ r) = r.
Proof. now rewrite skipn_app, skipn_all, Nat.sub_diag. Qed.

Lemma paragraph_lines_tokens (indent : str) (iw w : Z) (p : str) :
  flat_map (fun l => tokens (skipn (length indent) l))
           (paragraph_lines indent iw w p) = tokens p.
Proof.
  unfold paragraph_lines.
  pose proof (layout_words_lines iw w (tokens p) (tokens_words p)) as H.
  rewrite <- (layout_words_concat iw w (tokens p)) at 2.
  induction H as [|l ls [_ Hl] _ IH]; [reflexivity|].
  cbn [map flat_map concat]. rewrite IH. f_equal.
  unfold render_line. rewrite skipn_indent. now apply tokens_render_words.
Qed.

(** The tokens of the output are those of the accepted lines. *)
Lemma out_tokens_reflow (t : str) (w tw : Z) :
  (1 <= tw)%Z ->
  out_tokens (extract_indent (t ++ [NL])) (reflow t w tw) =
  flat_map tokens
    (filter good_line (removelast (stripped_lines (t ++ [NL])))).
Proof.
  intros Htw. unfold out_tokens. rewrite splitlines_reflow by exact Htw.
  unfold out_lines. cbv zeta.
  rewrite flat_map_join_lines
    by (rewrite <- (app_nil_r (extract_indent _)) at 2; now rewrite skipn_indent).
  rewrite flat_map_concat_map, map_map.
  erewrite map_ext by (intros p; apply paragraph_lines_tokens).
  rewrite <- flat_map_concat_map, paragraphs_of_strip_indent.
  rewrite flat_map_concat_map, map_map.
  erewrite map_ext by (intros b; apply tokens_nl_text).
  pose proof (group_lines_concat
                (removelast (stripped_lines (t ++ [NL]))) []) as Hc.
  cbn [app] in Hc. rewrite <- Hc, <- flat_map_concat_map. clear.
  induction (group_lines [] _) as [|b bs IH]; [reflexivity|].
  cbn [flat_map concat]. now rewrite flat_map_app, IH.
Qed.

(** C10, as the code has it: when the input is not empty and does not end
    with a newline, its final line is part of no paragraph: the
    paragraphs are those of the lines before it, the output is built from
    them alone, and every token of the output (the indent prefix of each
    line left out) is a token of one of those earlier lines. *)
Theorem final_line_excluded (t : str) (w tw : Z) :
  (1 <= tw)%Z ->
  t <> [] ->
  last t SP <> NL ->
  let indent := extract_indent (t ++ [NL]) in
  let iw := indent_width_of indent tw in
  exists init final,
    splitlines t = init ++ [final] /\
    paragraphs_of (strip_indent (t ++ [NL])) =
    paragraphs_of (nl_text (map (lstrip INDENT_CHARS) init)) /\
    reflow t w tw =
    join (indent ++ [NL])
         (map (format_paragraph indent iw w)
              (paragraphs_of (nl_text (map (lstrip INDENT_CHARS) init)))) /\
    forall tok,
      In tok (out_tokens indent (reflow t w tw)) ->
      exists l, In l init /\ In tok (tokens (lstrip INDENT_CHARS l)).
Proof.
  intros Htw Hne Hlast indent iw.
  pose proof (splitlines_nonempty t Hne) as Hs.
  destruct (exists_last Hs) as (init & final & E).
  exists init, final. split; [exact E|].
  assert (Hlines : removelast (stripped_lines (t ++ [NL])) =
                   map (lstrip INDENT_CHARS) init).
  { unfold stripped_lines.
    rewrite (splitlines_add_nl (S (length t))) by (auto; lia).
    rewrite E, map_app. cbn [map]. apply removelast_snoc. }
  assert (Hp : paragraphs_of (strip_indent (t ++ [NL])) =
               paragraphs_of (nl_text (map (lstrip INDENT_CHARS) init))).
  { rewrite paragraphs_of_strip_indent, Hlines.
    rewrite paragraphs_of_nl_text; [reflexivity|].
    rewrite <- Hlines. apply Forall_removelast, stripped_lines_no_break. }
  split; [exact Hp|]. split.
  - unfold reflow. cbv zeta. fold indent iw. now rewrite Hp.
  - intros tok Htok. subst indent.
    rewrite out_tokens_reflow, Hlines in Htok by exact Htw.
    apply in_flat_map in Htok as (l' & Hl' & Htok).
    apply filter_In in Hl' as [Hl' _].
    apply in_map_iff in Hl' as (l & <- & Hl). now exists l.
Qed.

(** C10 as stated fails when a token of the final line also stands on an
    earlier line: the final line [to be] is dropped, yet its tokens are in
    the output. *)
Lemma final_line_tokens_counterexample :
  let t := lit "to be" ++ [NL] ++ lit "to be" in
  last t SP = "e"%char /\
  last (splitlines t) [] = lit "to be" /\
  tokens (last (splitlines t) []) = [lit "to"; lit "be"] /\
  reflow t 80 4 = lit "to be" ++ [NL] /\
  tokens (reflow t 80 4) = [lit "to"; lit "be"].
Proof. cbv zeta. repeat split; vm_compute; reflexivity. Qed.

Lemma splitlines_ends_nl (body : str) :
  splitlines ((body ++ [NL]) ++ [NL]) = splitlines (body ++ [NL]) ++ [[]].
Proof.
  rewrite <- app_assoc. cbn [app].
  now rewrite (splitlines_app_nl (S (length body))) by lia.
Qed.

Lemma flat_map_tokens_good (ls : list str) :
  Forall (fun l => l = [] \/ good_line l = true) ls ->
  flat_map tokens (filter good_line ls) = flat_map tokens ls.
Proof.
  induction 1 as [|l ls [->|Hl] _ IH]; [reflexivity| |].
  - simpl. exact IH.
  - simpl. rewrite Hl. simpl. now rewrite IH.
Qed.

(** C2, as the code has it: when the input ends with a newline and each
    of its lines, once its leading indent characters are removed, is
    empty or made of spaces, tabs and non-blank characters with a
    non-blank character last, the tokens of the output (the indent prefix
    of each line left out) are the tokens of those stripped lines, in the
    same order and so with the same multiplicities.  The indent characters
    that start a line are not kept. *)
Theorem stripped_tokens_preserved (body : str) (w tw : Z) :
  (1 <= tw)%Z ->
  let t := body ++ [NL] in
  Forall (fun l => l = [] \/ good_line l = true) (stripped_lines t) ->
  out_tokens (extract_indent (t ++ [NL])) (reflow t w tw) =
  flat_map tokens (stripped_lines t).
Proof.
  intros Htw t H. rewrite out_tokens_reflow by exact Htw.
  assert (E : removelast (stripped_lines (t ++ [NL])) = stripped_lines t).
  { unfold stripped_lines, t. rewrite splitlines_ends_nl, map_app.
    cbn [map]. apply removelast_snoc. }
  rewrite E. now apply flat_map_tokens_good.
Qed.

(** C2 as stated fails: the second line of the input [a], newline, [-b],
    newline loses its leading [-], so the token [-b] of the input is not
    a token of the output [a b]. *)
Lemma word_preservation_counterexample :
  let t := text_of ["a"; "-b"] in
  reflow t 80 4 = lit "a b" ++ [NL] /\
  extract_indent (t ++ [NL]) = [] /\
  occurrences (lit "-b") (tokens t) = 1 /\
  occurrences (lit "-b")
              (out_tokens (extract_indent (t ++ [NL])) (reflow t 80 4)) = 0.
Proof. cbv zeta. repeat split; vm_compute; reflexivity. Qed.

(** ** The separator between paragraphs (lines 283-285) *)

Lemma take_while_upto_nl (p : ascii -> bool) (a x y : str) :
  p NL = false ->
  take_while p (a ++ NL :: x) = take_while p (a ++ NL :: y).
Proof.
  intros H. induction a as [|c a IH]; simpl; [now rewrite H|].
  now rewrite IH.
Qed.

Lemma lstrip_all (chars s : str) :
  forallb (fun c => in_chars c chars) s = true -> lstrip chars s = [].
Proof.
  induction s as [|c s IH]; [reflexivity|]. simpl. intros H.
  apply andb_prop in H as [Hc Hs]. rewrite Hc. now apply IH.
Qed.

Lemma map_lstrip_blank (seps : list str) :
  Forall (fun s => forallb is_indent_char s = true) seps ->
  map (lstrip INDENT_CHARS) seps = repeat [] (length seps).
Proof.
  induction 1 as [|s seps Hs _ IH]; [reflexivity|].
  simpl. rewrite IH. f_equal. now apply lstrip_all.
Qed.

Lemma group_lines_blank_twice (R : list str) :
  forall A cur,
    group_lines cur (A ++ [] :: [] :: R) = group_lines cur (A ++ [] :: R).
Proof.
  induction A as [|l A IH]; intros cur.
  - simpl. now destruct cur.
  - simpl. destruct (good_line l); [apply IH|].
    destruct cur; now rewrite IH.
Qed.

Lemma group_lines_blanks (n : nat) (A R : list str) (cur : list str) :
  group_lines cur (A ++ repeat [] (S n) ++ R) = group_lines cur (A ++ [] :: R).
Proof.
  induction n as [|n IH]; [reflexivity|].
  change (repeat [] (S (S n)) ++ R) with ([] :: [] :: repeat [] n ++ R).
  rewrite group_lines_blank_twice. exact IH.
Qed.

Lemma removelast_app_nonempty {A : Type} (l1 l2 : list A) :
  l2 <> [] -> removelast (l1 ++ l2) = l1 ++ removelast l2.
Proof. intros H. now apply removelast_app. Qed.

Lemma stripped_lines_app_nl (a x : str) :
  stripped_lines (a ++ NL :: x) =
  stripped_lines (a ++ [NL]) ++ stripped_lines x.
Proof.
  unfold stripped_lines.
  now rewrite (splitlines_app_nl (S (length a))), map_app by lia.
Qed.

Lemma stripped_lines_add_nl_nonempty (b : str) :
  stripped_lines (b ++ [NL]) <> [].
Proof.
  unfold stripped_lines. intros E. apply map_eq_nil in E.
  apply (splitlines_nonempty (b ++ [NL])); [now destruct b | exact E].
Qed.

(** Any number of blank lines between two parts of the input gives the
    paragraphs that one empty line gives. *)
Lemma paragraphs_blank_lines (a b : str) (seps : list str) :
  seps <> [] ->
  Forall (fun s => forallb is_indent_char s = true) seps ->
  paragraphs_of (strip_indent ((a ++ NL :: nl_text seps ++ b) ++ [NL])) =
  paragraphs_of (strip_indent ((a ++ NL :: NL :: b) ++ [NL])).
Proof.
  intros Hne Hseps. rewrite !paragraphs_of_strip_indent. f_equal.
  pose proof (stripped_lines_add_nl_nonempty b) as HB.
  assert (E1 : stripped_lines ((a ++ NL :: nl_text seps ++ b) ++ [NL]) =
               stripped_lines (a ++ [NL]) ++
               repeat [] (length seps) ++ stripped_lines (b ++ [NL])).
  { rewrite <- app_assoc. cbn [app]. rewrite <- app_assoc.
    rewrite stripped_lines_app_nl. f_equal.
    unfold stripped_lines.
    rewrite splitlines_nl_text, map_app.
    - now rewrite map_lstrip_blank.
    - eapply Forall_impl; [|exact Hseps]. intros s. apply indent_no_break. }
  assert (E2 : stripped_lines ((a ++ NL :: NL :: b) ++ [NL]) =
               stripped_lines (a ++ [NL]) ++
               [] :: stripped_lines (b ++ [NL])).
  { rewrite <- app_assoc. cbn [app].
    rewrite stripped_lines_app_nl. reflexivity. }
  rewrite E1, E2.
  rewrite (removelast_app_nonempty (stripped_lines (a ++ [NL]))
             (repeat [] (length seps) ++ stripped_lines (b ++ [NL])))
    by (intros E; apply app_eq_nil in E as [_ E]; contradiction).
  rewrite (removelast_app_nonempty _ (stripped_lines (b ++ [NL])))
    by exact HB.
  rewrite (removelast_app_nonempty (stripped_lines (a ++ [NL]))
             ([] :: stripped_lines (b ++ [NL])))
    by discriminate.
  change (removelast ([] :: stripped_lines (b ++ [NL])))
    with (removelast ([[]] ++ stripped_lines (b ++ [NL]))).
  rewrite (removelast_app_nonempty _ (stripped_lines (b ++ [NL])))
    by exact HB.
  destruct seps as [|s seps]; [contradiction|].
  apply group_lines_blanks.
Qed.

Lemma paragraph_lines_no_break (indent : str) (iw w : Z) (p : str) :
  no_break indent = true ->
  Forall (fun l => no_break l = true) (paragraph_lines indent iw w p).
Proof.
  intros Hi. unfold paragraph_lines. apply Forall_map.
  eapply Forall_impl;
    [|apply (layout_words_lines iw w (tokens p) (tokens_words p))].
  intros ws [_ Hws]. unfold render_line.
  now rewrite no_break_app, Hi, render_words_no_break.
Qed.


(** ** Re-wrapping the output again *)

Lemma render_words_line_chars (ws : list str) :
  Forall (fun w => is_word w = true) ws ->
  forallb line_char (render_words ws) = true.
Proof.
  induction 1 as [|w ws Hw Hws IH]; [reflexivity|].
  assert (Hlw : forallb line_char w = true).
  { apply is_word_non_space in Hw. apply forallb_forall. intros c Hc.
    unfold line_char. rewrite (proj1 (forallb_forall _ _) Hw c Hc).
    apply orb_true_r. }
  destruct ws as [|w' ws]; [exact Hlw|].
  change (render_words (w :: w' :: ws))
    with (w ++ space_for w w' ++ render_words (w' :: ws)).
  rewrite !forallb_app, Hlw, IH.
  now destruct (space_for_cases w w') as [-> | ->].
Qed.

Lemma render_words_good (ws : list str) :
  ws <> [] -> Forall (fun w => is_word w = true) ws ->
  good_line (render_words ws) = true.
Proof.
  intros Hne H. unfold good_line.
  now rewrite render_words_line_chars, last_render_words.
Qed.

Lemma group_lines_good_block (b rest : list str) :
  Forall (fun l => good_line l = true) b ->
  forall cur, group_lines cur (b ++ rest) = group_lines (cur ++ b) rest.
Proof.
  induction 1 as [|l b Hl _ IH]; intros cur.
  - now rewrite app_nil_r.
  - cbn [app group_lines]. rewrite Hl, IH, <- app_assoc. reflexivity.
Qed.

(** Blocks of accepted lines with an empty line between them are found
    again as the paragraphs. *)
Lemma group_lines_join_lines (blocks : list (list str)) :
  Forall (fun b => b <> [] /\ Forall (fun l => good_line l = true) b) blocks ->
  group_lines [] (join_lines [] blocks) = blocks.
Proof.
  induction 1 as [|b bs [Hne Hb] Hbs IH]; [reflexivity|].
  destruct bs as [|b' bs].
  - cbn [join_lines]. rewrite <- (app_nil_r b) at 1.
    rewrite group_lines_good_block by exact Hb.
    simpl. now destruct b.
  - change (join_lines [] (b :: b' :: bs))
      with (b ++ [] :: join_lines [] (b' :: bs)).
    rewrite group_lines_good_block by exact Hb.
    cbn [app group_lines]. change (good_line []) with false. cbv iota.
    rewrite IH. now destruct b.
Qed.

Lemma map_join_lines (f : str -> str) (sep : str) (blocks : list (list str)) :
  map f (join_lines sep blocks) = join_lines (f sep) (map (map f) blocks).
Proof.
  induction blocks as [|b bs IH]; [reflexivity|].
  destruct bs as [|b' bs]; [reflexivity|].
  change (join_lines sep (b :: b' :: bs))
    with (b ++ sep :: join_lines sep (b' :: bs)).
  rewrite map_app. cbn [map] in *. now rewrite IH.
Qed.

Lemma lstrip_indent_exact (indent l : str) :
  forallb is_indent_char indent = true ->
  indent_exact indent (indent ++ l) = true ->
  lstrip INDENT_CHARS (indent ++ l) = l.
Proof.
  intros Hi H. unfold indent_exact in H. rewrite skipn_indent in H.
  rewrite lstrip_drop_while, drop_while_app by exact Hi.
  destruct l as [|c l]; [reflexivity|]. cbn [drop_while].
  apply negb_true_iff in H.
  change (in_chars c INDENT_CHARS) with (is_indent_char c). now rewrite H.
Qed.

Lemma extract_indent_exact (indent l rest : str) :
  forallb is_indent_char indent = true ->
  l <> [] ->
  indent_exact indent (indent ++ l) = true ->
  extract_indent ((indent ++ l) ++ NL :: rest) = indent.
Proof.
  intros Hi Hne H. unfold indent_exact in H. rewrite skipn_indent in H.
  rewrite extract_indent_take_while, <- app_assoc.
  rewrite take_while_app by exact Hi.
  destruct l as [|c l]; [contradiction|]. cbn [app take_while].
  apply negb_true_iff in H. rewrite H. apply app_nil_r.
Qed.

Section SecondPass.

Variable t : str.
Variables w tw : Z.
Hypothesis tab_width_valid : (1 <= tw)%Z.

Local Abbreviation indent := (extract_indent (t ++ [NL])).
Local Abbreviation iw := (indent_width_of (extract_indent (t ++ [NL])) tw).
Local Abbreviation paragraphs := (paragraphs_of (strip_indent (t ++ [NL]))).

Hypothesis indent_kept :
  Forall (fun l => indent_exact indent l = true) (splitlines (reflow t w tw)).

(** The lines of the paragraphs of the first pass, without the indent. *)
Local Abbreviation bare_blocks :=
  (map (fun p => map render_words (layout_words iw w (tokens p))) paragraphs).

Lemma bare_blocks_good :
  Forall (fun b => b <> [] /\ Forall (fun l => good_line l = true) b)
         bare_blocks.
Proof.
  apply Forall_map.
  eapply Forall_impl; [|apply (paragraphs_have_tokens (t ++ [NL]))].
  intros p Hp.
  pose proof (layout_words_lines iw w (tokens p) (tokens_words p)) as H.
  split.
  - destruct (tokens p) as [|x ws] eqn:E; [contradiction|].
    cbn [layout_words]. intros E'. apply map_eq_nil in E'.
    pose proof (f_equal (@concat _) E') as C.
    rewrite layout_concat in C. discriminate.
  - apply Forall_map. eapply Forall_impl; [|exact H].
    intros ws [Hne Hws]. now apply render_words_good.
Qed.

Lemma stripped_out_lines :
  map (lstrip INDENT_CHARS) (out_lines t w tw) = join_lines [] bare_blocks.
Proof.
  pose proof indent_kept as H.
  rewrite splitlines_reflow in H by exact tab_width_valid.
  pose proof (extract_indent_chars (t ++ [NL])) as Hi.
  unfold out_lines in *. cbv zeta in *.
  rewrite map_join_lines, lstrip_all by exact Hi.
  f_equal. rewrite !map_map. apply map_ext_in. intros p Hp.
  unfold paragraph_lines. rewrite map_map. apply map_ext_in. intros ws Hws.
  apply lstrip_indent_exact; [exact Hi|].
  apply (proj1 (Forall_forall _ _) H).
  apply (join_lines_in _ _ (paragraph_lines indent iw w p)).
  - apply in_map_iff. now exists p.
  - unfold paragraph_lines. apply in_map_iff. now exists ws.
Qed.

Lemma second_pass_paragraphs :
  paragraphs_of (strip_indent (reflow t w tw ++ [NL])) =
  map nl_text bare_blocks.
Proof.
  rewrite paragraphs_of_strip_indent. f_equal.
  unfold stripped_lines.
  rewrite reflow_out_lines by exact tab_width_valid.
  rewrite splitlines_nl_text by apply out_lines_no_break.
  change (splitlines [NL]) with [@nil ascii].
  rewrite map_app. cbn [map lstrip].
  rewrite removelast_snoc, stripped_out_lines.
  apply group_lines_join_lines, bare_blocks_good.
Qed.

Lemma second_pass_tokens (p : str) :
  tokens (nl_text (map render_words (layout_words iw w (tokens p)))) =
  tokens p.
Proof.
  rewrite tokens_nl_text.
  pose proof (layout_words_lines iw w (tokens p) (tokens_words p)) as H.
  rewrite <- (layout_words_concat iw w (tokens p)) at 2.
  induction H as [|l ls [_ Hl] _ IH]; [reflexivity|].
  cbn [map flat_map concat]. rewrite IH. f_equal.
  now apply tokens_render_words.
Qed.

Lemma second_pass_indent :
  paragraphs <> [] -> extract_indent (reflow t w tw ++ [NL]) = indent.
Proof.
  intros Hne. pose proof indent_kept as H.
  rewrite splitlines_reflow in H by exact tab_width_valid.
  rewrite reflow_out_lines by exact tab_width_valid.
  pose proof (extract_indent_chars (t ++ [NL])) as Hi.
  pose proof (paragraphs_have_tokens (t ++ [NL])) as Ht.
  unfold out_lines in *. cbv zeta in *.
  destruct paragraphs as [|p ps]; [contradiction|].
  inversion Ht as [|? ? Hp _]; subst.
  pose proof (layout_words_lines iw w (tokens p) (tokens_words p)) as Hl.
  assert (Hfirst : exists ws rest,
             join_lines indent
               (map (paragraph_lines indent iw w) (p :: ps)) =
             render_line indent ws :: rest /\
             ws <> [] /\ Forall (fun x => is_word x = true) ws).
  { cbn [map]. unfold paragraph_lines at 1.
    destruct (layout_words iw w (tokens p)) as [|ws lss] eqn:E.
    - exfalso. pose proof (f_equal (@concat _) E) as C.
      rewrite layout_words_concat in C. simpl in C. contradiction.
    - inversion Hl as [|? ? [Hws1 Hws2] _]; subst.
      exists ws. cbn [map].
      destruct (map (paragraph_lines indent iw w) ps);
        cbn [join_lines app]; eauto. }
  destruct Hfirst as (ws & rest & E & Hws1 & Hws2).
  rewrite E in *. inversion H as [|? ? Hex _]; subst.
  rewrite nl_text_cons, <- app_assoc. cbn [app]. unfold render_line in *.
  apply extract_indent_exact; [exact Hi | | exact Hex].
  now apply render_words_nonempty.
Qed.

End SecondPass.

(** C4, as the code has it: re-wrapping is idempotent on every text
    (within the width bound or not) for which no line of the re-wrapped
    text has an indent character right after the indent, that is, no
    token that starts with an indent character was placed first on a
    line; such a token would lose its leading indent characters in a
    second pass. *)
Theorem reflow_idempotent (t : str) (w tw : Z) :
  (1 <= tw)%Z ->
  Forall (fun l => indent_exact (extract_indent (t ++ [NL])) l = true)
         (splitlines (reflow t w tw)) ->
  reflow (reflow t w tw) w tw = reflow t w tw.
Proof.
  intros Htw Hkept.
  destruct (paragraphs_of (strip_indent (t ++ [NL]))) as [|p0 ps0] eqn:EP.
  - assert (E : reflow t w tw = [])
      by (unfold reflow; cbv zeta; now rewrite EP).
    rewrite E. reflexivity.
  - assert (Hne : paragraphs_of (strip_indent (t ++ [NL])) <> [])
      by (rewrite EP; discriminate).
    unfold reflow at 1. cbv zeta.
    rewrite (second_pass_paragraphs t w tw Htw Hkept).
    rewrite (second_pass_indent t w tw Htw Hkept Hne).
    unfold reflow. cbv zeta. f_equal.
    rewrite !map_map. apply map_ext. intros p.
    unfold format_paragraph. rewrite !findall_token_re.
    now rewrite second_pass_tokens.
Qed.

(** C4 as stated fails: the lines [aa] and [b - c] are within a width of
    5, the first pass puts the token [-] first on the second line, and
    the second pass takes it for indentation and drops it. *)
Lemma idempotence_counterexample :
  let t := text_of ["aa"; "b - c"] in
  forallb (fun l => (col_width 4 l <=? 5)%Z) (splitlines t) = true /\
  reflow t 5 4 = text_of ["aa b"; "- c"] /\
  reflow (reflow t 5 4) 5 4 = text_of ["aa b"; "c"].
Proof. cbv zeta. repeat split; vm_compute; reflexivity. Qed.

(** ** The theorems at concrete inputs *)

Lemma output_line_width_witness :
  let t := text_of ["    abcdefgh"] in
  let l := lit "    abcdefgh" in
  (1 <= 4)%Z /\
  In l (splitlines (reflow t 10 4)) /\
  ((col_width 4 l <= 10)%Z \/
   l = extract_indent (t ++ [NL]) \/
   exists tok, is_word tok = true /\ l = extract_indent (t ++ [NL]) ++ tok /\
               (10 < indent_width_of (extract_indent (t ++ [NL])) 4 + len tok)%Z).
Proof.
  cbv zeta.
  assert (H1 : (1 <= 4)%Z) by lia.
  assert (H2 : In (lit "    abcdefgh")
                  (splitlines (reflow (text_of ["    abcdefgh"]) 10 4)))
    by (vm_compute; now left).
  split; [exact H1|]. split; [exact H2|].
  exact (output_line_width _ _ _ _ H1 H2).
Defined.

Lemma stripped_tokens_preserved_witness :
  let body := lit "# one two" ++ [NL] ++ lit "# three" in
  let t := body ++ [NL] in
  (1 <= 4)%Z /\
  Forall (fun l => l = [] \/ good_line l = true) (stripped_lines t) /\
  out_tokens (extract_indent (t ++ [NL])) (reflow t 15 4) =
  flat_map tokens (stripped_lines t).
Proof.
  cbv zeta.
  assert (H1 : (1 <= 4)%Z) by lia.
  assert (H2 : Forall (fun l => l = [] \/ good_line l = true)
                      (stripped_lines
                         ((lit "# one two" ++ [NL] ++ lit "# three") ++ [NL])))
    by (vm_compute; repeat constructor).
  split; [exact H1|]. split; [exact H2|].
  exact (stripped_tokens_preserved _ 15 4 H1 H2).
Defined.

Lemma appended_token_spacing_witness :
  let paragraph := lit "Hello world. This is" in
  let st := fold_left (add_word [] 0 20) [lit "Hello"; lit "world."]
                      (FpState [] 0) in
  (0 <= 0)%Z /\
  findall token_re paragraph =
  (lit "Hello" :: [lit "world."]) ++ lit "This" :: [lit "is"] /\
  (offset st + len [SP; SP] + len (lit "This") <= 20)%Z /\
  new_paragraph (add_word [] 0 20 st (lit "This")) =
  lit "Hello world.  This".
Proof.
  cbv zeta.
  assert (H1 : (0 <= 0)%Z) by lia.
  assert (H2 : findall token_re (lit "Hello world. This is") =
               (lit "Hello" :: [lit "world."]) ++ lit "This" :: [lit "is"])
    by (vm_compute; reflexivity).
  assert (H3 : (offset (fold_left (add_word [] 0 20)
                                  [lit "Hello"; lit "world."] (FpState [] 0))
                + len [SP; SP] + len (lit "This") <= 20)%Z)
    by (vm_compute; discriminate).
  split; [exact H1|]. split; [exact H2|]. split; [exact H3|].
  exact (proj1 (appended_token_spacing [] 0 20 _ _ _ _ _ H1 H2 H3)).
Defined.

Lemma reflow_idempotent_witness :
  let t := text_of ["# one two three four five six seven"] in
  (1 <= 4)%Z /\
  Forall (fun l => indent_exact (extract_indent (t ++ [NL])) l = true)
         (splitlines (reflow t 15 4)) /\
  reflow (reflow t 15 4) 15 4 = reflow t 15 4.
Proof.
  cbv zeta.
  assert (H1 : (1 <= 4)%Z) by lia.
  assert (H2 : Forall
                 (fun l => indent_exact
                             (extract_indent
                                (text_of ["# one two three four five six seven"]
                                 ++ [NL])) l = true)
                 (splitlines
                    (reflow (text_of ["# one two three four five six seven"])
                            15 4)))
    by (vm_compute; repeat constructor).
  split; [exact H1|]. split; [exact H2|].
  exact (reflow_idempotent _ 15 4 H1 H2).
Defined.

Lemma overlong_token_alone_witness :
  let t := text_of ["ab abcdefgh cd"] in
  let p := text_of ["ab abcdefgh cd"] in
  (1 <= 4)%Z /\
  In p (paragraphs_of (strip_indent (t ++ [NL]))) /\
  findall token_re p = [lit "ab"] ++ lit "abcdefgh" :: [lit "cd"] /\
  (5 < len (lit "abcdefgh"))%Z /\
  In (extract_indent (t ++ [NL]) ++ lit "abcdefgh")
     (splitlines (reflow t 5 4)).
Proof.
  cbv zeta.
  assert (H1 : (1 <= 4)%Z) by lia.
  assert (H2 : In (text_of ["ab abcdefgh cd"])
                  (paragraphs_of
                     (strip_indent (text_of ["ab abcdefgh cd"] ++ [NL]))))
    by (vm_compute; now left).
  assert (H3 : findall token_re (text_of ["ab abcdefgh cd"]) =
               [lit "ab"] ++ lit "abcdefgh" :: [lit "cd"])
    by (vm_compute; reflexivity).
  assert (H4 : (5 < len (lit "abcdefgh"))%Z) by (vm_compute; reflexivity).
  split; [exact H1|]. split; [exact H2|]. split; [exact H3|].
  split; [exact H4|].
  exact (proj2 (overlong_token_alone _ 5 4 _ _ _ _ H1 H2 H3 H4)).
Defined.

Lemma final_line_excluded_witness :
  let t := lit "one" ++ [NL] ++ lit "two" in
  let indent := extract_indent (t ++ [NL]) in
  let iw := indent_width_of indent 4 in
  (1 <= 4)%Z /\
  t <> [] /\
  last t SP <> NL /\
  exists init final,
    splitlines t = init ++ [final] /\
    paragraphs_of (strip_indent (t ++ [NL])) =
    paragraphs_of (nl_text (map (lstrip INDENT_CHARS) init)) /\
    reflow t 80 4 =
    join (indent ++ [NL])
         (map (format_paragraph indent iw 80)
              (paragraphs_of (nl_text (map (lstrip INDENT_CHARS) init)))) /\
    forall tok,
      In tok (out_tokens indent (reflow t 80 4)) ->
      exists l, In l init /\ In tok (tokens (lstrip INDENT_CHARS l)).
Proof.
  cbv zeta.
  assert (H1 : (1 <= 4)%Z) by lia.
  assert (H2 : lit "one" ++ [NL] ++ lit "two" <> []) by discriminate.
  assert (H3 : last (lit "one" ++ [NL] ++ lit "two") SP <> NL)
    by (vm_compute; discriminate).
  split; [exact H1|]. split; [exact H2|]. split; [exact H3|].
  exact (final_line_excluded _ 80 4 H1 H2 H3).
Defined.

(** * Further properties of the text functions *)

(** ** When the replacement text is empty *)

Lemma splitlines_add_nl_cases (t : str) :
  splitlines (t ++ [NL]) = splitlines t \/
  splitlines (t ++ [NL]) = splitlines t ++ [[]].
Proof.
  destruct t as [|c t]; [now right|].
  set (s := c :: t). assert (Hne : s <> []) by discriminate. clearbody s.
  destruct (Ascii.eqb (last s SP) NL) eqn:E.
  - right. apply Ascii.eqb_eq in E.
    rewrite (app_removelast_last SP Hne) at 1 2. rewrite E.
    apply splitlines_ends_nl.
  - left. apply (splitlines_add_nl (S (length s))); [lia | exact Hne|].
    intros E'. rewrite E' in E. discriminate.
Qed.

Lemma group_lines_none (ls : list str) :
  filter good_line ls = [] -> group_lines [] ls = [].
Proof.
  intros H. pose proof (group_lines_concat ls []) as C.
  pose proof (group_lines_blocks ls [] (Forall_nil _)) as B.
  cbn [app] in C. rewrite H in C.
  destruct (group_lines [] ls) as [|b bs]; [reflexivity|].
  inversion B as [|? ? [Hb _] _]; subst.
  simpl in C. apply app_eq_nil in C as [C _]. contradiction.
Qed.

Lemma format_paragraph_ends_nl (indent : str) (iw w : Z) (p : str) :
  exists body, format_paragraph indent iw w p = body ++ [NL].
Proof. unfold format_paragraph, format_words. eauto. Qed.

Lemma join_nonempty (sep p : str) (ps : list str) :
  p <> [] -> join sep (p :: ps) <> [].
Proof.
  intros Hp. destruct ps as [|q ps]; [exact Hp|].
  change (join sep (p :: q :: ps)) with (p ++ sep ++ join sep (q :: ps)).
  intros E. apply app_eq_nil in E as [E _]. contradiction.
Qed.

Lemma join_last_nl (sep : str) (ps : list str) :
  ps <> [] ->
  Forall (fun p => exists body, p = body ++ [NL]) ps ->
  last (join sep ps) SP = NL.
Proof.
  intros Hne H. induction H as [|p ps [body ->] Hps IH]; [contradiction|].
  destruct ps as [|q ps].
  - cbn [join]. apply last_last.
  - change (join sep ((body ++ [NL]) :: q :: ps))
      with ((body ++ [NL]) ++ sep ++ join sep (q :: ps)).
    rewrite !app_assoc. rewrite last_app_nonempty.
    + apply IH. discriminate.
    + inversion Hps as [|? ? [b ->] _]; subst. apply join_nonempty.
      now destruct b.
Qed.

(** X1: the replacement text is empty exactly when no paragraph is found
    in the stripped text, and otherwise it ends with a newline. *)
Theorem reflow_empty_or_ends_with_newline (t : str) (w tw : Z) :
  (reflow t w tw = [] <-> paragraphs_of (strip_indent (t ++ [NL])) = []) /\
  (reflow t w tw = [] \/ last (reflow t w tw) SP = NL).
Proof.
  unfold reflow. cbv zeta.
  set (indent := extract_indent (t ++ [NL])).
  set (iw := indent_width_of indent tw).
  destruct (paragraphs_of (strip_indent (t ++ [NL]))) as [|p ps] eqn:EP.
  - split; [split; reflexivity | now left].
  - assert (Hne : join (indent ++ [NL])
                       (map (format_paragraph indent iw w) (p :: ps)) <> []).
    { cbn [map]. apply join_nonempty.
      destruct (format_paragraph_ends_nl indent iw w p) as [b ->].
      now destruct b. }
    split; [split; [intros E; contradiction | discriminate]|].
    right. apply join_last_nl; [discriminate|].
    apply Forall_map, Forall_forall. intros q _.
    apply format_paragraph_ends_nl.
Qed.

Lemma reflow_no_good_line (t : str) (w tw : Z) :
  filter good_line (removelast (stripped_lines (t ++ [NL]))) = [] ->
  reflow t w tw = [].
Proof.
  intros H. unfold reflow. cbv zeta.
  now rewrite paragraphs_of_strip_indent, group_lines_none.
Qed.

Lemma filter_good_blank (ls : list str) :
  Forall (fun l => l = []) ls -> filter good_line ls = [].
Proof. induction 1 as [|l ls -> _ IH]; [reflexivity | exact IH]. Qed.

(** X2: a selection all of whose lines are blank (empty, or made of
    indent characters only) is replaced by the empty text. *)
Theorem blank_selection_gives_empty_text (t : str) (w tw : Z) :
  Forall (fun l => forallb is_indent_char l = true) (splitlines t) ->
  reflow t w tw = [].
Proof.
  intros H. apply reflow_no_good_line, filter_good_blank.
  apply Forall_removelast. unfold stripped_lines. apply Forall_map.
  assert (H' : Forall (fun l => forallb is_indent_char l = true)
                      (splitlines (t ++ [NL]))).
  { destruct (splitlines_add_nl_cases t) as [-> | ->]; [exact H|].
    apply Forall_app. split; [exact H | now repeat constructor]. }
  eapply Forall_impl; [|exact H']. intros l Hl. now apply lstrip_all.
Qed.

(** X3: a selection that holds no line terminator (the last line of a
    buffer that does not end with a newline) is replaced by the empty
    text: the newline appended at line 231 is lost again at lines 240-241
    and the line matches no paragraph. *)
Theorem unterminated_line_gives_empty_text (t : str) (w tw : Z) :
  no_break t = true -> reflow t w tw = [].
Proof.
  intros H. apply reflow_no_good_line. unfold stripped_lines.
  rewrite <- (app_nil_r (t ++ [NL])), <- app_assoc. cbn [app].
  rewrite splitlines_line by exact H. reflexivity.
Qed.

Lemma blank_selection_gives_empty_text_witness :
  Forall (fun l => forallb is_indent_char l = true)
         (splitlines (text_of ["# "; ""; "  --"])) /\
  reflow (text_of ["# "; ""; "  --"]) 80 4 = [].
Proof.
  assert (H : Forall (fun l => forallb is_indent_char l = true)
                     (splitlines (text_of ["# "; ""; "  --"])))
    by (vm_compute; repeat constructor).
  split; [exact H|]. exact (blank_selection_gives_empty_text _ 80 4 H).
Defined.

Lemma unterminated_line_gives_empty_text_witness :
  no_break (lit "one two three") = true /\
  reflow (lit "one two three") 80 4 = [].
Proof.
  assert (H : no_break (lit "one two three") = true) by reflexivity.
  split; [exact H|]. exact (unterminated_line_gives_empty_text _ 80 4 H).
Defined.

(** ** The greedy filling of lines *)

Lemma consecutive_split {A : Type} (R : A -> A -> Prop) (pre : list A)
      (a b : A) (post : list A) :
  consecutive R (pre ++ a :: b :: post) -> R a b.
Proof.
  induction pre as [|x pre IH]; [now intros [H _]|].
  destruct pre as [|y pre].
  - cbn [app consecutive]. intros [_ H]. now apply IH.
  - change ((x :: y :: pre) ++ a :: b :: post)
      with (x :: (y :: pre) ++ a :: b :: post).
    intros H. apply IH. simpl in H |- *. now destruct H as [_ H].
Qed.

Section Greedy.

Variable indent : str.
Variable indent_width : Z.
Variable max_line_length : Z.
Hypothesis indent_width_nonneg : (0 <= indent_width)%Z.

Local Abbreviation lay := (layout indent_width max_line_length).
Local Abbreviation lay_words := (layout_words indent_width max_line_length).
Local Abbreviation fit := (fits indent_width max_line_length).
Local Abbreviation lwidth := (line_width indent_width).

Lemma layout_head (ws : list str) :
  forall cur, exists more rest, lay cur ws = (cur ++ more) :: rest.
Proof.
  induction ws as [|w ws IH]; intros cur; cbn [layout].
  - exists [], []. now rewrite app_nil_r.
  - destruct (fit cur w).
    + destruct (IH (cur ++ [w])) as (more & rest & ->).
      exists (w :: more), rest. now rewrite <- app_assoc.
    + exists [], (lay [w] ws). now rewrite app_nil_r.
Qed.

(** A line is closed only when the next word does not fit on it. *)
Lemma layout_breaks_forced (ws : list str) :
  forall cur,
    consecutive (fun la lb => exists tok more,
                     lb = tok :: more /\ fit la tok = false)
                (lay cur ws).
Proof.
  induction ws as [|w ws IH]; intros cur; cbn [layout]; [exact I|].
  destruct (fit cur w) eqn:Hf; [apply IH|].
  pose proof (IH [w]) as H.
  destruct (layout_head ws [w]) as (more & rest & E).
  rewrite E in *. cbn [consecutive]. split; [|exact H].
  now exists w, more.
Qed.

Lemma line_width_mono (ws : list str) :
  Forall (fun w => is_word w = true) ws ->
  forall cur,
    cur <> [] -> Forall (fun w => is_word w = true) cur ->
    (lwidth cur <= lwidth (cur ++ ws))%Z.
Proof.
  induction 1 as [|w ws Hw Hws IH]; intros cur Hne Hcur.
  - rewrite app_nil_r. lia.
  - change (cur ++ w :: ws) with (cur ++ [w] ++ ws). rewrite app_assoc.
    assert (H1 : (lwidth cur <= lwidth (cur ++ [w]))%Z).
    { rewrite line_width_snoc by assumption.
      pose proof (len_nonneg (space_for (render_words cur) w)).
      pose proof (len_nonneg w). lia. }
    assert (H2 : (lwidth (cur ++ [w]) <= lwidth ((cur ++ [w]) ++ ws))%Z).
    { apply IH; [now destruct cur|].
      apply Forall_app. split; [exact Hcur | now constructor]. }
    lia.
Qed.

Lemma layout_all_fit (ws : list str) :
  Forall (fun w => is_word w = true) ws ->
  forall cur,
    cur <> [] -> Forall (fun w => is_word w = true) cur ->
    (lwidth (cur ++ ws) <= max_line_length)%Z ->
    lay cur ws = [cur ++ ws].
Proof.
  induction 1 as [|w ws Hw Hws IH]; intros cur Hne Hcur Hfit.
  - now rewrite app_nil_r.
  - cbn [layout].
    change (cur ++ w :: ws) with (cur ++ [w] ++ ws) in *.
    rewrite app_assoc in *.
    assert (Hcw : Forall (fun w => is_word w = true) (cur ++ [w])).
    { apply Forall_app. split; [exact Hcur | now constructor]. }
    assert (Hf : fit cur w = true).
    { unfold fits. apply Z.leb_le. rewrite <- line_width_snoc by assumption.
      pose proof (line_width_mono ws Hws (cur ++ [w])
                    ltac:(now destruct cur) Hcw). lia. }
    rewrite Hf. apply IH; [now destruct cur | exact Hcw | exact Hfit].
Qed.

Lemma narrow_never_fits (cur : list str) (w : str) :
  (max_line_length < indent_width + 3)%Z ->
  cur <> [] -> Forall (fun w => is_word w = true) cur ->
  is_word w = true ->
  fit cur w = false.
Proof.
  intros Hn Hne Hcur Hw. unfold fits. apply Z.leb_gt.
  pose proof (len_pos _ (render_words_nonempty cur Hne Hcur)).
  pose proof (len_pos w (is_word_nonempty w Hw)).
  assert (1 <= len (space_for (render_words cur) w))%Z
    by (now destruct (space_for_cases (render_words cur) w) as [-> | ->]).
  unfold line_width in *. lia.
Qed.

Lemma layout_narrow (ws : list str) :
  (max_line_length < indent_width + 3)%Z ->
  Forall (fun w => is_word w = true) ws ->
  forall x, is_word x = true ->
            lay [x] ws = map (fun tok => [tok]) (x :: ws).
Proof.
  intros Hn. induction 1 as [|w ws Hw Hws IH]; intros x Hx; [reflexivity|].
  cbn [layout]. rewrite narrow_never_fits; auto; [|discriminate].
  cbn [map]. f_equal. now apply IH.
Qed.

End Greedy.

Lemma map_split_two {A B : Type} (f : A -> B) (l : list A) (pre : list B)
      (a b : B) (post : list B) :
  map f l = pre ++ a :: b :: post ->
  exists lpre la lb lpost,
    l = lpre ++ la :: lb :: lpost /\ a = f la /\ b = f lb.
Proof.
  intros H. apply map_eq_app in H as (lpre & l2 & -> & _ & H).
  apply map_eq_cons in H as (la & l3 & -> & <- & H).
  apply map_eq_cons in H as (lb & lpost & -> & <- & _).
  now exists lpre, la, lb, lpost.
Qed.

(** X4: lines are filled greedily: in the text of a re-wrapped paragraph
    a line is followed by another one only when the first token of the
    next line, with the space that would precede it, did not fit in
    [max_line_length] columns at the end of the line. *)
Theorem line_breaks_are_forced
        (indent : str) (iw w : Z) (p : str)
        (pre : list str) (a b : str) (post : list str) :
  (0 <= iw)%Z ->
  forallb is_indent_char indent = true ->
  splitlines (format_paragraph indent iw w p) = pre ++ a :: b :: post ->
  exists tok rest,
    b = indent ++ tok ++ rest /\
    is_word tok = true /\
    starts_with_space rest /\
    (w < iw + (len a - len indent) + len (space_for a tok) + len tok)%Z.
Proof.
  intros Hiw Hi H.
  destruct (tokens p) as [|w1 ws] eqn:Et.
  { unfold format_paragraph in H. rewrite findall_token_re, Et in H.
    apply (f_equal (@length _)) in H. rewrite length_app in H.
    simpl in H. lia. }
  assert (Hne : tokens p <> []) by (rewrite Et; discriminate).
  rewrite format_paragraph_lines in H by assumption.
  rewrite splitlines_nl_text_exact in H
    by now apply paragraph_lines_no_break, indent_no_break.
  unfold paragraph_lines in H.
  apply map_split_two in H as (lpre & la & lb & lpost & EL & -> & ->).
  pose proof (layout_words_lines iw w (tokens p) (tokens_words p)) as HF.
  rewrite EL in HF.
  apply Forall_app in HF as [_ HF].
  inversion HF as [|? ? [Hla1 Hla2] HF']; subst.
  inversion HF' as [|? ? [Hlb1 Hlb2] _]; subst.
  pose proof (layout_breaks_forced iw w ws [w1]) as Hc.
  rewrite Et in EL. cbn [layout_words] in EL. rewrite EL in Hc.
  apply consecutive_split in Hc as (tok & more & -> & Hf).
  inversion Hlb2 as [|? ? Htok Hmore]; subst.
  exists tok.
  exists (match more with
          | [] => []
          | w' :: _ => space_for tok w' ++ render_words more
          end).
  split; [|split; [exact Htok|split]].
  - unfold render_line. destruct more; cbn [render_words];
      [now rewrite app_nil_r | reflexivity].
  - destruct more as [|w' more]; [exact I|].
    now destruct (space_for_cases tok w') as [-> | ->].
  - unfold fits in Hf. apply Z.leb_gt in Hf.
    unfold render_line. rewrite len_app.
    rewrite space_for_app by now apply render_words_nonempty.
    unfold line_width in Hf. lia.
Qed.

(** X5: a paragraph whose tokens, joined by the spaces of lines 254-257,
    fit in [max_line_length] columns after the indent is printed on one
    line. *)
Theorem paragraph_that_fits_is_one_line
        (indent : str) (iw w : Z) (p : str) (first : str)
        (others : list str) :
  (0 <= iw)%Z ->
  findall token_re p = first :: others ->
  (iw + len (render_words (first :: others)) <= w)%Z ->
  format_paragraph indent iw w p =
  indent ++ render_words (first :: others) ++ [NL].
Proof.
  intros Hiw E Hfit. pose proof (tokens_words p) as Hw.
  rewrite <- findall_token_re, E in Hw.
  inversion Hw as [|? ? Hfirst Hothers]; subst.
  unfold format_paragraph. rewrite E.
  rewrite format_words_layout by (auto; discriminate).
  cbn [layout_words].
  assert (Hne : [first] <> []) by discriminate.
  rewrite (layout_all_fit iw w others Hothers [first] Hne
             (Forall_cons _ Hfirst (Forall_nil _)) Hfit).
  unfold nl_text, render_line. cbn [map concat app].
  now rewrite app_nil_r, <- app_assoc.
Qed.

(** X6: when [max_line_length] is less than the indent width plus 3 (as
    with a margin setting of 0), no second token ever fits on a line:
    every token of the paragraph is printed on a line of its own. *)
Theorem narrow_width_one_token_per_line
        (indent : str) (iw w : Z) (p : str) :
  (0 <= iw)%Z ->
  (w < iw + 3)%Z ->
  findall token_re p <> [] ->
  format_paragraph indent iw w p =
  concat (map (fun tok => indent ++ tok ++ [NL]) (findall token_re p)).
Proof.
  intros Hiw Hn Hne. pose proof (tokens_words p) as Hw.
  rewrite <- findall_token_re in Hw.
  unfold format_paragraph.
  destruct (findall token_re p) as [|x ws]; [contradiction|].
  inversion Hw as [|? ? Hx Hws]; subst.
  rewrite format_words_layout by (auto; discriminate).
  cbn [layout_words]. rewrite layout_narrow by assumption.
  unfold nl_text. rewrite !map_map. f_equal.
  apply map_ext. intros tok. unfold render_line. cbn [render_words].
  now rewrite <- app_assoc.
Qed.

Lemma line_breaks_are_forced_witness :
  let p := text_of ["one two three four"] in
  (0 <= 0)%Z /\
  forallb is_indent_char [] = true /\
  splitlines (format_paragraph [] 0 9 p) =
  [] ++ lit "one two" :: lit "three" :: [lit "four"] /\
  exists tok rest,
    lit "three" = [] ++ tok ++ rest /\
    is_word tok = true /\
    starts_with_space rest /\
    (9 < 0 + (len (lit "one two") - len []) +
         len (space_for (lit "one two") tok) + len tok)%Z.
Proof.
  cbv zeta.
  assert (H1 : (0 <= 0)%Z) by lia.
  assert (H2 : forallb is_indent_char [] = true) by reflexivity.
  assert (H3 : splitlines (format_paragraph [] 0 9
                                            (text_of ["one two three four"])) =
               [] ++ lit "one two" :: lit "three" :: [lit "four"])
    by (vm_compute; reflexivity).
  split; [exact H1|]. split; [exact H2|]. split; [exact H3|].
  exact (line_breaks_are_forced [] 0 9 _ _ _ _ _ H1 H2 H3).
Defined.

Lemma paragraph_that_fits_is_one_line_witness :
  let p := text_of ["# one"; "# two"] in
  (0 <= 2)%Z /\
  findall token_re p = lit "#" :: [lit "one"; lit "#"; lit "two"] /\
  (2 + len (render_words (lit "#" :: [lit "one"; lit "#"; lit "two"]))
   <= 15)%Z /\
  format_paragraph (lit "# ") 2 15 p =
  lit "# " ++ render_words (lit "#" :: [lit "one"; lit "#"; lit "two"])
      ++ [NL].
Proof.
  cbv zeta.
  assert (H1 : (0 <= 2)%Z) by lia.
  assert (H2 : findall token_re (text_of ["# one"; "# two"]) =
               lit "#" :: [lit "one"; lit "#"; lit "two"])
    by (vm_compute; reflexivity).
  assert (H3 : (2 + len (render_words
                           (lit "#" :: [lit "one"; lit "#"; lit "two"]))
                <= 15)%Z) by (vm_compute; discriminate).
  split; [exact H1|]. split; [exact H2|]. split; [exact H3|].
  exact (paragraph_that_fits_is_one_line (lit "# ") 2 15 _ _ _ H1 H2 H3).
Defined.

Lemma narrow_width_one_token_per_line_witness :
  let p := text_of ["a b"; "c"] in
  (0 <= 0)%Z /\
  (0 < 0 + 3)%Z /\
  findall token_re p <> [] /\
  format_paragraph [] 0 0 p =
  concat (map (fun tok => [] ++ tok ++ [NL]) (findall token_re p)).
Proof.
  cbv zeta.
  assert (H1 : (0 <= 0)%Z) by lia.
  assert (H2 : (0 < 0 + 3)%Z) by lia.
  assert (H3 : findall token_re (text_of ["a b"; "c"]) <> [])
    by (vm_compute; discriminate).
  split; [exact H1|]. split; [exact H2|]. split; [exact H3|].
  exact (narrow_width_one_token_per_line [] 0 0 _ H1 H2 H3).
Defined.

(** ** White space and tokens of the output *)

Lemma render_words_chars (ws : list str) :
  Forall (fun w => is_word w = true) ws ->
  forallb (fun c => non_space c || Ascii.eqb c SP) (render_words ws) = true.
Proof.
  induction 1 as [|w ws Hw Hws IH]; [reflexivity|].
  assert (Hlw : forallb (fun c => non_space c || Ascii.eqb c SP) w = true).
  { apply is_word_non_space in Hw. apply forallb_forall. intros c Hc.
    now rewrite (proj1 (forallb_forall _ _) Hw c Hc). }
  destruct ws as [|w' ws]; [exact Hlw|].
  change (render_words (w :: w' :: ws))
    with (w ++ space_for w w' ++ render_words (w' :: ws)).
  rewrite !forallb_app, Hlw, IH.
  now destruct (space_for_cases w w') as [-> | ->].
Qed.

Lemma hd_render_words (w : str) (ws : list str) :
  is_word w = true -> hd SP (render_words (w :: ws)) = hd SP w.
Proof.
  intros Hw. apply is_word_nonempty in Hw.
  destruct w as [|c w]; [contradiction|]. now destruct ws.
Qed.

(** X7: the white space of the input is normalised: after the indent,
    every line of the output is its own tokens joined by the one or two
    spaces of lines 254-257, so it holds no white space other than single
    space characters and neither starts nor ends with white space. *)
Theorem output_white_space_is_normalised (t : str) (w tw : Z) (l : str) :
  (1 <= tw)%Z ->
  In l (splitlines (reflow t w tw)) ->
  let body := skipn (length (extract_indent (t ++ [NL]))) l in
  body = render_words (tokens body) /\
  forallb (fun c => non_space c || Ascii.eqb c SP) body = true /\
  (body = [] \/
   non_space (hd SP body) = true /\ non_space (last body SP) = true).
Proof.
  intros Htw Hl. rewrite splitlines_reflow in Hl by exact Htw.
  apply out_lines_cases in Hl as [->|(p & ws & _ & Hws & ->)]; cbv zeta.
  - rewrite skipn_all. repeat split. now left.
  - apply layout_line_words in Hws as [Hne Hws].
    unfold render_line. rewrite skipn_indent.
    split; [now rewrite tokens_render_words|].
    split; [now apply render_words_chars|]. right.
    split; [|now apply last_render_words].
    destruct ws as [|x ws]; [contradiction|].
    inversion Hws as [|? ? Hx _]; subst. rewrite hd_render_words by exact Hx.
    pose proof (is_word_nonempty x Hx). apply is_word_non_space in Hx.
    destruct x as [|c x]; [contradiction|].
    simpl in Hx. now apply andb_prop in Hx as [? _].
Qed.

(** X8: no token is split, merged, moved or invented: the tokens of the
    output, the indent prefix of each line left out, are in order the
    tokens of the newline-terminated stripped lines that [line_re]
    accepts. *)
Theorem output_tokens_are_accepted_tokens (t : str) (w tw : Z) :
  (1 <= tw)%Z ->
  out_tokens (extract_indent (t ++ [NL])) (reflow t w tw) =
  flat_map tokens
    (filter good_line (removelast (stripped_lines (t ++ [NL])))).
Proof.
  intros Htw. unfold out_tokens. rewrite splitlines_reflow by exact Htw.
  unfold out_lines. cbv zeta.
  rewrite flat_map_join_lines
    by (rewrite <- (app_nil_r (extract_indent _)) at 2; now rewrite skipn_indent).
  rewrite flat_map_concat_map, map_map.
  erewrite map_ext by (intros p; apply paragraph_lines_tokens).
  rewrite <- flat_map_concat_map, paragraphs_of_strip_indent.
  pose proof (group_lines_concat
                (removelast (stripped_lines (t ++ [NL]))) []) as Hc.
  cbn [app] in Hc. rewrite <- Hc. clear.
  induction (group_lines [] _) as [|b bs IH]; [reflexivity|].
  cbn [map flat_map concat]. now rewrite flat_map_app, IH, tokens_nl_text.
Qed.

(** ** The stripped text and its paragraphs *)

Lemma lstrip_indent_exact_nil (l : str) :
  indent_exact [] (lstrip INDENT_CHARS l) = true.
Proof.
  unfold indent_exact. cbn [length skipn].
  rewrite lstrip_drop_while.
  destruct (drop_while _ l) as [|c r] eqn:E; [reflexivity|].
  apply drop_while_head in E. unfold is_indent_char. now rewrite E.
Qed.

Lemma re_match_line_re (l s : str) :
  no_nl l = true ->
  re_match line_re (l ++ NL :: s) =
  if good_line l then Some (l ++ [NL]) else None.
Proof.
  intros Hn. unfold re_match. rewrite exec_Some.
  destruct (good_line l) eqn:G.
  - rewrite run_line_re_good by exact G.
    change (l ++ NL :: s) with (l ++ [NL] ++ s). rewrite app_assoc.
    now rewrite consumed_app.
  - now rewrite run_line_re_bad.
Qed.

(** X10: what [line_re] accepts: at the start of a line that ends with a
    newline, the pattern matches, and then matches the whole line with its
    newline, exactly when the line consists of spaces, tabs and non-blank
    characters and its last character is non-blank.  An empty line, a line
    that ends with white space and a line that holds a carriage return,
    vertical tab or form feed are not matched. *)
Theorem line_re_accepts (l s : str) :
  no_nl l = true ->
  re_match line_re (l ++ NL :: s) =
  (if forallb (fun c => blank c || non_space c) l && non_space (last l SP)
   then Some (l ++ [NL]) else None) /\
  (l = [] -> re_match line_re (l ++ NL :: s) = None) /\
  (is_space (last l SP) = true -> re_match line_re (l ++ NL :: s) = None) /\
  (forall c, In c [CR; VT; FF] -> In c l ->
             re_match line_re (l ++ NL :: s) = None).
Proof.
  intros Hn. rewrite re_match_line_re by exact Hn.
  change (forallb (fun c => blank c || non_space c) l && non_space (last l SP))
    with (good_line l).
  split; [reflexivity|]. split; [now intros ->|]. split.
  - intros H. unfold good_line, non_space. rewrite H.
    now rewrite andb_false_r.
  - intros c Hc Hin. unfold good_line.
    assert (E : forallb line_char l = false).
    { destruct (forallb line_char l) eqn:E; [|reflexivity].
      apply (proj1 (forallb_forall _ _) E) in Hin.
      destruct Hc as [<-|[<-|[<-|[]]]]; discriminate. }
    now rewrite E.
Qed.

Lemma group_lines_length (ls : list str) :
  forall cur,
    length (group_lines cur ls) <=
    S (length (filter (fun l => negb (good_line l)) ls)).
Proof.
  induction ls as [|l ls IH]; intros cur; cbn [group_lines filter].
  - destruct cur; simpl; lia.
  - destruct (good_line l); cbn [negb]; [apply IH|].
    destruct cur; simpl; pose proof (IH []); lia.
Qed.

(** X11: the paragraph segmentation (lines 274-277) on a text given by
    its newline-terminated lines and an unterminated rest: the paragraphs
    are runs of whole accepted lines with at least one token each, they
    hold together the accepted lines in order (the other lines and the
    unterminated rest are in none), and there is at most one paragraph
    more than there are lines that are not accepted. *)
Theorem paragraphs_are_runs_of_accepted_lines (ls : list str) (rest : str) :
  Forall (fun l => no_nl l = true) ls ->
  no_nl rest = true ->
  let ps := paragraphs_of (nl_text ls ++ rest) in
  concat ps = nl_text (filter good_line ls) /\
  Forall (fun p => exists b, b <> [] /\
                             Forall (fun l => good_line l = true) b /\
                             p = nl_text b /\ tokens p <> []) ps /\
  length ps <= S (length (filter (fun l => negb (good_line l)) ls)).
Proof.
  intros Hls Hrest. cbv zeta. unfold paragraphs_of.
  rewrite findall_findall_at.
  rewrite (findall_at_paragraph_re rest Hrest (S (length ls)) ls)
    by (auto; lia).
  split; [|split].
  - pose proof (group_lines_concat ls []) as Hc. cbn [app] in Hc.
    rewrite <- Hc. clear.
    induction (group_lines [] ls) as [|b bs IH]; [reflexivity|].
    cbn [map concat]. now rewrite nl_text_app, IH.
  - apply Forall_map.
    eapply Forall_impl; [|apply (group_lines_blocks ls [] (Forall_nil _))].
    intros b [Hb1 Hb2]. exists b. repeat split; auto.
    now apply paragraph_tokens_nonempty.
  - rewrite length_map. apply group_lines_length.
Qed.

(** ** An unindented paragraph *)

Lemma good_line_no_break (l : str) : good_line l = true -> no_break l = true.
Proof.
  unfold good_line, no_break. intros H. apply andb_prop in H as [H _].
  apply forallb_forall. intros c Hc.
  apply (proj1 (forallb_forall _ _) H) in Hc. unfold line_char in Hc.
  apply orb_prop in Hc as [Hc|Hc].
  - unfold blank, in_chars in Hc. cbn [existsb] in Hc.
    apply orb_prop in Hc as [Hc|Hc];
      [apply Ascii.eqb_eq in Hc; now subst|].
    apply orb_prop in Hc as [Hc|Hc]; [|discriminate].
    apply Ascii.eqb_eq in Hc. now subst.
  - now rewrite non_space_no_break.
Qed.

Lemma lstrip_exact_nil (l : str) :
  indent_exact [] l = true -> lstrip INDENT_CHARS l = l.
Proof.
  intros H.
  exact (lstrip_indent_exact [] l eq_refl H).
Qed.

(** The text of a paragraph of unindented lines is re-wrapped as the
    sequence of its tokens. *)
Lemma reflow_single_paragraph (ls : list str) (w tw : Z) :
  ls <> [] ->
  Forall (fun l => good_line l = true /\ indent_exact [] l = true) ls ->
  reflow (nl_text ls) w tw = format_words [] 0 w (flat_map tokens ls).
Proof.
  intros Hne H.
  assert (Hg : Forall (fun l => good_line l = true) ls)
    by (eapply Forall_impl; [|exact H]; now intros l [? _]).
  assert (Hb : Forall (fun l => no_break l = true) ls)
    by (eapply Forall_impl; [|exact Hg]; apply good_line_no_break).
  assert (Hs : map (lstrip INDENT_CHARS) ls = ls).
  { rewrite <- (map_id ls) at 2. apply map_ext_Forall.
    eapply Forall_impl; [|exact H]. intros l [_ Hl]. now apply lstrip_exact_nil. }
  assert (Ei : extract_indent (nl_text ls ++ [NL]) = []).
  { destruct ls as [|l ls]; [contradiction|].
    inversion H as [|? ? [Hl1 Hl2] _]; subst.
    rewrite extract_indent_take_while, nl_text_cons, <- app_assoc.
    pose proof (good_line_nonempty l Hl1) as Hl.
    destruct l as [|c l]; [contradiction|].
    unfold indent_exact in Hl2. cbn [length skipn] in Hl2.
    apply negb_true_iff in Hl2. cbn [app take_while]. now rewrite Hl2. }
  assert (Ep : paragraphs_of (strip_indent (nl_text ls ++ [NL])) =
               [nl_text ls]).
  { rewrite paragraphs_of_strip_indent. unfold stripped_lines.
    rewrite splitlines_nl_text by exact Hb.
    change (splitlines [NL]) with [@nil ascii].
    rewrite map_app. cbn [map lstrip]. rewrite removelast_snoc, Hs.
    rewrite <- (app_nil_r ls) at 1.
    rewrite group_lines_good_block by exact Hg.
    cbn [app group_lines map]. now destruct ls. }
  unfold reflow. cbv zeta. rewrite Ep, Ei. cbn [map join].
  unfold format_paragraph. now rewrite findall_token_re, tokens_nl_text.
Qed.

(** X12: the line breaks of the input do not matter within a paragraph:
    two selections made each of one paragraph of unindented lines (lines
    that [line_re] accepts and that do not start with an indent
    character) are re-wrapped to the same text whenever they hold the
    same tokens in the same order. *)
Theorem reflow_ignores_line_breaks (ls ls' : list str) (w tw : Z) :
  Forall (fun l => good_line l = true /\ indent_exact [] l = true) ls ->
  Forall (fun l => good_line l = true /\ indent_exact [] l = true) ls' ->
  flat_map tokens ls = flat_map tokens ls' ->
  reflow (nl_text ls) w tw = reflow (nl_text ls') w tw.
Proof.
  intros H H' E.
  assert (Hnil : forall xs ys,
             Forall (fun l => good_line l = true /\ indent_exact [] l = true) ys ->
             xs = [] -> flat_map tokens xs = flat_map tokens ys -> ys = []).
  { intros xs [|y ys] Hy -> Et; [reflexivity|]. exfalso.
    inversion Hy as [|? ? [Hg _] _]; subst.
    apply good_line_tokens in Hg. cbn [flat_map] in Et.
    destruct (tokens y); [contradiction | discriminate]. }
  destruct ls as [|l ls].
  - now rewrite (Hnil [] ls' H' eq_refl E).
  - destruct ls' as [|l' ls'].
    + symmetry in E. discriminate (Hnil [] (l :: ls) H eq_refl E).
    + rewrite !reflow_single_paragraph by (auto; discriminate).
      now rewrite E.
Qed.

Lemma reflow_ignores_line_breaks_witness :
  let ls := [lit "one two"; lit "three"] in
  let ls' := [lit "one"; lit "two   three"] in
  Forall (fun l => good_line l = true /\ indent_exact [] l = true) ls /\
  Forall (fun l => good_line l = true /\ indent_exact [] l = true) ls' /\
  flat_map tokens ls = flat_map tokens ls' /\
  reflow (nl_text ls) 9 4 = reflow (nl_text ls') 9 4.
Proof.
  cbv zeta.
  assert (H1 : Forall (fun l => good_line l = true /\ indent_exact [] l = true)
                      [lit "one two"; lit "three"])
    by (repeat constructor).
  assert (H2 : Forall (fun l => good_line l = true /\ indent_exact [] l = true)
                      [lit "one"; lit "two   three"])
    by (repeat constructor).
  assert (H3 : flat_map tokens [lit "one two"; lit "three"] =
               flat_map tokens [lit "one"; lit "two   three"])
    by reflexivity.
  split; [exact H1|]. split; [exact H2|]. split; [exact H3|].
  exact (reflow_ignores_line_breaks _ _ 9 4 H1 H2 H3).
Defined.

Lemma output_white_space_is_normalised_witness :
  let t := text_of [("#  one" ++ String TAB "two   three")%string] in
  let l := lit "#  one two three" in
  (1 <= 4)%Z /\
  In l (splitlines (reflow t 80 4)) /\
  skipn (length (extract_indent (t ++ [NL]))) l =
  render_words (tokens (skipn (length (extract_indent (t ++ [NL]))) l)).
Proof.
  cbv zeta.
  assert (H1 : (1 <= 4)%Z) by lia.
  assert (H2 : In (lit "#  one two three")
                  (splitlines
                     (reflow (text_of [("#  one" ++ String TAB "two   three")%string])
                             80 4)))
    by (vm_compute; now left).
  split; [exact H1|]. split; [exact H2|].
  exact (proj1 (output_white_space_is_normalised _ 80 4 _ H1 H2)).
Defined.

Lemma output_tokens_are_accepted_tokens_witness :
  let t := text_of ["# one two "; "# three"; "-four five"] in
  (1 <= 4)%Z /\
  out_tokens (extract_indent (t ++ [NL])) (reflow t 80 4) =
  flat_map tokens
    (filter good_line (removelast (stripped_lines (t ++ [NL])))) /\
  out_tokens (extract_indent (t ++ [NL])) (reflow t 80 4) =
  [lit "three"; lit "four"; lit "five"].
Proof.
  cbv zeta.
  assert (H1 : (1 <= 4)%Z) by lia.
  split; [exact H1|]. split.
  - exact (output_tokens_are_accepted_tokens _ 80 4 H1).
  - vm_compute. reflexivity.
Defined.

Lemma line_re_accepts_witness :
  no_nl (lit "one two ") = true /\
  re_match line_re (lit "one two " ++ NL :: lit "three") = None /\
  no_nl (lit " one two") = true /\
  re_match line_re (lit " one two" ++ NL :: lit "three") =
  Some (lit " one two" ++ [NL]).
Proof.
  assert (H1 : no_nl (lit "one two ") = true) by reflexivity.
  assert (H2 : no_nl (lit " one two") = true) by reflexivity.
  split; [exact H1|]. split.
  - exact (proj1 (proj2 (proj2 (line_re_accepts _ (lit "three") H1))) eq_refl).
  - split; [exact H2|].
    exact (proj1 (line_re_accepts _ (lit "three") H2)).
Defined.

Lemma paragraphs_are_runs_of_accepted_lines_witness :
  let ls := [lit "x y"; lit " z w"; []; lit "bad "; lit "q"] in
  Forall (fun l => no_nl l = true) ls /\
  no_nl (lit "rest") = true /\
  concat (paragraphs_of (nl_text ls ++ lit "rest")) =
  nl_text (filter good_line ls) /\
  paragraphs_of (nl_text ls ++ lit "rest") =
  [text_of ["x y"; " z w"]; text_of ["q"]].
Proof.
  cbv zeta.
  assert (H1 : Forall (fun l => no_nl l = true)
                      [lit "x y"; lit " z w"; []; lit "bad "; lit "q"])
    by (repeat constructor).
  assert (H2 : no_nl (lit "rest") = true) by reflexivity.
  split; [exact H1|]. split; [exact H2|]. split.
  - exact (proj1 (paragraphs_are_runs_of_accepted_lines _ _ H1 H2)).
  - vm_compute. reflexivity.
Defined.

(** * The document *)

Lemma reflow_blank (t : str) (w tw : Z) :
  Forall (fun l => forallb is_indent_char l = true) (splitlines t) ->
  reflow t w tw = [].
Proof.
  intros H. apply reflow_no_good_line, filter_good_blank.
  apply Forall_removelast. unfold stripped_lines. apply Forall_map.
  assert (H' : Forall (fun l => forallb is_indent_char l = true)
                      (splitlines (t ++ [NL]))).
  { destruct (splitlines_add_nl_cases t) as [-> | ->]; [exact H|].
    apply Forall_app. split; [exact H | now repeat constructor]. }
  eapply Forall_impl; [|exact H']. intros l Hl. now apply lstrip_all.
Qed.

Lemma reflow_unterminated (t : str) (w tw : Z) :
  no_break t = true -> reflow t w tw = [].
Proof.
  intros H. apply reflow_no_good_line. unfold stripped_lines.
  rewrite <- (app_nil_r (t ++ [NL])), <- app_assoc. cbn [app].
  rewrite splitlines_line by exact H. reflexivity.
Qed.

Lemma after_delete_inside (lo hi p : nat) :
  lo <= p <= hi -> TextBuffer.after_delete lo hi p = lo.
Proof.
  intros [H1 H2]. unfold TextBuffer.after_delete.
  destruct (Nat.leb_spec p lo); [lia|].
  destruct (Nat.leb_spec p hi); [reflexivity | lia].
Qed.

Lemma after_insert_at (g : bool) (pos n : nat) :
  TextBuffer.after_insert g pos n pos = if g then pos else pos + n.
Proof.
  unfold TextBuffer.after_insert.
  rewrite Nat.ltb_irrefl, Nat.eqb_refl. now destruct g.
Qed.

Lemma firstn_skipn_middle (t : str) (s e : nat) :
  s <= e -> e <= length t ->
  t = firstn s t ++ firstn (e - s) (skipn s t) ++ skipn e t.
Proof.
  intros Hse He.
  rewrite <- (firstn_skipn s t) at 1. f_equal.
  rewrite <- (firstn_skipn (e - s) (skipn s t)) at 1. f_equal.
  rewrite skipn_skipn. f_equal. lia.
Qed.

(** The buffer after [_replace_text_selection], when the iterators
    enclose the standing marks. *)
Lemma replace_text_selection_eq (d : TextBuffer.buffer) (s e : nat)
      (out : str) :
  s <= e -> e <= length (TextBuffer.text d) ->
  s <= TextBuffer.insert_offset d <= e ->
  s <= TextBuffer.selection_bound_offset d <= e ->
  replace_text_selection d s e out =
  TextBuffer.Buffer
    (firstn s (TextBuffer.text d) ++ out ++ skipn e (TextBuffer.text d))
    (s + length out) s
    (map (fun m => (TextBuffer.after_insert (snd m) s (length out) (fst m),
                    snd m))
         (map (fun m => (TextBuffer.after_delete s e (fst m), snd m))
              (TextBuffer.anonymous d)) ++ [(s, true)]).
Proof.
  intros Hse He Hi Hb.
  unfold replace_text_selection, TextBuffer.delete, TextBuffer.create_mark,
    TextBuffer.insert, TextBuffer.move_mark_by_name,
    TextBuffer.get_iter_at_mark.
  cbn [TextBuffer.text TextBuffer.insert_offset
       TextBuffer.selection_bound_offset TextBuffer.anonymous].
  rewrite (Nat.min_l s e Hse), (Nat.max_r s e Hse).
  rewrite (after_delete_inside s e _ Hi), (after_delete_inside s e _ Hb).
  rewrite !after_insert_at.
  change (String.eqb "selection_bound" "insert") with false.
  change (String.eqb "selection_bound" "selection_bound") with true.
  cbv iota.
  assert (Hl : length (firstn s (TextBuffer.text d)) = s)
    by (rewrite length_firstn; lia).
  rewrite firstn_app, Hl, Nat.sub_diag, firstn_O, app_nil_r.
  rewrite firstn_firstn, Nat.min_id.
  rewrite skipn_app, Hl, Nat.sub_diag, skipn_O.
  rewrite (skipn_all2 (n := s) (firstn s (TextBuffer.text d)))
    by (rewrite Hl; lia).
  cbn [app]. rewrite !map_app. cbn [map fst snd].
  rewrite after_insert_at.
  rewrite length_map.
  rewrite app_nth2 by (rewrite !length_map; lia).
  rewrite !length_map, Nat.sub_diag. cbn [nth fst].
  reflexivity.
Qed.

Section DocumentProperties.

Variable starts_line : str -> nat -> bool.
Variables set_line_offset_0 forward_line : str -> nat -> nat.
Variable gconf_get_int : string -> Z.

(** What is assumed of the iterators of the buffer: the start of a line
    is not behind the place in the line, and the next line, or the end
    of the last one, is not before it and within the text. *)
Hypothesis set_line_offset_0_le :
  forall t p, p <= length t -> set_line_offset_0 t p <= p.
Hypothesis forward_line_bounds :
  forall t p, p <= length t ->
              p <= forward_line t p /\ forward_line t p <= length t.

Lemma get_text_selection_range (d : TextBuffer.buffer) (s e : nat)
      (txt : str) :
  marks_in_text d ->
  get_text_selection starts_line set_line_offset_0 forward_line d =
  (s, e, txt) ->
  s <= Nat.min (TextBuffer.insert_offset d)
               (TextBuffer.selection_bound_offset d) /\
  Nat.max (TextBuffer.insert_offset d)
          (TextBuffer.selection_bound_offset d) <= e /\
  e <= length (TextBuffer.text d) /\
  txt = firstn (e - s) (skipn s (TextBuffer.text d)) /\
  (TextBuffer.get_has_selection d = true -> s < e).
Proof.
  intros [Hi Hb] E. unfold get_text_selection in E.
  unfold TextBuffer.get_has_selection, TextBuffer.get_selection_bounds,
    TextBuffer.get_iter_at_mark, TextBuffer.get_insert in E.
  set (t := TextBuffer.text d) in *.
  set (i := TextBuffer.insert_offset d) in *.
  set (b := TextBuffer.selection_bound_offset d) in *.
  assert (Hrange : forall lo hi,
             lo <= hi -> hi <= length t ->
             (if negb (starts_line t lo) then set_line_offset_0 t lo else lo)
             <= lo /\
             hi <= (if negb (starts_line t hi) then forward_line t hi else hi)
             /\
             (if negb (starts_line t hi) then forward_line t hi else hi)
             <= length t).
  { intros lo hi Hlh Hh.
    pose proof (set_line_offset_0_le t lo ltac:(lia)).
    pose proof (forward_line_bounds t hi Hh) as [? ?].
    destruct (starts_line t lo), (starts_line t hi); cbn [negb]; lia. }
  destruct (Nat.eqb_spec i b) as [Eib|Nib]; cbn [negb] in E.
  - destruct (Hrange i i (le_n _) Hi) as (H1 & H2 & H3).
    cbv beta iota zeta in E. injection E as Es Ee Et.
    rewrite Es, Ee in Et. rewrite Es in H1. rewrite Ee in H2, H3.
    subst txt. rewrite <- Eib, Nat.min_id, Nat.max_id.
    split; [exact H1|]. split; [exact H2|]. split; [exact H3|].
    split;
      [|intros Hs; unfold TextBuffer.get_has_selection in Hs;
        fold i b in Hs; rewrite Eib, Nat.eqb_refl in Hs; discriminate].
    unfold TextBuffer.get_text. fold t.
    rewrite Nat.min_l, Nat.max_r by lia. reflexivity.
  - destruct (Hrange (Nat.min i b) (Nat.max i b) ltac:(lia) ltac:(lia))
      as (H1 & H2 & H3).
    cbv beta iota zeta in E. injection E as Es Ee Et.
    rewrite Es, Ee in Et. rewrite Es in H1. rewrite Ee in H2, H3.
    subst txt.
    split; [exact H1|]. split; [exact H2|]. split; [exact H3|].
    split; [|intros _; lia].
    unfold TextBuffer.get_text. fold t.
    rewrite Nat.min_l, Nat.max_r by lia. reflexivity.
Qed.

(** X13: the text [_get_text_selection] returns is a piece of the text
    of the buffer that lies between the two iterators it leaves, starts
    at or before the selection (the cursor, without one) and ends at or
    after it; with a selection it is not empty and holds the selected
    text. *)
Theorem selection_is_extended (d : TextBuffer.buffer) (s e : nat)
        (txt : str) :
  marks_in_text d ->
  get_text_selection starts_line set_line_offset_0 forward_line d =
  (s, e, txt) ->
  let '(lo, hi) := TextBuffer.get_selection_bounds d in
  s <= lo /\ hi <= e /\ e <= length (TextBuffer.text d) /\
  TextBuffer.text d =
  firstn s (TextBuffer.text d) ++ txt ++ skipn e (TextBuffer.text d) /\
  (exists before after,
      txt = before ++ TextBuffer.get_text d lo hi ++ after /\
      length before = lo - s /\ length after = e - hi) /\
  (TextBuffer.get_has_selection d = true -> txt <> []).
Proof.
  intros Hm E.
  destruct (get_text_selection_range d s e txt Hm E)
    as (H1 & H2 & H3 & H4 & H5).
  unfold TextBuffer.get_selection_bounds.
  set (lo := Nat.min _ _) in *. set (hi := Nat.max _ _) in *.
  assert (Hlh : lo <= hi) by (subst lo hi; lia).
  split; [exact H1|]. split; [exact H2|]. split; [exact H3|].
  split; [|split].
  - rewrite H4. apply firstn_skipn_middle; lia.
  - unfold TextBuffer.get_text.
    rewrite (Nat.min_l lo hi Hlh), (Nat.max_r lo hi Hlh).
    set (t := TextBuffer.text d) in *.
    exists (firstn (lo - s) (skipn s t)), (firstn (e - hi) (skipn hi t)).
    split; [|split].
    + rewrite H4.
      pose proof (firstn_skipn_middle (firstn (e - s) (skipn s t))
                                      (lo - s) (hi - s) ltac:(lia)) as F.
      rewrite length_firstn, length_skipn in F.
      specialize (F ltac:(lia)).
      rewrite F at 1.
      rewrite firstn_firstn, (Nat.min_l (lo - s) (e - s)) by lia.
      f_equal.
      rewrite !skipn_firstn_comm, !skipn_skipn.
      replace (lo - s + s) with lo by lia.
      replace (hi - s + s) with hi by lia.
      rewrite firstn_firstn.
      replace (Nat.min (hi - s - (lo - s)) (e - s - (lo - s)))
        with (hi - lo) by lia.
      replace (e - s - (hi - s)) with (e - hi) by lia.
      reflexivity.
    + rewrite length_firstn, length_skipn. lia.
    + rewrite length_firstn, length_skipn. lia.
  - intros Hsel Htxt. specialize (H5 Hsel).
    apply (f_equal (@length _)) in H4. rewrite Htxt in H4.
    rewrite length_firstn, length_skipn in H4. cbn [length] in H4. lia.
Qed.

(** X14: [_rewrap_selection] on a document whose selected text is not
    empty replaces exactly the text between the two iterators by the
    re-wrapped text: the text before and behind is as it was, the new
    text is selected, with the cursor at its end, and one more
    anonymous mark is left in the buffer. *)
Theorem rewrap_replaces_the_selected_lines (d : TextBuffer.buffer)
        (s e : nat) (txt : str) :
  marks_in_text d ->
  get_text_selection starts_line set_line_offset_0 forward_line d =
  (s, e, txt) ->
  txt <> [] ->
  let out := reflow txt (get_gedit_margin gconf_get_int)
                    (get_gedit_tab_width gconf_get_int) in
  let d' := rewrap_document starts_line set_line_offset_0 forward_line
                            gconf_get_int d in
  TextBuffer.text d' =
  firstn s (TextBuffer.text d) ++ out ++ skipn e (TextBuffer.text d) /\
  TextBuffer.selection_bound_offset d' = s /\
  TextBuffer.insert_offset d' = s + length out /\
  TextBuffer.get_text d' s (s + length out) = out /\
  length (TextBuffer.anonymous d') = S (length (TextBuffer.anonymous d)) /\
  marks_in_text d'.
Proof.
  intros Hm E Htxt. cbv zeta.
  destruct (get_text_selection_range d s e txt Hm E)
    as (H1 & H2 & H3 & H4 & H5).
  assert (Hse : s <= e) by lia.
  unfold rewrap_document. rewrite E.
  unfold rewrap_selection. destruct txt as [|c txt]; [contradiction|].
  rewrite (replace_text_selection_eq d s e _ Hse H3)
    by (split; lia).
  set (out := reflow _ _ _).
  cbn [TextBuffer.text TextBuffer.insert_offset
       TextBuffer.selection_bound_offset TextBuffer.anonymous].
  assert (Hl : length (firstn s (TextBuffer.text d)) = s)
    by (rewrite length_firstn; lia).
  split; [reflexivity|]. split; [reflexivity|]. split; [reflexivity|].
  split; [|split].
  - unfold TextBuffer.get_text.
    cbn [TextBuffer.text].
    rewrite Nat.min_l, Nat.max_r by lia.
    rewrite skipn_app, Hl, Nat.sub_diag, skipn_O.
    rewrite (skipn_all2 (n := s) (firstn s (TextBuffer.text d)))
      by (rewrite Hl; lia).
    cbn [app].
    replace (s + length out - s) with (length out) by lia.
    rewrite firstn_app, Nat.sub_diag, firstn_O, app_nil_r.
    apply firstn_all.
  - rewrite length_app, !length_map. cbn [length]. lia.
  - unfold marks_in_text.
    cbn [TextBuffer.text TextBuffer.insert_offset
         TextBuffer.selection_bound_offset].
    rewrite !length_app, Hl. lia.
Qed.

(** X15: without a selection and with the cursor at the start of a
    line, [_rewrap_selection] changes nothing, whatever the line holds:
    neither iterator is moved and the selected text is empty. *)
Theorem cursor_at_line_start_changes_nothing (d : TextBuffer.buffer) :
  TextBuffer.get_has_selection d = false ->
  starts_line (TextBuffer.text d) (TextBuffer.insert_offset d) = true ->
  get_text_selection starts_line set_line_offset_0 forward_line d =
  (TextBuffer.insert_offset d, TextBuffer.insert_offset d, []) /\
  rewrap_document starts_line set_line_offset_0 forward_line
                  gconf_get_int d = d.
Proof.
  intros Hsel Hstart.
  assert (E : get_text_selection starts_line set_line_offset_0
                                 forward_line d =
              (TextBuffer.insert_offset d, TextBuffer.insert_offset d, [])).
  { unfold get_text_selection. rewrite Hsel.
    unfold TextBuffer.get_iter_at_mark, TextBuffer.get_insert.
    rewrite Hstart. cbn [negb]. unfold TextBuffer.get_text.
    now rewrite Nat.min_id, Nat.max_id, Nat.sub_diag. }
  split; [exact E|].
  unfold rewrap_document. rewrite E. reflexivity.
Qed.

(** X16: selected lines that the re-wrapping does not accept are
    deleted from the document.  When the selected text is not empty and
    either all its lines are blank (empty, or indent characters only) or
    it holds no line terminator (the last line of a buffer that does not
    end with one), [_rewrap_selection] removes it and puts nothing in
    its place; the cursor is left where it was removed, with nothing
    selected. *)
Theorem lines_not_accepted_are_deleted (d : TextBuffer.buffer)
        (s e : nat) (txt : str) :
  marks_in_text d ->
  get_text_selection starts_line set_line_offset_0 forward_line d =
  (s, e, txt) ->
  txt <> [] ->
  Forall (fun l => forallb is_indent_char l = true) (splitlines txt) \/
  no_break txt = true ->
  let d' := rewrap_document starts_line set_line_offset_0 forward_line
                            gconf_get_int d in
  TextBuffer.text d' =
  firstn s (TextBuffer.text d) ++ skipn e (TextBuffer.text d) /\
  length (TextBuffer.text d') + length txt = length (TextBuffer.text d) /\
  TextBuffer.insert_offset d' = s /\
  TextBuffer.selection_bound_offset d' = s /\
  TextBuffer.get_has_selection d' = false.
Proof.
  intros Hm E Htxt Hbad. cbv zeta.
  destruct (get_text_selection_range d s e txt Hm E)
    as (H1 & H2 & H3 & H4 & H5).
  assert (Hse : s <= e) by lia.
  assert (Hout : reflow txt (get_gedit_margin gconf_get_int)
                        (get_gedit_tab_width gconf_get_int) = []).
  { destruct Hbad as [Hb|Hb];
      [now apply reflow_blank | now apply reflow_unterminated]. }
  unfold rewrap_document. rewrite E.
  unfold rewrap_selection. destruct txt as [|c txt]; [contradiction|].
  rewrite Hout.
  rewrite (replace_text_selection_eq d s e _ Hse H3)
    by (split; lia).
  unfold TextBuffer.get_has_selection.
  cbn [TextBuffer.text TextBuffer.insert_offset
       TextBuffer.selection_bound_offset app length].
  rewrite Nat.add_0_r, Nat.eqb_refl.
  split; [reflexivity|]. split; [|auto].
  apply (f_equal (@length _)) in H4. cbn [length] in H4.
  rewrite length_firstn, length_skipn in H4.
  rewrite length_app, length_firstn, length_skipn. cbn [length]. lia.
Qed.

End DocumentProperties.

(** ** The document: examples *)

Lemma to_next_line_le (s : str) : to_next_line s <= length s.
Proof.
  induction s as [|c s IH]; cbn [to_next_line length]; [lia|].
  destruct (Ascii.eqb c NL); lia.
Qed.

Lemma nl_set_line_offset_0_le (t : str) (p : nat) :
  p <= length t -> nl_set_line_offset_0 t p <= p.
Proof. intros _. unfold nl_set_line_offset_0. lia. Qed.

Lemma nl_forward_line_bounds (t : str) (p : nat) :
  p <= length t ->
  p <= nl_forward_line t p /\ nl_forward_line t p <= length t.
Proof.
  intros H. unfold nl_forward_line.
  pose proof (to_next_line_le (skipn p t)) as L.
  rewrite length_skipn in L. lia.
Qed.

Lemma selection_is_extended_witness :
  let d := TextBuffer.Buffer
             (text_of ["one two three four"; "five"; "six"]) 5 22 [] in
  marks_in_text d /\
  get_text_selection nl_starts_line nl_set_line_offset_0 nl_forward_line d =
  (0, 24, text_of ["one two three four"; "five"]) /\
  TextBuffer.text d =
  firstn 0 (TextBuffer.text d) ++
  text_of ["one two three four"; "five"] ++ skipn 24 (TextBuffer.text d).
Proof.
  cbv zeta.
  assert (Hm : marks_in_text
                 (TextBuffer.Buffer
                    (text_of ["one two three four"; "five"; "six"]) 5 22 []))
    by (unfold marks_in_text; cbn; lia).
  assert (E : get_text_selection nl_starts_line nl_set_line_offset_0
                nl_forward_line
                (TextBuffer.Buffer
                   (text_of ["one two three four"; "five"; "six"]) 5 22 []) =
              (0, 24, text_of ["one two three four"; "five"]))
    by (vm_compute; reflexivity).
  split; [exact Hm|]. split; [exact E|].
  pose proof (selection_is_extended nl_starts_line nl_set_line_offset_0
                nl_forward_line nl_set_line_offset_0_le
                nl_forward_line_bounds _ _ _ _ Hm E) as H.
  cbv beta iota zeta delta [TextBuffer.get_selection_bounds] in H.
  exact (proj1 (proj2 (proj2 (proj2 H)))).
Defined.

Lemma rewrap_replaces_the_selected_lines_witness :
  let d := TextBuffer.Buffer
             (text_of ["one two three four"; "five"; "six"]) 5 22 [] in
  let d' := rewrap_document nl_starts_line nl_set_line_offset_0
                            nl_forward_line example_gconf d in
  marks_in_text d /\
  get_text_selection nl_starts_line nl_set_line_offset_0 nl_forward_line d =
  (0, 24, text_of ["one two three four"; "five"]) /\
  text_of ["one two three four"; "five"] <> [] /\
  reflow (text_of ["one two three four"; "five"]) 12 4 =
  text_of ["one two"; "three four"; "five"] /\
  TextBuffer.text d' =
  firstn 0 (TextBuffer.text d) ++
  reflow (text_of ["one two three four"; "five"])
         (get_gedit_margin example_gconf)
         (get_gedit_tab_width example_gconf) ++
  skipn 24 (TextBuffer.text d) /\
  TextBuffer.text d' = text_of ["one two"; "three four"; "five"; "six"].
Proof.
  cbv zeta.
  assert (Hm : marks_in_text
                 (TextBuffer.Buffer
                    (text_of ["one two three four"; "five"; "six"]) 5 22 []))
    by (unfold marks_in_text; cbn; lia).
  assert (E : get_text_selection nl_starts_line nl_set_line_offset_0
                nl_forward_line
                (TextBuffer.Buffer
                   (text_of ["one two three four"; "five"; "six"]) 5 22 []) =
              (0, 24, text_of ["one two three four"; "five"]))
    by (vm_compute; reflexivity).
  assert (Hne : text_of ["one two three four"; "five"] <> [])
    by discriminate.
  split; [exact Hm|]. split; [exact E|]. split; [exact Hne|].
  split; [vm_compute; reflexivity|]. split.
  - exact (proj1 (rewrap_replaces_the_selected_lines
                    nl_starts_line nl_set_line_offset_0 nl_forward_line
                    example_gconf nl_set_line_offset_0_le
                    nl_forward_line_bounds _ _ _ _ Hm E Hne)).
  - vm_compute. reflexivity.
Defined.

Lemma cursor_at_line_start_changes_nothing_witness :
  let d := TextBuffer.Buffer (text_of ["one two"; "three four"]) 8 8 [] in
  TextBuffer.get_has_selection d = false /\
  nl_starts_line (TextBuffer.text d) (TextBuffer.insert_offset d) = true /\
  rewrap_document nl_starts_line nl_set_line_offset_0 nl_forward_line
                  example_gconf d = d.
Proof.
  cbv zeta.
  assert (H1 : TextBuffer.get_has_selection
                 (TextBuffer.Buffer (text_of ["one two"; "three four"])
                                    8 8 []) = false)
    by reflexivity.
  assert (H2 : nl_starts_line
                 (TextBuffer.text
                    (TextBuffer.Buffer (text_of ["one two"; "three four"])
                                       8 8 []))
                 (TextBuffer.insert_offset
                    (TextBuffer.Buffer (text_of ["one two"; "three four"])
                                       8 8 [])) = true)
    by reflexivity.
  split; [exact H1|]. split; [exact H2|].
  exact (proj2 (cursor_at_line_start_changes_nothing
                  nl_starts_line nl_set_line_offset_0 nl_forward_line
                  example_gconf _ H1 H2)).
Defined.

Lemma lines_not_accepted_are_deleted_witness :
  let d := TextBuffer.Buffer (lit "one two" ++ NL :: lit "three") 10 10 [] in
  let d' := rewrap_document nl_starts_line nl_set_line_offset_0
                            nl_forward_line example_gconf d in
  marks_in_text d /\
  get_text_selection nl_starts_line nl_set_line_offset_0 nl_forward_line d =
  (8, 13, lit "three") /\
  lit "three" <> [] /\
  no_break (lit "three") = true /\
  TextBuffer.text d' =
  firstn 8 (TextBuffer.text d) ++ skipn 13 (TextBuffer.text d) /\
  TextBuffer.text d' = text_of ["one two"].
Proof.
  cbv zeta.
  assert (Hm : marks_in_text
                 (TextBuffer.Buffer (lit "one two" ++ NL :: lit "three")
                                    10 10 []))
    by (unfold marks_in_text; cbn; lia).
  assert (E : get_text_selection nl_starts_line nl_set_line_offset_0
                nl_forward_line
                (TextBuffer.Buffer (lit "one two" ++ NL :: lit "three")
                                   10 10 []) =
              (8, 13, lit "three"))
    by (vm_compute; reflexivity).
  assert (Hne : lit "three" <> []) by discriminate.
  assert (Hnb : no_break (lit "three") = true) by reflexivity.
  split; [exact Hm|]. split; [exact E|]. split; [exact Hne|].
  split; [exact Hnb|]. split.
  - exact (proj1 (lines_not_accepted_are_deleted
                    nl_starts_line nl_set_line_offset_0 nl_forward_line
                    example_gconf nl_set_line_offset_0_le
                    nl_forward_line_bounds _ _ _ _ Hm E Hne
                    (or_intror Hnb))).
  - vm_compute. reflexivity.
Defined.

(** * The plugin *)

(** ** The dictionary *)

Lemma dict_get_set_same {V : Type} (d : list (nat * V)) (k : nat) (v : V) :
  dict_get (dict_set d k v) k = Some v.
Proof.
  induction d as [|[k' v'] d IH]; cbn [dict_set dict_get].
  - now rewrite Nat.eqb_refl.
  - destruct (Nat.eqb_spec k' k) as [->|N]; cbn [dict_get].
    + now rewrite Nat.eqb_refl.
    + destruct (Nat.eqb_spec k' k); [contradiction | exact IH].
Qed.

Lemma dict_get_set_other {V : Type} (d : list (nat * V)) (k k' : nat)
      (v : V) :
  k' <> k -> dict_get (dict_set d k v) k' = dict_get d k'.
Proof.
  intros N. induction d as [|[k0 v0] d IH]; cbn [dict_set dict_get].
  - destruct (Nat.eqb_spec k k'); [congruence | reflexivity].
  - destruct (Nat.eqb_spec k0 k) as [->|N0]; cbn [dict_get].
    + destruct (Nat.eqb_spec k k'); [congruence | reflexivity].
    + now rewrite IH.
Qed.

Lemma dict_get_none {V : Type} (d : list (nat * V)) (k : nat) :
  dict_get d k = None <-> ~ In k (map fst d).
Proof.
  induction d as [|[k' v'] d IH]; cbn [dict_get map fst In].
  - tauto.
  - destruct (Nat.eqb_spec k' k) as [->|N].
    + split; [discriminate | intros H; exfalso; apply H; now left].
    + rewrite IH. split; [intros H [E|I]; [contradiction | auto] | tauto].
Qed.

Lemma dict_set_absent {V : Type} (d : list (nat * V)) (k : nat) (v : V) :
  dict_get d k = None -> dict_set d k v = d ++ [(k, v)].
Proof.
  induction d as [|[k' v'] d IH]; cbn [dict_set dict_get app];
    [reflexivity|].
  destruct (Nat.eqb_spec k' k); [discriminate|].
  intros H. now rewrite IH.
Qed.

Lemma dict_set_keys {V : Type} (d : list (nat * V)) (k : nat) (v v' : V) :
  dict_get d k = Some v' -> map fst (dict_set d k v) = map fst d.
Proof.
  induction d as [|[k0 v0] d IH]; cbn [dict_set dict_get];
    [discriminate|].
  destruct (Nat.eqb_spec k0 k) as [->|N]; cbn [map fst]; [reflexivity|].
  intros H. now rewrite IH.
Qed.

Lemma dict_set_nodup {V : Type} (d : list (nat * V)) (k : nat) (v : V) :
  NoDup (map fst d) -> NoDup (map fst (dict_set d k v)).
Proof.
  intros H. destruct (dict_get d k) as [v'|] eqn:E.
  - now rewrite (dict_set_keys d k v v' E).
  - rewrite (dict_set_absent d k v E), map_app. cbn [map fst].
    apply dict_get_none in E.
    apply NoDup_app; [exact H | repeat constructor; auto |].
    intros x Hx [<-|[]]. contradiction.
Qed.

Lemma dict_set_set {V : Type} (d : list (nat * V)) (k : nat) (v v' : V) :
  dict_set (dict_set d k v) k v' = dict_set d k v'.
Proof.
  induction d as [|[k0 v0] d IH]; cbn [dict_set].
  - now rewrite Nat.eqb_refl.
  - destruct (Nat.eqb_spec k0 k) as [->|N]; cbn [dict_set].
    + now rewrite Nat.eqb_refl.
    + destruct (Nat.eqb_spec k0 k); [contradiction|]. now rewrite IH.
Qed.

Lemma dict_del_set_absent {V : Type} (d : list (nat * V)) (k : nat)
      (v : V) :
  dict_get d k = None -> dict_del (dict_set d k v) k = Some d.
Proof.
  induction d as [|[k0 v0] d IH]; cbn [dict_set dict_get dict_del].
  - now rewrite Nat.eqb_refl.
  - destruct (Nat.eqb_spec k0 k) as [->|N]; [discriminate|].
    intros H. cbn [dict_del].
    destruct (Nat.eqb_spec k0 k); [contradiction|]. now rewrite IH.
Qed.

Lemma dict_del_some {V : Type} (d : list (nat * V)) (k : nat) (v : V) :
  dict_get d k = Some v ->
  exists d', dict_del d k = Some d' /\
             (forall k', k' <> k -> dict_get d' k' = dict_get d k') /\
             (NoDup (map fst d) ->
              NoDup (map fst d') /\ dict_get d' k = None).
Proof.
  induction d as [|[k0 v0] d IH]; cbn [dict_get dict_del];
    [discriminate|].
  destruct (Nat.eqb_spec k0 k) as [->|N].
  - intros _. exists d. split; [reflexivity|]. split.
    + intros k' Hk. cbn [dict_get].
      destruct (Nat.eqb_spec k k'); [congruence | reflexivity].
    + cbn [map fst]. intros H. inversion H; subst.
      split; [assumption | now apply dict_get_none].
  - intros H. destruct (IH H) as (d' & -> & Ho & Hn).
    exists ((k0, v0) :: d'). split; [reflexivity|]. split.
    + intros k' Hk. cbn [dict_get]. now rewrite (Ho k' Hk).
    + cbn [map fst]. intros Hd. inversion Hd as [|? ? Hk0 Hd']; subst.
      destruct (Hn Hd') as [Hn1 Hn2]. split.
      * constructor; [|exact Hn1]. intros I. apply Hk0.
        destruct (in_dec Nat.eq_dec k0 (map fst d)) as [Y|Nn]; [exact Y|].
        apply dict_get_none in Nn. rewrite <- (Ho k0 N) in Nn.
        apply dict_get_none in Nn. contradiction.
      * cbn [dict_get]. destruct (Nat.eqb_spec k0 k); [contradiction|].
        exact Hn2.
Qed.

Lemma dict_del_none {V : Type} (d : list (nat * V)) (k : nat) :
  dict_get d k = None -> dict_del d k = None.
Proof.
  induction d as [|[k0 v0] d IH]; cbn [dict_get dict_del];
    [reflexivity|].
  destruct (Nat.eqb_spec k0 k); [discriminate|].
  intros H. now rewrite IH.
Qed.

(** ** The methods on a plugin that is in order *)

Lemma update_nth_length {A : Type} (i : nat) (f : A -> A) (l : list A) :
  length (update_nth i f l) = length l.
Proof.
  revert i. induction l as [|x l IH]; intros [|i]; cbn [update_nth length];
    auto.
Qed.

Lemma nth_error_update_nth {A : Type} (i j : nat) (f : A -> A)
      (l : list A) :
  nth_error (update_nth i f l) j =
  if (j =? i)%nat then option_map f (nth_error l j) else nth_error l j.
Proof.
  revert i j. induction l as [|x l IH]; intros i j.
  - assert (E : update_nth i f (@nil A) = []) by now destruct i.
    rewrite E. destruct j; cbn [nth_error option_map];
      now destruct (_ =? _)%nat.
  - destruct i as [|i], j as [|j];
      cbn [update_nth nth_error Nat.eqb option_map]; try reflexivity.
    apply IH.
Qed.

Lemma update_nth_beyond {A : Type} (f : A -> A) (l : list A) (x : A) :
  update_nth (length l) f (l ++ [x]) = l ++ [f x].
Proof.
  induction l as [|y l IH]; cbn [length app update_nth]; [reflexivity|].
  now rewrite IH.
Qed.

Lemma existsb_fresh (g : nat) (l : list nat) :
  Forall (fun i => i < g) l -> existsb (Nat.eqb g) l = false.
Proof.
  induction 1 as [|x l Hx _ IH]; cbn [existsb]; [reflexivity|].
  rewrite IH. destruct (Nat.eqb_spec g x); [lia | reflexivity].
Qed.

Lemma remove_first_fresh (g : nat) (l : list nat) :
  Forall (fun i => i < g) l -> Gtk.remove_first g (l ++ [g]) = l.
Proof.
  induction 1 as [|x l Hx _ IH]; cbn [app Gtk.remove_first].
  - now rewrite Nat.eqb_refl.
  - destruct (Nat.eqb_spec x g); [lia|]. now rewrite IH.
Qed.

Lemma filter_fresh (id : nat) (l : list nat) :
  Forall (fun i => i < id) l ->
  filter (fun i => negb (i =? id)%nat) (l ++ [id]) = l.
Proof.
  induction 1 as [|x l Hx _ IH]; cbn [app filter].
  - now rewrite Nat.eqb_refl.
  - destruct (Nat.eqb_spec x id); [lia|]. cbn [negb]. now rewrite IH.
Qed.

Lemma Forall_remove_first (P : nat -> Prop) (g : nat) (l : list nat) :
  Forall P l -> Forall P (Gtk.remove_first g l).
Proof.
  induction 1 as [|x l Hx Hl IH]; cbn [Gtk.remove_first]; [constructor|].
  destruct (x =? g)%nat; [exact Hl | now constructor].
Qed.

Lemma Forall_filter_keep {A : Type} (P : A -> Prop) (f : A -> bool)
      (l : list A) :
  Forall P l -> Forall P (filter f l).
Proof.
  induction 1 as [|x l Hx Hl IH]; cbn [filter]; [constructor|].
  destruct (f x); [now constructor | exact IH].
Qed.

(** The action group that [_insert_menu] makes. *)
Lemma insert_menu_eq (h : helper) (g : gedit) (w : nat) :
  gedit_ok g -> window h = Some w ->
  insert_menu (h, g) =
  (inr tt,
   (Helper (Some w) (Some (S (Gtk.last_merge_id (ui_managers g w))))
           (Some (length (action_group_objects g)))
           (start_iter h) (end_iter h),
    Gedit (fun w' =>
             if (w' =? w)%nat then
               Gtk.UIManager
                 (Gtk.action_groups (ui_managers g w) ++
                  [length (action_group_objects g)])
                 (Gtk.merged (ui_managers g w) ++
                  [S (Gtk.last_merge_id (ui_managers g w))])
                 (S (Gtk.last_merge_id (ui_managers g w)))
             else ui_managers g w')
          (action_group_objects g ++
           [Gtk.ActionGroup "RewrapPluginActions" true
              [Gtk.ActionEntry "Rewrap" None "Rewrap" ACCELERATOR
                               "Re-wrap selected lines."]])
          (editable g))).
Proof.
  intros Hg Hw. unfold insert_menu. rewrite Hw.
  unfold Gtk.insert_action_group.
  rewrite (existsb_fresh _ _ (proj1 (Hg w))).
  change (-1 <? 0)%Z with true. cbv iota.
  rewrite firstn_all, skipn_all. cbn [app].
  unfold Gtk.add_ui_from_string.
  cbn [Gtk.action_groups Gtk.merged Gtk.last_merge_id].
  reflexivity.
Qed.

Lemma activate_eq (p : plugin) (w : nat) :
  gedit_ok (world p) ->
  activate w p =
  (inr tt,
   Plugin
     (dict_set (instances p) w
        (Helper (Some w)
                (Some (S (Gtk.last_merge_id (ui_managers (world p) w))))
                (Some (length (action_group_objects (world p))))
                None None))
     (Gedit (fun w' =>
               if (w' =? w)%nat then
                 Gtk.UIManager
                   (Gtk.action_groups (ui_managers (world p) w) ++
                    [length (action_group_objects (world p))])
                   (Gtk.merged (ui_managers (world p) w) ++
                    [S (Gtk.last_merge_id (ui_managers (world p) w))])
                   (S (Gtk.last_merge_id (ui_managers (world p) w)))
               else ui_managers (world p) w')
            (action_group_objects (world p) ++
             [Gtk.ActionGroup "RewrapPluginActions" true
                [Gtk.ActionEntry "Rewrap" None "Rewrap" ACCELERATOR
                                 "Re-wrap selected lines."]])
            (editable (world p)))).
Proof.
  intros Hg. unfold activate, bind, on_instance.
  cbn [instances world]. rewrite dict_get_set_same.
  unfold helper_activate, bind.
  rewrite (insert_menu_eq (helper_init w) (world p) w Hg eq_refl).
  cbn [window helper_init start_iter end_iter].
  unfold helper_update_ui. cbn [editable action_group].
  destruct (editable (world p) w).
  - unfold update_action_group.
    cbn [ui_managers action_group_objects editable].
    rewrite update_nth_beyond. unfold Gtk.set_sensitive.
    cbn [Gtk.group_name Gtk.entries]. now rewrite dict_set_set.
  - now rewrite dict_set_set.
Qed.

Lemma deactivate_eq (p : plugin) (w : nat) (h : helper) (id group : nat) :
  dict_get (instances p) w = Some h ->
  window h = Some w -> menu_ui_id h = Some id ->
  action_group h = Some group ->
  exists d,
    dict_del (instances p) w = Some d /\
    deactivate w p =
    (inr tt,
     Plugin d
       (set_ui_manager (world p) w
          (Gtk.remove_action_group
             (Gtk.remove_ui (ui_managers (world p) w) id) group))).
Proof.
  intros Hget Hw Hid Hgr.
  destruct (dict_del_some _ _ _ Hget) as (d & Hd & _).
  exists d. split; [exact Hd|].
  unfold deactivate, bind, on_instance. rewrite Hget.
  unfold helper_deactivate, bind, remove_menu. rewrite Hw, Hid, Hgr.
  cbn [instances world]. unfold Gtk.ensure_update.
  assert (E : forall v, dict_del (dict_set (instances p) w v) w = Some d).
  { clear - Hd. intros v. revert d Hd.
    induction (instances p) as [|[k0 v0] l IH]; intros d Hd;
      cbn [dict_del dict_set] in *; [discriminate|].
    destruct (Nat.eqb_spec k0 w) as [->|N]; cbn [dict_del].
    - now rewrite Nat.eqb_refl.
    - destruct (Nat.eqb_spec k0 w); [contradiction|].
      destruct (dict_del l w) as [r|]; [|discriminate].
      now rewrite (IH r eq_refl). }
  now rewrite E.
Qed.

Lemma update_ui_eq (p : plugin) (w : nat) (h : helper) (group : nat) :
  dict_get (instances p) w = Some h ->
  action_group h = Some group ->
  update_ui w p =
  (inr tt,
   Plugin (dict_set (instances p) w h)
          (if editable (world p) w
           then update_action_group (world p) group
                                    (fun a => Gtk.set_sensitive a true)
           else world p)).
Proof.
  intros Hget Hgr. unfold update_ui, on_instance. rewrite Hget.
  unfold helper_update_ui. rewrite Hgr.
  now destruct (editable (world p) w).
Qed.

Lemma unknown_window_raises (p : plugin) (w : nat) :
  dict_get (instances p) w = None ->
  deactivate w p = (inl KeyError, p) /\ update_ui w p = (inl KeyError, p).
Proof.
  intros H. unfold deactivate, update_ui, bind, on_instance.
  now rewrite H.
Qed.

Lemma plugin_init_ok (g : gedit) : gedit_ok g -> plugin_ok (plugin_init g).
Proof.
  intros Hg. split; [exact Hg|]. split; [constructor|].
  intros w h H. discriminate H.
Qed.

Lemma activate_ok (p : plugin) (w : nat) :
  plugin_ok p -> plugin_ok (snd (activate w p)).
Proof.
  intros (Hg & Hnd & Hh). rewrite (activate_eq p w Hg). cbn [snd].
  destruct p as [d g]. cbn [instances world] in *.
  split; [|split].
  - intros w'. cbn [world ui_managers action_group_objects].
    rewrite length_app. cbn [length].
    destruct (Hg w) as [G1 G2]. destruct (Hg w') as [G1' G2'].
    destruct (Nat.eqb_spec w' w) as [->|N];
      cbn [Gtk.action_groups Gtk.merged Gtk.last_merge_id].
    + split; apply Forall_app; split.
      * eapply Forall_impl; [|exact G1]. cbv beta. lia.
      * repeat constructor. lia.
      * eapply Forall_impl; [|exact G2]. cbv beta. lia.
      * repeat constructor.
    + split; [|exact G2'].
      eapply Forall_impl; [|exact G1']. cbv beta. lia.
  - cbn [instances]. now apply dict_set_nodup.
  - cbn [instances world]. intros w' h'.
    destruct (Nat.eq_dec w' w) as [->|N].
    + rewrite dict_get_set_same. intros E. injection E as <-.
      split; [reflexivity|].
      eexists _, _, _. split; [reflexivity|]. split; [reflexivity|].
      cbn [ui_managers action_group_objects].
      rewrite Nat.eqb_refl. cbn [Gtk.action_groups Gtk.merged].
      split; [apply in_or_app; right; now left|].
      split; [apply in_or_app; right; now left|].
      split.
      * rewrite nth_error_app2, Nat.sub_diag by lia. reflexivity.
      * reflexivity.
    + rewrite (dict_get_set_other d w w' _ N). intros E.
      destruct (Hh w' h' E) as (Hw & id & gr & a & H1 & H2 & H3 & H4 & H5 & H6).
      split; [exact Hw|]. exists id, gr, a.
      cbn [ui_managers action_group_objects].
      destruct (Nat.eqb_spec w' w); [contradiction|].
      repeat (split; [assumption|]). split; [|exact H6].
      rewrite nth_error_app1; [exact H5|].
      apply nth_error_Some. congruence.
Qed.

Lemma deactivate_ok (p : plugin) (w : nat) :
  plugin_ok p -> plugin_ok (snd (deactivate w p)).
Proof.
  intros Hok. pose proof Hok as (Hg & Hnd & Hh).
  destruct (dict_get (instances p) w) as [h|] eqn:Hget.
  - destruct (Hh w h Hget)
      as (Hw & id & gr & a & H1 & H2 & H3 & H4 & H5 & H6).
    destruct (deactivate_eq p w h id gr Hget Hw H1 H2) as (d & Hd & ->).
    cbn [snd].
    destruct (dict_del_some _ _ _ Hget) as (d' & Hd' & Ho & Hn).
    rewrite Hd in Hd'. injection Hd' as <-.
    destruct (Hn Hnd) as [Hn1 Hn2].
    split; [|split].
    + intros w'. unfold set_ui_manager.
      cbn [world ui_managers action_group_objects].
      destruct (Hg w) as [G1 G2]. destruct (Hg w') as [G1' G2'].
      destruct (Nat.eqb_spec w' w) as [->|N]; [|now split].
      cbn [Gtk.remove_action_group Gtk.remove_ui Gtk.action_groups
           Gtk.merged Gtk.last_merge_id].
      split; [now apply Forall_remove_first | now apply Forall_filter_keep].
    + exact Hn1.
    + cbn [instances world]. intros w' h' E.
      destruct (Nat.eq_dec w' w) as [->|N]; [congruence|].
      rewrite (Ho w' N) in E.
      destruct (Hh w' h' E)
        as (Hw' & id' & gr' & a' & K1 & K2 & K3 & K4 & K5 & K6).
      split; [exact Hw'|]. exists id', gr', a'.
      unfold set_ui_manager. cbn [ui_managers action_group_objects].
      destruct (Nat.eqb_spec w' w); [contradiction|].
      repeat (split; [assumption|]). exact K6.
  - now rewrite (proj1 (unknown_window_raises p w Hget)).
Qed.

Lemma update_ui_ok (p : plugin) (w : nat) :
  plugin_ok p -> plugin_ok (snd (update_ui w p)).
Proof.
  intros Hok. pose proof Hok as (Hg & Hnd & Hh).
  destruct (dict_get (instances p) w) as [h|] eqn:Hget.
  - destruct (Hh w h Hget)
      as (Hw & id & gr & a & H1 & H2 & H3 & H4 & H5 & H6).
    rewrite (update_ui_eq p w h gr Hget H2). cbn [snd].
    assert (Hget' : forall w',
               dict_get (dict_set (instances p) w h) w' =
               dict_get (instances p) w').
    { intros w'. destruct (Nat.eq_dec w' w) as [->|N].
      - now rewrite dict_get_set_same.
      - now apply dict_get_set_other. }
    split; [|split].
    + cbn [world]. destruct (editable (world p) w); [|exact Hg].
      intros w'. unfold update_action_group.
      cbn [ui_managers action_group_objects].
      rewrite update_nth_length. apply Hg.
    + cbn [instances]. now apply dict_set_nodup.
    + cbn [instances world]. intros w' h' E. rewrite Hget' in E.
      destruct (Hh w' h' E)
        as (Hw' & id' & gr' & a' & K1 & K2 & K3 & K4 & K5 & K6).
      split; [exact Hw'|].
      destruct (editable (world p) w);
        [|exists id', gr', a'; repeat (split; [assumption|]); exact K6].
      unfold update_action_group.
      cbn [ui_managers action_group_objects].
      destruct (Nat.eqb_spec gr' gr) as [->|N].
      * exists id', gr, (Gtk.set_sensitive a' true).
        repeat (split; [assumption|]). split; [|reflexivity].
        now rewrite nth_error_update_nth, Nat.eqb_refl, K5.
      * exists id', gr', a'.
        repeat (split; [assumption|]). split; [|exact K6].
        rewrite nth_error_update_nth.
        destruct (Nat.eqb_spec gr' gr); [contradiction | exact K5].
  - now rewrite (proj2 (unknown_window_raises p w Hget)).
Qed.

Lemma after_calls_ok (g : gedit) (cs : list call) :
  gedit_ok g -> plugin_ok (after_calls (plugin_init g) cs).
Proof.
  intros Hg. unfold after_calls.
  assert (H : forall p, plugin_ok p ->
                        plugin_ok (fold_left
                                     (fun p c => snd (plugin_call c p)) cs p)).
  { induction cs as [|c cs IH]; intros p Hp; cbn [fold_left];
      [exact Hp|].
    apply IH. destruct c as [w|w|w]; cbn [plugin_call];
      [now apply activate_ok | now apply deactivate_ok
       | now apply update_ui_ok]. }
  apply H, plugin_init_ok, Hg.
Qed.

(** X17: whatever calls gedit has made before, [activate] does not
    raise; [deactivate] and [update_ui] do not raise for a window that
    has an instance, and for a window without one they raise [KeyError]
    and leave the plugin and gedit as they were. *)
Theorem plugin_raises_only_for_unknown_window (g : gedit) (cs : list call)
        (w : nat) :
  gedit_ok g ->
  let p := after_calls (plugin_init g) cs in
  fst (activate w p) = inr tt /\
  match dict_get (instances p) w with
  | Some _ =>
    fst (deactivate w p) = inr tt /\ fst (update_ui w p) = inr tt
  | None =>
    deactivate w p = (inl KeyError, p) /\ update_ui w p = (inl KeyError, p)
  end.
Proof.
  intros Hg p. pose proof (after_calls_ok g cs Hg) as Hok. fold p in Hok.
  pose proof Hok as (Hg' & Hnd & Hh).
  split; [now rewrite (activate_eq p w Hg')|].
  destruct (dict_get (instances p) w) as [h|] eqn:Hget.
  - destruct (Hh w h Hget)
      as (Hw & id & gr & a & H1 & H2 & H3 & H4 & H5 & H6).
    destruct (deactivate_eq p w h id gr Hget Hw H1 H2) as (d & Hd & ->).
    now rewrite (update_ui_eq p w h gr Hget H2).
  - now apply unknown_window_raises.
Qed.

(** X18: the windows that have an instance are those activated and not
    deactivated since, and each of them has its menu: after any calls,
    the helper of a window with an instance is for that window, its UI
    is merged in the UI manager of the window, and its action group is
    in that manager and sensitive. *)
Theorem active_windows_have_their_menu (g : gedit) (cs : list call)
        (w : nat) :
  gedit_ok g ->
  let p := after_calls (plugin_init g) cs in
  (forall h, dict_get (instances p) w = Some h ->
             helper_active (world p) w h) /\
  dict_get (instances (after_calls (plugin_init g) (cs ++ [Activate w]))) w
  <> None /\
  dict_get (instances (after_calls (plugin_init g) (cs ++ [Deactivate w]))) w
  = None /\
  dict_get (instances (after_calls (plugin_init g) (cs ++ [Update_ui w]))) w
  = dict_get (instances p) w.
Proof.
  intros Hg p. pose proof (after_calls_ok g cs Hg) as Hok. fold p in Hok.
  pose proof Hok as (Hg' & Hnd & Hh).
  unfold after_calls. rewrite !fold_left_app. cbn [fold_left].
  fold (after_calls (plugin_init g) cs). fold p. cbn [plugin_call].
  split; [apply Hh|]. split; [|split].
  - rewrite (activate_eq p w Hg'). cbn [snd instances].
    now rewrite dict_get_set_same.
  - destruct (dict_get (instances p) w) as [h|] eqn:Hget.
    + destruct (Hh w h Hget)
        as (Hw & id & gr & a & H1 & H2 & H3 & H4 & H5 & H6).
      destruct (deactivate_eq p w h id gr Hget Hw H1 H2) as (d & Hd & ->).
      cbn [snd instances].
      destruct (dict_del_some _ _ _ Hget) as (d' & Hd' & _ & Hn).
      rewrite Hd in Hd'. injection Hd' as <-. now apply Hn.
    + now rewrite (proj1 (unknown_window_raises p w Hget)).
  - destruct (dict_get (instances p) w) as [h|] eqn:Hget.
    + destruct (Hh w h Hget)
        as (Hw & id & gr & a & H1 & H2 & H3 & H4 & H5 & H6).
      rewrite (update_ui_eq p w h gr Hget H2). cbn [snd instances].
      now rewrite dict_get_set_same.
    + now rewrite (proj2 (unknown_window_raises p w Hget)).
Qed.

(** X19: [deactivate] undoes [activate].  For a window without an
    instance, after any calls, activating and then deactivating it
    raises nothing and leaves the dictionary of instances, and the
    action groups and merged UIs of every window, as they were. *)
Theorem activate_then_deactivate_restores (g : gedit) (cs : list call)
        (w : nat) :
  gedit_ok g ->
  let p := after_calls (plugin_init g) cs in
  dict_get (instances p) w = None ->
  let p' := snd (deactivate w (snd (activate w p))) in
  fst (deactivate w (snd (activate w p))) = inr tt /\
  instances p' = instances p /\
  forall w',
    Gtk.action_groups (ui_managers (world p') w') =
    Gtk.action_groups (ui_managers (world p) w') /\
    Gtk.merged (ui_managers (world p') w') =
    Gtk.merged (ui_managers (world p) w').
Proof.
  intros Hg p Hget. pose proof (after_calls_ok g cs Hg) as Hok.
  fold p in Hok. pose proof Hok as (Hg' & Hnd & Hh).
  cbv zeta. rewrite (activate_eq p w Hg'). cbn [snd].
  match goal with
  | |- context [deactivate w ?q] =>
    destruct (deactivate_eq q w _ _ _ (dict_get_set_same _ _ _)
                            eq_refl eq_refl eq_refl) as (d & Hd & ->)
  end.
  cbn [instances] in Hd. rewrite (dict_del_set_absent _ _ _ Hget) in Hd.
  injection Hd as <-. cbn [fst snd instances world].
  split; [reflexivity|]. split; [reflexivity|].
  intros w'. unfold set_ui_manager. cbn [ui_managers].
  destruct (Nat.eqb_spec w' w) as [->|N]; [|now split].
  rewrite Nat.eqb_refl.
  cbn [Gtk.remove_action_group Gtk.remove_ui Gtk.action_groups Gtk.merged].
  destruct (Hg' w) as [G1 G2].
  rewrite (remove_first_fresh _ _ G1).
  rewrite filter_fresh;
    [now split | eapply Forall_impl; [|exact G2]; cbv beta; lia].
Qed.

(** X20: a menu is left behind when a window is activated twice.  For a
    window without an instance, after any calls, two calls of [activate]
    and one of [deactivate] leave the window without an instance, so
    that [deactivate] now raises [KeyError], but with the action group
    and the merged UI of the first activation still in its UI
    manager. *)
Theorem second_activation_leaves_a_menu (g : gedit) (cs : list call)
        (w : nat) :
  gedit_ok g ->
  let p := after_calls (plugin_init g) cs in
  dict_get (instances p) w = None ->
  let p' := after_calls p [Activate w; Activate w; Deactivate w] in
  dict_get (instances p') w = None /\
  deactivate w p' = (inl KeyError, p') /\
  Gtk.action_groups (ui_managers (world p') w) =
  Gtk.action_groups (ui_managers (world p) w) ++
  [length (action_group_objects (world p))] /\
  Gtk.merged (ui_managers (world p') w) =
  Gtk.merged (ui_managers (world p) w) ++
  [S (Gtk.last_merge_id (ui_managers (world p) w))].
Proof.
  intros Hg p Hget. pose proof (after_calls_ok g cs Hg) as Hok.
  fold p in Hok. pose proof Hok as (Hg' & Hnd & Hh).
  pose proof (activate_ok p w Hok) as Hok1.
  pose proof Hok1 as (Hg1 & Hnd1 & Hh1).
  destruct (Hg' w) as [G1 G2].
  assert (E : after_calls p [Activate w; Activate w; Deactivate w] =
              Plugin (instances p)
                (set_ui_manager
                   (world (snd (activate w (snd (activate w p))))) w
                   (Gtk.UIManager
                      (Gtk.action_groups (ui_managers (world p) w) ++
                       [length (action_group_objects (world p))])
                      (Gtk.merged (ui_managers (world p) w) ++
                       [S (Gtk.last_merge_id (ui_managers (world p) w))])
                      (S (S (Gtk.last_merge_id
                               (ui_managers (world p) w))))))).
  { unfold after_calls. cbn [fold_left plugin_call].
    rewrite (activate_eq (snd (activate w p)) w Hg1).
    cbn [snd].
    match goal with
    | |- context [deactivate w ?q] =>
      destruct (deactivate_eq q w _ _ _ (dict_get_set_same _ _ _)
                              eq_refl eq_refl eq_refl) as (d & Hd & E)
    end.
    rewrite E. clear E. cbn [snd instances world].
    cbn [instances] in Hd. rewrite (activate_eq p w Hg') in *.
    cbn [snd instances world ui_managers action_group_objects] in *.
    rewrite Nat.eqb_refl in *.
    cbn [Gtk.action_groups Gtk.merged Gtk.last_merge_id] in *.
    rewrite dict_set_set in Hd.
    rewrite (dict_del_set_absent _ _ _ Hget) in Hd. injection Hd as <-.
    f_equal. f_equal.
    cbn [Gtk.remove_action_group Gtk.remove_ui Gtk.action_groups
         Gtk.merged Gtk.last_merge_id].
    rewrite length_app. cbn [length].
    replace (length (action_group_objects (world p)) + 1)
      with (S (length (action_group_objects (world p)))) by lia.
    unfold Gtk.remove_action_group, Gtk.remove_ui.
    cbn [Gtk.action_groups Gtk.merged Gtk.last_merge_id].
    rewrite remove_first_fresh.
    - rewrite filter_fresh; [reflexivity|].
      apply Forall_app. split; [|repeat constructor].
      eapply Forall_impl; [|exact G2]. cbv beta. lia.
    - apply Forall_app. split; [|repeat constructor].
      eapply Forall_impl; [|exact G1]. cbv beta. lia. }
  cbv zeta. rewrite E. cbn [instances world].
  split; [exact Hget|].
  split; [now apply unknown_window_raises|].
  unfold set_ui_manager. cbn [ui_managers]. rewrite Nat.eqb_refl.
  cbn [Gtk.action_groups Gtk.merged]. now split.
Qed.

(** ** The plugin: examples *)

Lemma example_gedit_ok : gedit_ok example_gedit.
Proof. intros w. split; constructor. Qed.

Lemma plugin_raises_only_for_unknown_window_witness :
  let p := after_calls (plugin_init example_gedit)
                       [Activate 1; Activate 2; Deactivate 1] in
  gedit_ok example_gedit /\
  dict_get (instances p) 1 = None /\
  fst (activate 1 p) = inr tt /\
  deactivate 1 p = (inl KeyError, p) /\
  update_ui 1 p = (inl KeyError, p).
Proof.
  cbv zeta.
  pose proof (plugin_raises_only_for_unknown_window
                example_gedit [Activate 1; Activate 2; Deactivate 1] 1
                example_gedit_ok) as H.
  cbv zeta in H.
  assert (E : dict_get
                (instances
                   (after_calls (plugin_init example_gedit)
                                [Activate 1; Activate 2; Deactivate 1])) 1 =
              None) by (vm_compute; reflexivity).
  rewrite E in H.
  split; [exact example_gedit_ok|]. split; [exact E|].
  split; [exact (proj1 H)|]. exact (proj2 H).
Defined.

Lemma active_windows_have_their_menu_witness :
  let p := after_calls (plugin_init example_gedit)
                       [Activate 1; Activate 2; Deactivate 1] in
  gedit_ok example_gedit /\
  dict_get (instances p) 2 = Some (Helper (Some 2) (Some 1) (Some 1)
                                          None None) /\
  helper_active (world p) 2 (Helper (Some 2) (Some 1) (Some 1) None None).
Proof.
  cbv zeta.
  assert (E : dict_get
                (instances
                   (after_calls (plugin_init example_gedit)
                                [Activate 1; Activate 2; Deactivate 1])) 2 =
              Some (Helper (Some 2) (Some 1) (Some 1) None None))
    by (vm_compute; reflexivity).
  split; [exact example_gedit_ok|]. split; [exact E|].
  exact (proj1 (active_windows_have_their_menu
                  example_gedit [Activate 1; Activate 2; Deactivate 1] 2
                  example_gedit_ok) _ E).
Defined.

Lemma activate_then_deactivate_restores_witness :
  let p := after_calls (plugin_init example_gedit) [Activate 1] in
  gedit_ok example_gedit /\
  dict_get (instances p) 2 = None /\
  fst (deactivate 2 (snd (activate 2 p))) = inr tt /\
  instances (snd (deactivate 2 (snd (activate 2 p)))) = instances p.
Proof.
  cbv zeta.
  assert (E : dict_get
                (instances
                   (after_calls (plugin_init example_gedit) [Activate 1])) 2 =
              None) by reflexivity.
  pose proof (activate_then_deactivate_restores
                example_gedit [Activate 1] 2 example_gedit_ok E) as H.
  cbv zeta in H.
  split; [exact example_gedit_ok|]. split; [exact E|].
  split; [exact (proj1 H) | exact (proj1 (proj2 H))].
Defined.

Lemma second_activation_leaves_a_menu_witness :
  let p := after_calls (plugin_init example_gedit) [Activate 1] in
  let p' := after_calls p [Activate 2; Activate 2; Deactivate 2] in
  gedit_ok example_gedit /\
  dict_get (instances p) 2 = None /\
  dict_get (instances p') 2 = None /\
  Gtk.action_groups (ui_managers (world p') 2) = [1] /\
  Gtk.merged (ui_managers (world p') 2) = [1].
Proof.
  cbv zeta.
  assert (E : dict_get
                (instances
                   (after_calls (plugin_init example_gedit) [Activate 1])) 2 =
              None) by reflexivity.
  pose proof (second_activation_leaves_a_menu
                example_gedit [Activate 1] 2 example_gedit_ok E) as H.
  cbv zeta in H.
  split; [exact example_gedit_ok|]. split; [exact E|].
  split; [exact (proj1 H)|].
  split; [exact (proj1 (proj2 (proj2 H)))|].
  exact (proj2 (proj2 (proj2 H))).
Defined.

(** * The number of lines of a paragraph *)

Section Fewest.

Variable indent_width : Z.
Variable max_line_length : Z.

Local Abbreviation lay := (layout indent_width max_line_length).
Local Abbreviation fit := (fits indent_width max_line_length).
Local Abbreviation lwidth := (line_width indent_width).

Lemma fits_tail (a : str) (rest : list str) (w : str) :
  rest <> [] -> Forall (fun w => is_word w = true) rest ->
  fit (a :: rest) w = true -> fit rest w = true.
Proof.
  intros Hne Hr H. unfold fits, line_width in *.
  apply Z.leb_le in H. apply Z.leb_le.
  destruct rest as [|b rest]; [contradiction|].
  change (render_words (a :: b :: rest))
    with (a ++ space_for a b ++ render_words (b :: rest)) in H.
  rewrite !app_assoc, space_for_app in H
    by (apply render_words_nonempty; [discriminate | exact Hr]).
  rewrite !len_app in H.
  pose proof (len_nonneg a). pose proof (len_nonneg (space_for a b)). lia.
Qed.

Lemma fits_suffix (x c : list str) (w : str) :
  c <> [] -> Forall (fun w => is_word w = true) x ->
  Forall (fun w => is_word w = true) c ->
  fit (x ++ c) w = true -> fit c w = true.
Proof.
  intros Hne Hx Hc. induction Hx as [|a x Ha Hx IH]; [auto|].
  cbn [app]. intros H. apply IH.
  apply (fits_tail a (x ++ c) w); [now destruct x | | exact H].
  apply Forall_app. now split.
Qed.

Lemma fits_prefix (c : list str) (w : str) (more : list str) :
  c <> [] -> Forall (fun w => is_word w = true) (c ++ w :: more) ->
  (lwidth (c ++ w :: more) <= max_line_length)%Z ->
  fit c w = true.
Proof.
  intros Hne H Hw.
  apply Forall_app in H as [Hc H]. inversion H as [|? ? Hw1 Hm]; subst.
  change (c ++ w :: more) with (c ++ [w] ++ more) in Hw.
  rewrite app_assoc in Hw.
  assert (Hcw : Forall (fun w => is_word w = true) (c ++ [w]))
    by (apply Forall_app; split; [exact Hc | now constructor]).
  pose proof (line_width_mono indent_width more Hm (c ++ [w])
                              ltac:(now destruct c) Hcw) as M.
  rewrite (line_width_snoc indent_width c w Hne Hc) in M.
  unfold fits. apply Z.leb_le. lia.
Qed.

(** A line begun later is never worse, and at most one line better. *)
Lemma layout_length_suffix (ws : list str) :
  Forall (fun w => is_word w = true) ws ->
  forall x c,
    c <> [] -> Forall (fun w => is_word w = true) x ->
    Forall (fun w => is_word w = true) c ->
    length (lay c ws) <= length (lay (x ++ c) ws) /\
    length (lay (x ++ c) ws) <= S (length (lay c ws)).
Proof.
  induction 1 as [|w ws Hw Hws IH]; intros x c Hne Hx Hc; cbn [layout].
  - cbn [length]. lia.
  - assert (Hcw : Forall (fun w => is_word w = true) (c ++ [w]))
      by (apply Forall_app; split; [exact Hc | now constructor]).
    destruct (fit (x ++ c) w) eqn:F1.
    + rewrite (fits_suffix x c w Hne Hx Hc F1).
      rewrite <- app_assoc.
      apply IH; [now destruct c | exact Hx | exact Hcw].
    + destruct (fit c w) eqn:F2; cbn [length]; [|lia].
      destruct (IH c [w] ltac:(discriminate) Hc
                   ltac:(now constructor)) as [I1 I2].
      lia.
Qed.

(** The greedy filling uses no more lines than any arrangement of the
    words in lines that hold one word or are within the width. *)
Lemma layout_fewest (ws : list str) :
  Forall (fun w => is_word w = true) ws ->
  forall x c m os,
    c <> [] -> Forall (fun w => is_word w = true) x ->
    Forall (fun w => is_word w = true) c ->
    concat (m :: os) = ws ->
    Forall (fun l => l <> [] /\
                     (length l = 1 \/ (lwidth l <= max_line_length)%Z))
           ((x ++ c ++ m) :: os) ->
    length (lay c ws) <= S (length os).
Proof.
  induction 1 as [|w ws Hw Hws IH]; intros x c m os Hne Hx Hc Ecat Hv;
    cbn [layout]; [cbn [length]; lia|].
  assert (Hcw : Forall (fun w => is_word w = true) (c ++ [w]))
    by (apply Forall_app; split; [exact Hc | now constructor]).
  inversion Hv as [|? ? [_ Hv1] Hvs]; subst.
  destruct m as [|w0 m'].
  - cbn [concat app] in Ecat.
    destruct os as [|o2 os']; [discriminate|].
    inversion Hvs as [|? ? [Ho2 _] _]; subst.
    destruct o2 as [|w0 m2]; [contradiction|].
    cbn [concat app] in Ecat. injection Ecat as -> Ecat.
    assert (I : length (lay [w] ws) <= S (length os')).
    { apply (IH [] [w] m2 os'); [discriminate | constructor
                                 | now constructor | exact Ecat
                                 | exact Hvs]. }
    cbn [length].
    destruct (fit c w); cbn [length]; [|lia].
    destruct (layout_length_suffix ws Hws c [w] ltac:(discriminate) Hc
                                   ltac:(now constructor)) as [_ I2].
    lia.
  - cbn [concat app] in Ecat. injection Ecat as -> Ecat.
    assert (Hlen : length (x ++ c ++ w :: m') <> 1).
    { rewrite !length_app. cbn [length].
      destruct c; [contradiction | cbn [length]; lia]. }
    destruct Hv1 as [Hv1|Hv1]; [contradiction|].
    assert (Hm' : Forall (fun w => is_word w = true) m').
    { rewrite <- Ecat in Hws. now apply Forall_app in Hws as [? _]. }
    assert (F1 : fit (x ++ c) w = true).
    { apply (fits_prefix (x ++ c) w m').
      - now destruct x, c.
      - rewrite <- app_assoc. apply Forall_app. split; [exact Hx|].
        apply Forall_app. split; [exact Hc | now constructor].
      - now rewrite <- app_assoc. }
    rewrite (fits_suffix x c w Hne Hx Hc F1).
    apply (IH x (c ++ [w]) m' os);
      [now destruct c | exact Hx | exact Hcw | exact Ecat|].
    rewrite <- app_assoc. cbn [app]. exact Hv.
Qed.

End Fewest.

(** X21: [format_paragraph] uses as few lines as possible.  However the
    tokens of the paragraph are arranged in lines, in their order and
    with the spacing of the code, so that every line holds one token or
    is within the width, the arrangement has no fewer lines than the
    text [format_paragraph] returns. *)
Theorem format_paragraph_uses_fewest_lines
        (indent : str) (iw w : Z) (p : str) (ls : list (list str)) :
  (0 <= iw)%Z ->
  forallb is_indent_char indent = true ->
  findall token_re p <> [] ->
  concat ls = findall token_re p ->
  Forall (fun l => l <> [] /\
                   (length l = 1 \/ (iw + len (render_words l) <= w)%Z)) ls ->
  length (splitlines (format_paragraph indent iw w p)) <= length ls.
Proof.
  intros Hiw Hi Hne Ecat Hv. rewrite findall_token_re in *.
  rewrite format_paragraph_lines by assumption.
  rewrite splitlines_nl_text_exact
    by now apply paragraph_lines_no_break, indent_no_break.
  unfold paragraph_lines. rewrite length_map.
  pose proof (tokens_words p) as Hw.
  destruct (tokens p) as [|w1 ws] eqn:Et; [contradiction|].
  cbn [layout_words].
  destruct ls as [|o1 os]; [discriminate|].
  inversion Hv as [|? ? [Ho1 _] _]; subst.
  destruct o1 as [|w0 m]; [contradiction|].
  cbn [concat app] in Ecat. injection Ecat as -> Ecat.
  inversion Hw as [|? ? Hw1 Hws]; subst.
  cbn [length].
  apply (layout_fewest iw w _ Hws [] [w1] m os);
    [discriminate | constructor | now constructor | reflexivity | exact Hv].
Qed.

Lemma format_paragraph_uses_fewest_lines_witness :
  let p := lit "aa bb cc dd ee" in
  let ls := [[lit "aa"]; [lit "bb"; lit "cc"]; [lit "dd"; lit "ee"]] in
  (0 <= 0)%Z /\
  forallb is_indent_char [] = true /\
  findall token_re p <> [] /\
  concat ls = findall token_re p /\
  Forall (fun l => l <> [] /\
                   (length l = 1 \/ (0 + len (render_words l) <= 8)%Z)) ls /\
  splitlines (format_paragraph [] 0 8 p) = [lit "aa bb cc"; lit "dd ee"] /\
  length (splitlines (format_paragraph [] 0 8 p)) <= length ls.
Proof.
  cbv zeta.
  assert (H1 : (0 <= 0)%Z) by lia.
  assert (H2 : forallb is_indent_char [] = true) by reflexivity.
  assert (H3 : findall token_re (lit "aa bb cc dd ee") <> [])
    by (vm_compute; discriminate).
  assert (H4 : concat [[lit "aa"]; [lit "bb"; lit "cc"];
                       [lit "dd"; lit "ee"]] =
               findall token_re (lit "aa bb cc dd ee"))
    by (vm_compute; reflexivity).
  assert (H5 : Forall (fun l => l <> [] /\
                                (length l = 1 \/
                                 (0 + len (render_words l) <= 8)%Z))
                      [[lit "aa"]; [lit "bb"; lit "cc"];
                       [lit "dd"; lit "ee"]]).
  { apply Forall_cons; [split; [discriminate | now left]|].
    apply Forall_cons;
      [split; [discriminate | right; vm_compute; discriminate]|].
    apply Forall_cons;
      [split; [discriminate | right; vm_compute; discriminate]|].
    apply Forall_nil. }
  split; [exact H1|]. split; [exact H2|]. split; [exact H3|].
  split; [exact H4|]. split; [exact H5|].
  split; [vm_compute; reflexivity|].
  exact (format_paragraph_uses_fewest_lines [] 0 8 _ _ H1 H2 H3 H4 H5).
Defined.

(** X22: a wider margin never gives a paragraph more lines. *)
Theorem wider_margin_no_more_lines
        (indent : str) (iw w w' : Z) (p : str) :
  (0 <= iw)%Z ->
  forallb is_indent_char indent = true ->
  findall token_re p <> [] ->
  (w <= w')%Z ->
  length (splitlines (format_paragraph indent iw w' p)) <=
  length (splitlines (format_paragraph indent iw w p)).
Proof.
  intros Hiw Hi Hne Hww. rewrite findall_token_re in Hne.
  rewrite !format_paragraph_lines by assumption.
  rewrite !splitlines_nl_text_exact
    by now apply paragraph_lines_no_break, indent_no_break.
  unfold paragraph_lines. rewrite !length_map.
  pose proof (tokens_words p) as Hw.
  pose proof (layout_words_width iw w (tokens p) Hw) as Hwd.
  pose proof (layout_words_lines iw w (tokens p) Hw) as Hln.
  pose proof (layout_words_concat iw w (tokens p)) as Hcat.
  destruct (tokens p) as [|w1 ws] eqn:Et; [contradiction|].
  inversion Hw as [|? ? Hw1 Hws]; subst.
  destruct (layout_words iw w (w1 :: ws)) as [|o1 os] eqn:El;
    [discriminate|].
  inversion Hln as [|? ? [Ho1 _] _]; subst.
  destruct o1 as [|w0 m]; [contradiction|].
  cbn [concat app] in Hcat. injection Hcat as -> Hcat.
  cbn [layout_words length].
  apply (layout_fewest iw w' ws Hws [] [w1] m os);
    [discriminate | constructor | now constructor | exact Hcat |].
  cbn [app].
  assert (Hboth : Forall (fun l => l <> [] /\
                                   ((exists x, l = [x]) \/
                                    (line_width iw l <= w)%Z))
                         ((w1 :: m) :: os)).
  { clear - Hwd Hln. revert Hwd Hln.
    generalize ((w1 :: m) :: os). intros l.
    induction l as [|a l IH]; intros H1 H2; [constructor|].
    inversion H1; inversion H2; subst.
    constructor; [|now apply IH]. split; [tauto | assumption]. }
  eapply Forall_impl; [|exact Hboth].
  intros l [Hl [[x ->]|Hle]]; (split; [exact Hl|]); [now left | right; lia].
Qed.

Lemma wider_margin_no_more_lines_witness :
  (0 <= 2)%Z /\
  forallb is_indent_char (lit "# ") = true /\
  findall token_re (lit "aa bb cc dd") <> [] /\
  (7 <= 10)%Z /\
  length (splitlines (format_paragraph (lit "# ") 2 7 (lit "aa bb cc dd")))
  = 2 /\
  length (splitlines (format_paragraph (lit "# ") 2 10 (lit "aa bb cc dd")))
  <=
  length (splitlines (format_paragraph (lit "# ") 2 7 (lit "aa bb cc dd"))).
Proof.
  assert (H1 : (0 <= 2)%Z) by lia.
  assert (H2 : forallb is_indent_char (lit "# ") = true) by reflexivity.
  assert (H3 : findall token_re (lit "aa bb cc dd") <> [])
    by (vm_compute; discriminate).
  assert (H4 : (7 <= 10)%Z) by lia.
  split; [exact H1|]. split; [exact H2|]. split; [exact H3|].
  split; [exact H4|]. split; [vm_compute; reflexivity|].
  exact (wider_margin_no_more_lines (lit "# ") 2 7 10 _ H1 H2 H3 H4).
Defined.

(** ** The subscripts of [format_paragraph] *)

Lemma add_word_nonempty (indent : str) (iw w : Z) (st : fp_state)
      (word : str) :
  word <> [] -> new_paragraph (add_word indent iw w st word) <> [].
Proof.
  intros Hw. unfold add_word.
  assert (A : forall (x y z : str), z <> [] -> x ++ y ++ z <> []).
  { intros x y z Hz E. apply app_eq_nil in E as [_ E].
    now apply app_eq_nil in E as [_ E]. }
  set (st1 := if negb (offset st =? 0)%Z then _ else st).
  destruct (offset st1 =? 0)%Z eqn:E1; cbn [new_paragraph];
    [now apply A|].
  subst st1. destruct (offset st =? 0)%Z eqn:E0; cbn [negb] in *;
    [congruence|].
  destruct (_ <=? _)%Z; cbn [new_paragraph]; [now apply A|].
  intros E. apply app_eq_nil in E as [_ E]. discriminate.
Qed.

(** X23: [format_paragraph] never takes a subscript out of range,
    whatever the indent and the widths are.  When the loop comes to a
    word, the word is not empty, so [word[0]] exists, and if the offset
    is not 0, which is when [new_paragraph[-1]] is evaluated,
    [new_paragraph] is not empty. *)
Theorem subscripts_never_out_of_range
        (indent : str) (indent_width max_line_length : Z)
        (paragraph : str) (before : list str) (word : str)
        (after : list str) :
  findall token_re paragraph = before ++ word :: after ->
  let st := fold_left (add_word indent indent_width max_line_length) before
                      (FpState [] 0) in
  word <> [] /\ (offset st <> 0%Z -> new_paragraph st <> []).
Proof.
  intros E st. pose proof (tokens_words paragraph) as H.
  rewrite <- findall_token_re, E in H.
  apply Forall_app in H as [Hb Hw]. inversion Hw as [|? ? Hword _]; subst.
  split; [now apply is_word_nonempty|].
  subst st. destruct before as [|b0 bs]; [now intros []|].
  destruct (@exists_last _ (b0 :: bs) ltac:(discriminate))
    as (b' & x & Eb).
  rewrite Eb in *. rewrite fold_left_app. cbn [fold_left]. intros _.
  apply add_word_nonempty.
  apply Forall_app in Hb as [_ Hx]. inversion Hx; subst.
  now apply is_word_nonempty.
Qed.

Lemma subscripts_never_out_of_range_witness :
  findall token_re (lit "one two three") =
  [lit "one"] ++ lit "two" :: [lit "three"] /\
  lit "two" <> [] /\
  new_paragraph (fold_left (add_word (lit "# ") (-3) 0) [lit "one"]
                           (FpState [] 0)) = lit "# one" /\
  offset (fold_left (add_word (lit "# ") (-3) 0) [lit "one"]
                    (FpState [] 0)) = 0%Z.
Proof.
  assert (E : findall token_re (lit "one two three") =
              [lit "one"] ++ lit "two" :: [lit "three"])
    by (vm_compute; reflexivity).
  split; [exact E|]. split.
  - exact (proj1 (subscripts_never_out_of_range (lit "# ") (-3) 0 _ _ _ _ E)).
  - split; reflexivity.
Defined.

(** ** The tab width *)

Lemma fits_shift (iw w d : Z) (cur : list str) (x : str) :
  fits (iw - d) (w - d) cur x = fits iw w cur x.
Proof.
  unfold fits, line_width.
  destruct (Z.leb_spec (iw + len (render_words cur) +
                        len (space_for (render_words cur) x) + len x) w);
    [apply Z.leb_le | apply Z.leb_gt]; lia.
Qed.

Lemma layout_shift (iw w d : Z) (ws : list str) :
  forall cur, layout (iw - d) (w - d) cur ws = layout iw w cur ws.
Proof.
  induction ws as [|x ws IH]; intros cur; cbn [layout]; [reflexivity|].
  now rewrite fits_shift, !IH.
Qed.

Lemma format_paragraph_shift (indent : str) (iw w d : Z) (p : str) :
  (0 <= iw)%Z -> (0 <= iw - d)%Z ->
  format_paragraph indent (iw - d) (w - d) p = format_paragraph indent iw w p.
Proof.
  intros H1 H2. unfold format_paragraph. rewrite findall_token_re.
  destruct (tokens p) as [|w1 ws] eqn:Et; [reflexivity|].
  pose proof (tokens_words p) as Hw. rewrite Et in Hw.
  rewrite !format_words_layout by (assumption || discriminate).
  cbn [layout_words]. now rewrite layout_shift.
Qed.

(** X24: a tab in the indent narrows the margin.  The tab width enters
    the re-wrapping only through the width of the indent: with a tab
    width that is not negative, the text is the one for a tab width of 1
    and a margin reduced by [tab_width - 1] columns for every tab of the
    indent; and when the indent holds no tab, the tab width does not
    matter at all. *)
Theorem tabs_narrow_the_margin (t : str) (w tw : Z) :
  (0 <= tw)%Z ->
  let n := count TAB (extract_indent (t ++ [NL])) in
  reflow t w tw = reflow t (w - n * (tw - 1)) 1 /\
  (n = 0%Z -> forall tw', reflow t w tw' = reflow t w tw).
Proof.
  intros Htw n. unfold reflow. cbv zeta.
  set (indent := extract_indent (t ++ [NL])) in *.
  split.
  - f_equal. apply map_ext. intros p.
    assert (Hn : (0 <= n <= len indent)%Z).
    { subst n. unfold count, len.
      pose proof (filter_length_le (Ascii.eqb TAB) indent). lia. }
    assert (E1 : indent_width_of indent 1 =
                 (indent_width_of indent tw - n * (tw - 1))%Z)
      by (unfold indent_width_of; fold n; lia).
    rewrite E1. symmetry. apply format_paragraph_shift.
    + unfold indent_width_of. fold n. nia.
    + rewrite <- E1. unfold indent_width_of. fold n.
      pose proof (len_nonneg indent). lia.
  - intros Hn tw'. unfold indent_width_of. fold n. rewrite Hn.
    reflexivity.
Qed.

Lemma tabs_narrow_the_margin_witness :
  let t := (TAB :: lit "# one two three") ++ [NL] in
  (0 <= 4)%Z /\
  count TAB (extract_indent (t ++ [NL])) = 1%Z /\
  reflow t 12 4 = reflow t (12 - 1 * (4 - 1)) 1 /\
  reflow t 12 4 = (TAB :: lit "# one") ++ NL :: (TAB :: lit "# two") ++
                  NL :: (TAB :: lit "# three") ++ [NL].
Proof.
  cbv zeta.
  assert (H1 : (0 <= 4)%Z) by lia.
  split; [exact H1|]. split; [vm_compute; reflexivity|]. split.
  - exact (proj1 (tabs_narrow_the_margin
                    ((TAB :: lit "# one two three") ++ [NL]) 12 4 H1)).
  - vm_compute. reflexivity.
Defined.

(** * Re-wrapping the document again *)

Lemma reflow_twice (t : str) (w tw : Z) :
  (1 <= tw)%Z ->
  Forall (fun l => indent_exact (extract_indent (t ++ [NL])) l = true)
         (splitlines (reflow t w tw)) ->
  reflow (reflow t w tw) w tw = reflow t w tw.
Proof.
  intros Htw Hkept.
  destruct (paragraphs_of (strip_indent (t ++ [NL]))) as [|p0 ps0] eqn:EP.
  - assert (E : reflow t w tw = [])
      by (unfold reflow; cbv zeta; now rewrite EP).
    rewrite E. reflexivity.
  - assert (Hne : paragraphs_of (strip_indent (t ++ [NL])) <> [])
      by (rewrite EP; discriminate).
    unfold reflow at 1. cbv zeta.
    rewrite (second_pass_paragraphs t w tw Htw Hkept).
    rewrite (second_pass_indent t w tw Htw Hkept Hne).
    unfold reflow. cbv zeta. f_equal.
    rewrite !map_map. apply map_ext. intros p.
    unfold format_paragraph. rewrite !findall_token_re.
    now rewrite second_pass_tokens.
Qed.

Lemma cursor_at_line_start_eq
      (starts_line : str -> nat -> bool)
      (set_line_offset_0 forward_line : str -> nat -> nat)
      (gconf_get_int : string -> Z) (d : TextBuffer.buffer) (s : nat) :
  (TextBuffer.insert_offset d = s ->
   TextBuffer.selection_bound_offset d = s ->
   starts_line (TextBuffer.text d) s = true ->
   get_text_selection starts_line set_line_offset_0 forward_line d =
   (s, s, [])) /\
  (TextBuffer.insert_offset d = s ->
   TextBuffer.selection_bound_offset d = s ->
   starts_line (TextBuffer.text d) s = true ->
   rewrap_document starts_line set_line_offset_0 forward_line
                   gconf_get_int d = d).
Proof.
  assert (E : TextBuffer.insert_offset d = s ->
              TextBuffer.selection_bound_offset d = s ->
              starts_line (TextBuffer.text d) s = true ->
              get_text_selection starts_line set_line_offset_0
                                 forward_line d = (s, s, [])).
  { intros Hi Hb Hs.
    unfold get_text_selection, TextBuffer.get_has_selection,
      TextBuffer.get_iter_at_mark, TextBuffer.get_insert.
    rewrite Hi, Hb, Nat.eqb_refl. cbn [negb]. rewrite Hs. cbn [negb].
    unfold TextBuffer.get_text.
    now rewrite Nat.min_id, Nat.max_id, Nat.sub_diag. }
  split; [exact E|].
  intros Hi Hb Hs. unfold rewrap_document. now rewrite (E Hi Hb Hs).
Qed.

Section DocumentAgain.

Variable starts_line : str -> nat -> bool.
Variables set_line_offset_0 forward_line : str -> nat -> nat.
Variable gconf_get_int : string -> Z.

Hypothesis set_line_offset_0_le :
  forall t p, p <= length t -> set_line_offset_0 t p <= p.
Hypothesis forward_line_bounds :
  forall t p, p <= length t ->
              p <= forward_line t p /\ forward_line t p <= length t.

Lemma rewrap_document_eq (d : TextBuffer.buffer) (s e : nat) (txt : str) :
  marks_in_text d ->
  get_text_selection starts_line set_line_offset_0 forward_line d =
  (s, e, txt) ->
  txt <> [] ->
  s <= e /\ e <= length (TextBuffer.text d) /\
  exists marks,
    rewrap_document starts_line set_line_offset_0 forward_line
                    gconf_get_int d =
    TextBuffer.Buffer
      (firstn s (TextBuffer.text d) ++
       reflow txt (get_gedit_margin gconf_get_int)
              (get_gedit_tab_width gconf_get_int) ++
       skipn e (TextBuffer.text d))
      (s + length (reflow txt (get_gedit_margin gconf_get_int)
                          (get_gedit_tab_width gconf_get_int)))
      s marks.
Proof.
  intros Hm E Htxt.
  destruct (get_text_selection_range starts_line set_line_offset_0
              forward_line set_line_offset_0_le forward_line_bounds
              d s e txt Hm E) as (H1 & H2 & H3 & H4 & H5).
  assert (Hse : s <= e) by lia.
  split; [exact Hse|]. split; [exact H3|].
  unfold rewrap_document. rewrite E.
  unfold rewrap_selection. destruct txt as [|c txt]; [contradiction|].
  rewrite (replace_text_selection_eq d s e _ Hse H3) by (split; lia).
  eexists. reflexivity.
Qed.

(** X25: re-wrapping the document a second time changes nothing.  After
    [_rewrap_selection] has replaced a non-empty selected text, with a
    tab width of at least 1, a second call right away leaves the text,
    the cursor and the selection bound as they are, provided that both
    ends of the new text start a line in the new buffer and that no
    line of the new text has an indent character right after the indent
    (the condition under which the re-wrapped text is re-wrapped to
    itself). *)
Theorem rewrap_document_twice (d : TextBuffer.buffer) (s e : nat)
        (txt : str) :
  marks_in_text d ->
  get_text_selection starts_line set_line_offset_0 forward_line d =
  (s, e, txt) ->
  txt <> [] ->
  (1 <= get_gedit_tab_width gconf_get_int)%Z ->
  let out := reflow txt (get_gedit_margin gconf_get_int)
                    (get_gedit_tab_width gconf_get_int) in
  let d' := rewrap_document starts_line set_line_offset_0 forward_line
                            gconf_get_int d in
  let d'' := rewrap_document starts_line set_line_offset_0 forward_line
                             gconf_get_int d' in
  Forall (fun l => indent_exact (extract_indent (txt ++ [NL])) l = true)
         (splitlines out) ->
  starts_line (TextBuffer.text d') s = true ->
  starts_line (TextBuffer.text d') (s + length out) = true ->
  TextBuffer.text d'' = TextBuffer.text d' /\
  TextBuffer.insert_offset d'' = TextBuffer.insert_offset d' /\
  TextBuffer.selection_bound_offset d'' =
  TextBuffer.selection_bound_offset d'.
Proof.
  intros Hm E Htxt Htw. cbv zeta.
  destruct (rewrap_document_eq d s e txt Hm E Htxt)
    as (Hse & Hel & marks & Ed).
  set (out := reflow txt (get_gedit_margin gconf_get_int)
                     (get_gedit_tab_width gconf_get_int)) in *.
  set (d' := rewrap_document starts_line set_line_offset_0 forward_line
                             gconf_get_int d) in *.
  intros Hkept Hs He.
  assert (Hl : length (firstn s (TextBuffer.text d)) = s)
    by (rewrite length_firstn; lia).
  assert (Hi' : TextBuffer.insert_offset d' = s + length out)
    by now rewrite Ed.
  assert (Hb' : TextBuffer.selection_bound_offset d' = s)
    by now rewrite Ed.
  assert (Ht' : TextBuffer.text d' =
                firstn s (TextBuffer.text d) ++ out ++
                skipn e (TextBuffer.text d))
    by now rewrite Ed.
  clearbody d'. clear Ed.
  destruct (Nat.eq_dec (length out) 0) as [L0|LN].
  - (* nothing was inserted: no selection, the cursor starts a line *)
    rewrite L0, Nat.add_0_r in Hi'.
    now rewrite (proj2 (cursor_at_line_start_eq
                          starts_line set_line_offset_0 forward_line
                          gconf_get_int d' s) Hi' Hb' Hs).
  - assert (Hne : out <> []) by (intros E0; now rewrite E0 in LN).
    assert (Hm' : marks_in_text d').
    { unfold marks_in_text. rewrite Hi', Hb', Ht', !length_app, Hl. lia. }
    assert (E' : get_text_selection starts_line set_line_offset_0
                                    forward_line d' =
                 (s, s + length out, out)).
    { unfold get_text_selection, TextBuffer.get_has_selection,
        TextBuffer.get_selection_bounds.
      rewrite Hi', Hb'.
      destruct (Nat.eqb_spec (s + length out) s) as [Eq|_]; [lia|].
      cbn [negb]. rewrite Nat.min_r, Nat.max_l by lia.
      rewrite Hs, He. cbn [negb]. f_equal.
      unfold TextBuffer.get_text. rewrite Ht'.
      rewrite Nat.min_l, Nat.max_r by lia.
      rewrite skipn_app, Hl, Nat.sub_diag, skipn_O.
      rewrite (skipn_all2 (n := s) (firstn s (TextBuffer.text d)))
        by (rewrite Hl; lia).
      cbn [app].
      replace (s + length out - s) with (length out) by lia.
      rewrite firstn_app, Nat.sub_diag, firstn_O, app_nil_r.
      apply firstn_all. }
    destruct (rewrap_document_eq d' s (s + length out) out Hm' E' Hne)
      as (_ & _ & marks' & Ed').
    assert (Hidem : reflow out (get_gedit_margin gconf_get_int)
                           (get_gedit_tab_width gconf_get_int) = out)
      by (apply reflow_twice; [exact Htw | exact Hkept]).
    rewrite Hidem in Ed'. rewrite Ed'.
    cbn [TextBuffer.text TextBuffer.insert_offset
         TextBuffer.selection_bound_offset].
    rewrite Hi', Hb'. split; [|split; reflexivity].
    rewrite Ht'.
    rewrite firstn_app, Hl, Nat.sub_diag, firstn_O, app_nil_r.
    rewrite firstn_firstn, Nat.min_id.
    f_equal. f_equal.
    rewrite skipn_app, Hl.
    rewrite (skipn_all2 (n := s + length out)
                        (firstn s (TextBuffer.text d)))
      by (rewrite Hl; lia).
    cbn [app].
    replace (s + length out - s) with (length out) by lia.
    rewrite skipn_app, Nat.sub_diag, skipn_O.
    now rewrite skipn_all.
Qed.

End DocumentAgain.

Lemma rewrap_document_twice_witness :
  let d := TextBuffer.Buffer
             (text_of ["one two three four"; "five"; "six"]) 5 22 [] in
  let txt := text_of ["one two three four"; "five"] in
  let out := reflow txt (get_gedit_margin example_gconf)
                    (get_gedit_tab_width example_gconf) in
  let d' := rewrap_document nl_starts_line nl_set_line_offset_0
                            nl_forward_line example_gconf d in
  let d'' := rewrap_document nl_starts_line nl_set_line_offset_0
                             nl_forward_line example_gconf d' in
  marks_in_text d /\
  get_text_selection nl_starts_line nl_set_line_offset_0 nl_forward_line d =
  (0, 24, txt) /\
  txt <> [] /\
  (1 <= get_gedit_tab_width example_gconf)%Z /\
  Forall (fun l => indent_exact (extract_indent (txt ++ [NL])) l = true)
         (splitlines out) /\
  nl_starts_line (TextBuffer.text d') 0 = true /\
  nl_starts_line (TextBuffer.text d') (0 + length out) = true /\
  TextBuffer.text d' = text_of ["one two"; "three four"; "five"; "six"] /\
  TextBuffer.text d'' = TextBuffer.text d'.
Proof.
  cbv zeta.
  assert (Hm : marks_in_text
                 (TextBuffer.Buffer
                    (text_of ["one two three four"; "five"; "six"]) 5 22 []))
    by (unfold marks_in_text; cbn; lia).
  assert (E : get_text_selection nl_starts_line nl_set_line_offset_0
                nl_forward_line
                (TextBuffer.Buffer
                   (text_of ["one two three four"; "five"; "six"]) 5 22 []) =
              (0, 24, text_of ["one two three four"; "five"]))
    by (vm_compute; reflexivity).
  assert (Hne : text_of ["one two three four"; "five"] <> [])
    by discriminate.
  assert (Htw : (1 <= get_gedit_tab_width example_gconf)%Z)
    by (vm_compute; discriminate).
  assert (Hk : Forall
                 (fun l => indent_exact
                             (extract_indent
                                (text_of ["one two three four"; "five"] ++
                                 [NL])) l = true)
                 (splitlines
                    (reflow (text_of ["one two three four"; "five"])
                            (get_gedit_margin example_gconf)
                            (get_gedit_tab_width example_gconf)))).
  { apply Forall_forall. intros l Hl.
    assert (Es : splitlines
                   (reflow (text_of ["one two three four"; "five"])
                           (get_gedit_margin example_gconf)
                           (get_gedit_tab_width example_gconf)) =
                 [lit "one two"; lit "three four"; lit "five"])
      by (vm_compute; reflexivity).
    rewrite Es in Hl.
    destruct Hl as [<-|[<-|[<-|[]]]]; vm_compute; reflexivity. }
  assert (Hs : nl_starts_line
                 (TextBuffer.text
                    (rewrap_document nl_starts_line nl_set_line_offset_0
                       nl_forward_line example_gconf
                       (TextBuffer.Buffer
                          (text_of ["one two three four"; "five"; "six"])
                          5 22 []))) 0 = true)
    by (vm_compute; reflexivity).
  assert (He : nl_starts_line
                 (TextBuffer.text
                    (rewrap_document nl_starts_line nl_set_line_offset_0
                       nl_forward_line example_gconf
                       (TextBuffer.Buffer
                          (text_of ["one two three four"; "five"; "six"])
                          5 22 [])))
                 (0 + length
                        (reflow (text_of ["one two three four"; "five"])
                                (get_gedit_margin example_gconf)
                                (get_gedit_tab_width example_gconf))) = true)
    by (vm_compute; reflexivity).
  split; [exact Hm|]. split; [exact E|]. split; [exact Hne|].
  split; [exact Htw|]. split; [exact Hk|]. split; [exact Hs|].
  split; [exact He|]. split; [vm_compute; reflexivity|].
  exact (proj1 (rewrap_document_twice
                  nl_starts_line nl_set_line_offset_0 nl_forward_line
                  example_gconf nl_set_line_offset_0_le
                  nl_forward_line_bounds _ _ _ _ Hm E Hne Htw Hk Hs He)).
Defined.

(** * The stripping stage and the indent of the output lines *)

Lemma length_removelast_le {A : Type} (l : list A) :
  length (removelast l) <= length l /\
  length l <= S (length (removelast l)).
Proof.
  rewrite removelast_firstn_len, length_firstn. lia.
Qed.

(** X9: after the stripping stage (lines 240-241) no line of the text
    starts with an indent character.  The lines of the stripped text are
    the lines of the text, each without its leading indent characters,
    in their order, except that the last one is lost when nothing is
    left of it: the stage keeps the number of lines or loses one. *)
Theorem stripped_lines_start_without_indent (text : str) :
  let stripped := map (lstrip INDENT_CHARS) (splitlines text) in
  Forall (fun l => indent_exact [] l = true)
         (splitlines (strip_indent text)) /\
  splitlines (strip_indent text) =
  match last stripped [] with
  | [] => removelast stripped
  | _ :: _ => stripped
  end /\
  length (splitlines (strip_indent text)) <= length (splitlines text) /\
  length (splitlines text) <= S (length (splitlines (strip_indent text))).
Proof.
  cbv zeta.
  assert (E : splitlines (strip_indent text) =
              match last (map (lstrip INDENT_CHARS) (splitlines text)) [] with
              | [] => removelast (map (lstrip INDENT_CHARS) (splitlines text))
              | _ :: _ => map (lstrip INDENT_CHARS) (splitlines text)
              end).
  { unfold strip_indent. apply splitlines_join.
    apply (stripped_lines_no_break text). }
  assert (H : Forall (fun l => indent_exact [] l = true)
                     (map (lstrip INDENT_CHARS) (splitlines text))).
  { apply Forall_map, Forall_forall.
    intros l _. apply lstrip_indent_exact_nil. }
  pose proof (length_removelast_le
                (map (lstrip INDENT_CHARS) (splitlines text))) as [L1 L2].
  rewrite length_map in L1, L2.
  split; [|split; [exact E|]]; rewrite E;
    destruct (last (map (lstrip INDENT_CHARS) (splitlines text)) []).
  - now apply Forall_removelast.
  - exact H.
  - lia.
  - rewrite length_map. lia.
Qed.

(** The first token of an accepted line that does not start with an
    indent character does not start with one either. *)
Lemma first_token_of_stripped_line (raw : str) (tok : str)
      (after : list str) :
  good_line (lstrip INDENT_CHARS raw) = true ->
  tokens (lstrip INDENT_CHARS raw) = tok :: after ->
  is_indent_char (hd SP tok) = false.
Proof.
  intros Hg E.
  pose proof (good_line_nonempty _ Hg) as Hne.
  destruct (lstrip INDENT_CHARS raw) as [|c s] eqn:El; [contradiction|].
  assert (Hc : is_indent_char c = false).
  { rewrite lstrip_drop_while in El.
    exact (drop_while_head _ _ _ _ El). }
  assert (Hs : is_space c = false).
  { unfold good_line in Hg. apply andb_prop in Hg as [Hg _].
    cbn [forallb] in Hg. apply andb_prop in Hg as [Hg _].
    unfold line_char in Hg. apply orb_prop in Hg as [Hb|Hn].
    - exfalso. unfold blank, in_chars in Hb. cbn [existsb] in Hb.
      apply orb_prop in Hb as [Hb|Hb];
        [apply Ascii.eqb_eq in Hb; subst; discriminate|].
      apply orb_prop in Hb as [Hb|Hb]; [|discriminate].
      apply Ascii.eqb_eq in Hb. subst. discriminate.
    - unfold non_space in Hn. now apply negb_true_iff in Hn. }
  rewrite (tokens_unfold c s Hs) in E. injection E as <- _.
  cbn [take_while]. unfold non_space. rewrite Hs. cbn [negb hd].
  exact Hc.
Qed.

(** The tokens of the paragraphs are tokens of accepted lines of the
    input, taken after the leading indent characters of each line. *)
Lemma paragraph_token_source (t p tok : str) :
  In p (paragraphs_of (strip_indent (t ++ [NL]))) ->
  In tok (tokens p) ->
  exists raw, In raw (splitlines t) /\
              good_line (lstrip INDENT_CHARS raw) = true /\
              In tok (tokens (lstrip INDENT_CHARS raw)).
Proof.
  intros Hp Htok. rewrite paragraphs_of_strip_indent in Hp.
  apply in_map_iff in Hp as (b & <- & Hb).
  rewrite tokens_nl_text in Htok.
  apply in_flat_map in Htok as (ln & Hln & Htok).
  assert (Hc : In ln (concat (group_lines []
                                (removelast (stripped_lines (t ++ [NL]))))))
    by (apply in_concat; now exists b).
  rewrite group_lines_concat in Hc. cbn [app] in Hc.
  apply filter_In in Hc as [Hin Hg].
  assert (Hin' : In ln (map (lstrip INDENT_CHARS) (splitlines t))).
  { unfold stripped_lines in Hin.
    destruct (splitlines_add_nl_cases t) as [E|E]; rewrite E in Hin.
    - now apply incl_removelast in Hin.
    - rewrite map_app in Hin. cbn [map lstrip] in Hin.
      now rewrite removelast_snoc in Hin. }
  apply in_map_iff in Hin' as (raw & <- & Hraw).
  now exists raw.
Qed.

(** C8, as the code has it: every line of the output is the extracted
    indent alone (the separator between paragraphs) or the extracted
    indent immediately followed by a token of the input: a token of an
    accepted line of the input, taken after the leading indent
    characters of that line, so that the indentation the line had is
    not kept.  After the token the line ends or goes on with a space.
    The indent characters at the start of the line are exactly the
    extracted indent unless the token itself starts with an indent
    character, and such a token is never the first one of its input
    line: in the words of the source, indentation characters that occur
    after the first non-indentation character are not handled
    specially. *)
Theorem output_lines_begin_with_indent (t : str) (w tw : Z) (l : str) :
  (1 <= tw)%Z ->
  In l (splitlines (reflow t w tw)) ->
  let indent := extract_indent (t ++ [NL]) in
  l = indent \/
  exists tok r,
    l = indent ++ tok ++ r /\
    is_word tok = true /\
    starts_with_space r /\
    indent_exact indent l = negb (is_indent_char (hd SP tok)) /\
    exists raw before after,
      In raw (splitlines t) /\
      tokens (lstrip INDENT_CHARS raw) = before ++ tok :: after /\
      (is_indent_char (hd SP tok) = true -> before <> []).
Proof.
  intros Htw Hl. rewrite splitlines_reflow in Hl by exact Htw.
  apply out_lines_cases in Hl as [->|(p & ws & Hp & Hws & ->)]; [now left|].
  right. cbv zeta.
  pose proof (layout_line_words _ _ _ _ Hws) as [Hne Hwords].
  destruct ws as [|tok ws]; [contradiction|].
  inversion Hwords as [|? ? Htok _]; subst.
  assert (Hin : In tok (tokens p)).
  { rewrite <- (layout_words_concat
                  (indent_width_of (extract_indent (t ++ [NL])) tw) w
                  (tokens p)).
    apply in_concat. exists (tok :: ws). split; [exact Hws | now left]. }
  destruct (paragraph_token_source t p tok Hp Hin)
    as (raw & Hraw & Hg & Hin').
  apply in_split in Hin' as (before & after & Esplit).
  exists tok.
  exists (match ws with
          | [] => []
          | w' :: _ => space_for tok w' ++ render_words ws
          end).
  split; [|split; [exact Htok|split; [|split]]].
  - unfold render_line. destruct ws; cbn [render_words];
      [now rewrite app_nil_r | reflexivity].
  - destruct ws as [|w' ws]; [exact I|].
    now destruct (space_for_cases tok w') as [-> | ->].
  - unfold indent_exact, render_line.
    rewrite skipn_app, skipn_all, Nat.sub_diag. cbn [app skipn].
    pose proof (is_word_nonempty _ Htok) as Hn.
    destruct tok as [|c tok']; [contradiction|].
    destruct ws; reflexivity.
  - exists raw, before, after.
    split; [exact Hraw|]. split; [exact Esplit|].
    intros Hi ->. cbn [app] in Esplit.
    rewrite (first_token_of_stripped_line raw tok after Hg Esplit) in Hi.
    discriminate.
Qed.

(** C8 as stated fails: with a margin of 14 the token [--verbose] comes
    first on the second line of the output, and the indent characters
    that line begins with are [# --], not the extracted indent [# ]. *)
Lemma indent_uniformity_counterexample :
  let t := text_of ["# see the --verbose flag"] in
  let l := lit "# --verbose" in
  extract_indent (t ++ [NL]) = lit "# " /\
  reflow t 14 4 = text_of ["# see the"; "# --verbose"; "# flag"] /\
  In l (splitlines (reflow t 14 4)) /\
  l <> [] /\
  take_while is_indent_char l = lit "# --" /\
  take_while is_indent_char l <> extract_indent (t ++ [NL]) /\
  indent_exact (extract_indent (t ++ [NL])) l = false.
Proof.
  cbv zeta.
  split; [vm_compute; reflexivity|].
  split; [vm_compute; reflexivity|].
  split; [vm_compute; right; now left|].
  split; [discriminate|].
  split; [vm_compute; reflexivity|].
  split; [vm_compute; discriminate|].
  vm_compute. reflexivity.
Qed.

Lemma output_lines_begin_with_indent_witness :
  let t := text_of ["# see the --verbose flag"] in
  let l := lit "# --verbose" in
  (1 <= 4)%Z /\
  In l (splitlines (reflow t 14 4)) /\
  (l = extract_indent (t ++ [NL]) \/
   exists tok r,
     l = extract_indent (t ++ [NL]) ++ tok ++ r /\
     is_word tok = true /\
     starts_with_space r /\
     indent_exact (extract_indent (t ++ [NL])) l =
     negb (is_indent_char (hd SP tok)) /\
     exists raw before after,
       In raw (splitlines t) /\
       tokens (lstrip INDENT_CHARS raw) = before ++ tok :: after /\
       (is_indent_char (hd SP tok) = true -> before <> [])).
Proof.
  cbv zeta.
  assert (H1 : (1 <= 4)%Z) by lia.
  assert (H2 : In (lit "# --verbose")
                  (splitlines
                     (reflow (text_of ["# see the --verbose flag"]) 14 4)))
    by (vm_compute; right; now left).
  split; [exact H1|]. split; [exact H2|].
  exact (output_lines_begin_with_indent _ _ _ _ H1 H2).
Defined.

(** * The paragraphs of the input in the output *)












